(** * Polymer analyzer: a shallow embedding of the analysis context,
      the Polymer property model, the behavior scanner, the custom-element
      reference scanner and the summary emitter.

    JavaScript strings are sequences of UTF-16 code units; objects that the
    code mutates in place are threaded through the functions explicitly, and
    a function that can throw returns a [Completion]. *)

From Stdlib Require Import NArith List String Ascii Bool Lia Sorted.
From stdpp Require Import base option list gmap.
Import ListNotations.

(** ** JavaScript strings *)

Abbreviation codeunit := N (only parsing).
Abbreviation jsstring := (list N) (only parsing).

(** An ASCII literal as a JavaScript string. *)
Definition js (s : string) : jsstring :=
  map N_of_ascii (list_ascii_of_string s).
Arguments js s%_string.

Definition isAZ (c : codeunit) : bool := (65 <=? c)%N && (c <=? 90)%N.
Definition isaz (c : codeunit) : bool := (97 <=? c)%N && (c <=? 122)%N.
Definition hyphen : codeunit := 45%N.

Definition asciiUpper (c : codeunit) : codeunit :=
  if isaz c then (c - 32)%N else c.
Definition asciiLower (c : codeunit) : codeunit :=
  if isAZ c then (c + 32)%N else c.

(** ** Source positions and warnings (model/model) *)

Record Position := { line : N; column : N }.
Record SourceRange := { file : jsstring; start : Position; end_ : Position }.

Inductive Severity := ERROR | WARNING | INFO.

Record Warning := {
  w_sourceRange : SourceRange;
  w_code : jsstring;
  w_message : jsstring;
  w_severity : Severity
}.

(** ** Thrown values and completions *)

Inductive Thrown :=
  | JsUndefined
  | JsNull
  | JsString (s : jsstring)
  | TypeError
  | Error (message : jsstring)
  | NoKnownParserError (message : jsstring)
  | WarningCarryingException (w : Warning)
  | ForeignObject (id : N).

Inductive Completion (A : Type) :=
  | Return (a : A)
  | Throw (e : Thrown).
Arguments Return {A} a.
Arguments Throw {A} e.

(** What the host gives and the code uses without defining it: Unicode case
    mapping ([String.prototype.toUpperCase], [toLowerCase]) and the [stack]
    property of a value that is neither [null] nor [undefined] ([None] when
    the property is [undefined]).  On ASCII the case mappings are fixed by
    the language. *)
Class JsRuntime := {
  toUpperCase : jsstring -> jsstring;
  toLowerCase : jsstring -> jsstring;
  stackOf : Thrown -> option jsstring;
  toUpperCase_ascii :
    forall c, (c < 128)%N -> toUpperCase [c] = [asciiUpper c];
  toLowerCase_ascii :
    forall c, (c < 128)%N -> toLowerCase [c] = [asciiLower c];
  toLowerCase_hyphen :
    forall s, In hyphen (toLowerCase s) -> In hyphen s
}.

(** A runtime that maps case on ASCII only; every closed example below
    stays inside ASCII, where all runtimes agree. *)
#[refine] Instance asciiRuntime : JsRuntime := {|
  toUpperCase := map asciiUpper;
  toLowerCase := map asciiLower;
  stackOf := fun _ => None
|}.
Proof.
  - reflexivity.
  - reflexivity.
  - intros s (c & Hc & Hin)%in_map_iff.
    enough (c = hyphen) by now subst.
    unfold asciiLower in Hc. destruct (isAZ c) eqn:Haz; [|exact Hc].
    assert (c = 13%N) as -> by (unfold hyphen in Hc; lia).
    discriminate.
Defined.

(** * polymer/polymer-element.ts *)

Module PolymerElement.

Inductive Privacy := Public | Private | Protected.

Record ScannedPolymerProperty := {
  p_name : jsstring;
  p_privacy : option Privacy;
  p_published : option bool;
  p_notify : option bool;
  p_description : option jsstring;
  p_type : option jsstring;
  p_sourceRange : option SourceRange;
  p_astNode : N
}.

Record ScannedAttribute := {
  a_name : jsstring;
  a_sourceRange : option SourceRange;
  a_description : option jsstring;
  a_type : option jsstring;
  a_changeEvent : option jsstring
}.

Record ScannedEvent := {
  e_name : jsstring;
  e_description : jsstring;
  e_sourceRange : option SourceRange;
  e_astNode : N;
  e_warnings : list Warning;
  e_params : list jsstring
}.

Record Demo := { d_desc : jsstring; d_path : jsstring }.

Record ScannedBehaviorAssignment := {
  ba_name : jsstring;
  ba_sourceRange : option SourceRange
}.

(** The members of [ScannedPolymerExtension] that the functions below read
    or write; elements, mixins and behaviors all carry them. *)
Record ScannedPolymerExtension := {
  className : option jsstring;
  description : jsstring;
  demos : list Demo;
  events : list ScannedEvent;
  properties : list ScannedPolymerProperty;
  attributes : list ScannedAttribute;
  observers : list N;
  behaviorAssignments : list ScannedBehaviorAssignment
}.

Definition truthy (b : option bool) : bool := default false b.

Section Conversion.
Context `{JsRuntime}.

(** [propertyName.replace(/([A-Z])/g, (_, c1) => `-${c1.toLowerCase()}`)] *)
Definition dashCase (propertyName : jsstring) : jsstring :=
  flat_map (fun c => if isAZ c then hyphen :: toLowerCase [c] else [c])
           propertyName.

Definition propertyToAttributeName (propertyName : jsstring)
  : Completion (option jsstring) :=
  match propertyName with
  | [] => Throw TypeError
  | c :: _ =>
      if decide (toUpperCase [c] = [c]) then Return None
      else Return (Some (dashCase propertyName))
  end.

Definition changedEventName (attributeName : jsstring) : jsstring :=
  attributeName ++ js "-changed".

Definition push_property (t : ScannedPolymerExtension)
    (p : ScannedPolymerProperty) : ScannedPolymerExtension :=
  {| className := className t; description := description t;
     demos := demos t; events := events t;
     properties := properties t ++ [p]; attributes := attributes t;
     observers := observers t;
     behaviorAssignments := behaviorAssignments t |}.

Definition push_attribute (t : ScannedPolymerExtension)
    (a : ScannedAttribute) : ScannedPolymerExtension :=
  {| className := className t; description := description t;
     demos := demos t; events := events t;
     properties := properties t; attributes := attributes t ++ [a];
     observers := observers t;
     behaviorAssignments := behaviorAssignments t |}.

Definition push_event (t : ScannedPolymerExtension)
    (e : ScannedEvent) : ScannedPolymerExtension :=
  {| className := className t; description := description t;
     demos := demos t; events := events t ++ [e];
     properties := properties t; attributes := attributes t;
     observers := observers t;
     behaviorAssignments := behaviorAssignments t |}.

Definition nonpublic (p : ScannedPolymerProperty) : bool :=
  match p_privacy p with
  | Some Public | None => false
  | Some _ => true
  end.

Definition falsyName (a : option jsstring) : bool :=
  match a with
  | None | Some [] => true
  | Some _ => false
  end.

Definition attributeFor (prop : ScannedPolymerProperty)
    (attributeName : jsstring) : ScannedAttribute :=
  {| a_name := attributeName;
     a_sourceRange := p_sourceRange prop;
     a_description := p_description prop;
     a_type := p_type prop;
     a_changeEvent :=
       if truthy (p_notify prop) then Some (changedEventName attributeName)
       else None |}.

Definition changeEventFor (prop : ScannedPolymerProperty)
    (attributeName : jsstring) : ScannedEvent :=
  {| e_name := changedEventName attributeName;
     e_description :=
       js "Fired when the `" ++ p_name prop ++ js "` property changes.";
     e_sourceRange := p_sourceRange prop;
     e_astNode := p_astNode prop;
     e_warnings := [];
     e_params := [] |}.

(** [addProperty] mutates [target]; the target after the call is returned
    next to the completion, also when the call throws. *)
Definition addProperty (target : ScannedPolymerExtension)
    (prop : ScannedPolymerProperty)
  : ScannedPolymerExtension * Completion unit :=
  let target := push_property target prop in
  match propertyToAttributeName (p_name prop) with
  | Throw e => (target, Throw e)
  | Return attributeName =>
      if nonpublic prop || falsyName attributeName
         || negb (truthy (p_published prop))
      then (target, Return tt)
      else
        let a := default [] attributeName in
        let target := push_attribute target (attributeFor prop a) in
        if truthy (p_notify prop)
        then (push_event target (changeEventFor prop a), Return tt)
        else (target, Return tt)
  end.

(** The inverse that the round-trip property speaks of (Polymer core's
    dash-to-camel mapping, [dash.replace(/-[a-z]/g, m => m[1].toUpperCase())]):
    every '-' followed by a letter a..z is deleted and the letter is
    capitalised.  It is not part of the analyzer; it is written here from the
    words of the property. *)
Fixpoint attributeToPropertyName (attributeName : jsstring) : jsstring :=
  match attributeName with
  | [] => []
  | h :: tl =>
      match tl with
      | c :: rest =>
          if (h =? hyphen)%N && isaz c
          then toUpperCase [c] ++ attributeToPropertyName rest
          else h :: attributeToPropertyName tl
      | [] => [h]
      end
  end.

End Conversion.

(** Does a '-' stand immediately before a letter a..z somewhere in [s]? *)
Fixpoint dashBeforeLower (s : jsstring) : bool :=
  match s with
  | [] => false
  | h :: tl =>
      match tl with
      | c :: _ => (h =? hyphen)%N && isaz c
      | [] => false
      end || dashBeforeLower tl
  end.

(** *** Case mapping on ASCII *)

Section ConversionFacts.
Context `{JsRuntime}.

Lemma isAZ_bounds c : isAZ c = true -> (65 <= c <= 90)%N.
Proof. unfold isAZ. rewrite andb_true_iff, !N.leb_le. lia. Qed.

Lemma isaz_bounds c : isaz c = true -> (97 <= c <= 122)%N.
Proof. unfold isaz. rewrite andb_true_iff, !N.leb_le. lia. Qed.

Lemma isaz_false_of_AZ c : isAZ c = true -> isaz c = false.
Proof.
  intros Hc%isAZ_bounds. unfold isaz.
  apply andb_false_iff. left. apply N.leb_gt. lia.
Qed.

Lemma toLowerCase_AZ c : isAZ c = true -> toLowerCase [c] = [(c + 32)%N].
Proof.
  intros Hc. rewrite toLowerCase_ascii by (apply isAZ_bounds in Hc; lia).
  unfold asciiLower. now rewrite Hc.
Qed.

Lemma isaz_lowered c : isAZ c = true -> isaz (c + 32)%N = true.
Proof.
  intros Hc%isAZ_bounds. unfold isaz.
  rewrite andb_true_iff, !N.leb_le. lia.
Qed.

Lemma toUpperCase_lowered c :
  isAZ c = true -> toUpperCase [(c + 32)%N] = [c].
Proof.
  intros Hc. pose proof (isAZ_bounds _ Hc).
  rewrite toUpperCase_ascii by lia.
  unfold asciiUpper. rewrite (isaz_lowered _ Hc). f_equal. lia.
Qed.

Lemma toUpperCase_fixed c :
  (c < 128)%N -> isaz c = false -> toUpperCase [c] = [c].
Proof.
  intros Hc Hz. rewrite toUpperCase_ascii by exact Hc.
  unfold asciiUpper. now rewrite Hz.
Qed.

Lemma toUpperCase_moves c : isaz c = true -> toUpperCase [c] <> [c].
Proof.
  intros Hz. pose proof (isaz_bounds _ Hz).
  rewrite toUpperCase_ascii by lia.
  unfold asciiUpper. rewrite Hz. intros [=]. lia.
Qed.

Lemma dashCase_cons c p :
  dashCase (c :: p) =
  (if isAZ c then hyphen :: toLowerCase [c] else [c]) ++ dashCase p.
Proof. reflexivity. Qed.

Lemma dashCase_nonempty c p : dashCase (c :: p) <> [].
Proof. rewrite dashCase_cons. now destruct (isAZ c). Qed.

(** The conversion on a name whose first character is a letter a..z. *)
Lemma propertyToAttributeName_lower c p :
  isaz c = true ->
  propertyToAttributeName (c :: p) = Return (Some (dashCase (c :: p))).
Proof.
  intros Hz. unfold propertyToAttributeName.
  destruct (decide _) as [E|_]; [|reflexivity].
  now apply toUpperCase_moves in E.
Qed.

(** The conversion on a name whose first character is a letter A..Z. *)
Lemma propertyToAttributeName_upper c p :
  isAZ c = true -> propertyToAttributeName (c :: p) = Return None.
Proof.
  intros Hc. unfold propertyToAttributeName.
  rewrite toUpperCase_fixed.
  - now rewrite decide_True.
  - apply isAZ_bounds in Hc. lia.
  - now apply isaz_false_of_AZ.
Qed.

(** Undoing the conversion, when no '-' of the name stands before a..z. *)
Lemma attributeToPropertyName_dashCase p :
  dashBeforeLower p = false -> attributeToPropertyName (dashCase p) = p.
Proof.
  induction p as [|c p IH]; [reflexivity|].
  intros Hp. cbn [dashBeforeLower] in Hp.
  apply orb_false_iff in Hp as [Hhead Htail].
  specialize (IH Htail). rewrite dashCase_cons.
  destruct (isAZ c) eqn:Hc.
  - rewrite (toLowerCase_AZ _ Hc). cbn [app attributeToPropertyName].
    rewrite N.eqb_refl, (isaz_lowered _ Hc). cbn [andb].
    now rewrite (toUpperCase_lowered _ Hc), IH.
  - cbn [app]. destruct p as [|d p]; [reflexivity|].
    rewrite dashCase_cons in *.
    destruct (isAZ d) eqn:Hd.
    + rewrite (toLowerCase_AZ _ Hd) in *. cbn [app] in *.
      cbn [attributeToPropertyName]. fold attributeToPropertyName.
      replace (isaz hyphen) with false by reflexivity.
      rewrite andb_false_r.
      cbn [attributeToPropertyName] in IH. now rewrite IH.
    + cbn [app] in *. cbn [attributeToPropertyName].
      fold attributeToPropertyName. rewrite Hhead.
      cbn [attributeToPropertyName] in IH. now rewrite IH.
Qed.

(** The inverse shortens the attribute name by one for each '-' it takes
    away; a '-' of the name itself that stands before a..z is taken away
    too, and then the result is shorter than the name. *)
Lemma attributeToPropertyName_length n : forall p,
  length p <= n ->
  length (attributeToPropertyName (dashCase p)) <= length p /\
  (dashBeforeLower p = true ->
   length (attributeToPropertyName (dashCase p)) < length p).
Proof.
  induction n as [|n IH]; intros p Hn.
  { destruct p; [cbn; split; [lia|discriminate]|cbn in Hn; lia]. }
  destruct p as [|c p]; [cbn; split; [lia|discriminate]|].
  cbn [length] in Hn. assert (length p <= n) as Hp by lia.
  destruct (IH p Hp) as [Hle Hlt].
  rewrite dashCase_cons. cbn [dashBeforeLower length].
  destruct (isAZ c) eqn:Hc.
  - rewrite (toLowerCase_AZ _ Hc). cbn [app attributeToPropertyName].
    rewrite N.eqb_refl, (isaz_lowered _ Hc). cbn [andb].
    rewrite (toUpperCase_lowered _ Hc). cbn [app length].
    assert ((c =? hyphen)%N = false) as Hnh.
    { apply N.eqb_neq. apply isAZ_bounds in Hc. unfold hyphen. lia. }
    assert (match p with
            | [] => false
            | c0 :: _ => (c =? hyphen)%N && isaz c0
            end = false) as -> by (destruct p; [reflexivity|now rewrite Hnh]).
    cbn [orb]. split; [lia|]. intros Hd. specialize (Hlt Hd). lia.
  - cbn [app]. destruct p as [|d p']; [cbn; split; [lia|discriminate]|].
    rewrite dashCase_cons in *. cbn [length] in *.
    destruct (isAZ d) eqn:Hd.
    + rewrite (toLowerCase_AZ _ Hd) in *. cbn [app] in *.
      cbn [attributeToPropertyName]. fold attributeToPropertyName.
      replace (isaz hyphen) with false by reflexivity.
      rewrite andb_false_r. cbn [attributeToPropertyName] in Hle, Hlt.
      cbn [length]. rewrite (isaz_false_of_AZ _ Hd), andb_false_r.
      cbn [orb]. split; [lia|]. intros Hdbl. specialize (Hlt Hdbl). lia.
    + cbn [app] in *. cbn [attributeToPropertyName].
      fold attributeToPropertyName.
      destruct ((c =? hyphen)%N && isaz d) eqn:Hcd.
      * apply andb_true_iff in Hcd as [_ Hz].
        rewrite (toUpperCase_ascii d) by (apply isaz_bounds in Hz; lia).
        cbn [app length orb].
        assert (length p' <= n) as Hp' by lia.
        destruct (IH p' Hp') as [Hle' _]. split; intros; lia.
      * cbn [length orb]. cbn [attributeToPropertyName] in Hle, Hlt.
        split; [lia|]. intros Hdbl. specialize (Hlt Hdbl). lia.
Qed.

(** The round trip fails on every accepted name in which a '-' stands
    before a letter a..z. *)
Lemma attribute_roundtrip_only p :
  dashBeforeLower p = true -> attributeToPropertyName (dashCase p) <> p.
Proof.
  intros Hp Heq.
  destruct (attributeToPropertyName_length (length p) p (le_n _)) as [_ Hlt].
  specialize (Hlt Hp). rewrite Heq in Hlt. lia.
Qed.

(** Without a public, published property whose name gives an attribute
    name, [addProperty] records the property and nothing else. *)
Lemma addProperty_guarded target prop attr :
  propertyToAttributeName (p_name prop) = Return attr ->
  nonpublic prop = true \/ attr = None \/ truthy (p_published prop) = false ->
  addProperty target prop = (push_property target prop, Return tt).
Proof.
  intros Hattr Hguard. unfold addProperty. rewrite Hattr.
  destruct Hguard as [-> | [-> | ->]]; [reflexivity| |].
  - cbn. now rewrite orb_true_r.
  - cbn. now rewrite orb_true_r.
Qed.

(** When [addProperty] gets as far as the attribute, the property is
    recorded, then the attribute, then (for a notifying property) the event. *)
Lemma addProperty_published target prop attr :
  nonpublic prop = false ->
  truthy (p_published prop) = true ->
  propertyToAttributeName (p_name prop) = Return (Some attr) ->
  addProperty target prop =
  (let t := push_attribute (push_property target prop)
                           (attributeFor prop attr) in
   if truthy (p_notify prop) then push_event t (changeEventFor prop attr)
   else t,
   Return tt).
Proof.
  intros Hpub Hpubl Hattr. unfold addProperty. rewrite Hattr, Hpub, Hpubl.
  assert (falsyName (Some attr) = false) as ->.
  { unfold propertyToAttributeName in Hattr.
    destruct (p_name prop) as [|c p]; [discriminate|].
    destruct (decide _); [discriminate|].
    injection Hattr as <-. clear.
    unfold falsyName. now destruct (isAZ c). }
  cbn. now destruct (truthy (p_notify prop)).
Qed.

(** C3, the code at a name that starts with an underscore: the test
    [propertyName[0].toUpperCase() === propertyName[0]] holds of every first
    character that upper-casing leaves alone, so the name ["_foo"], which
    does not start with an upper-case letter, gets no attribute. *)
Theorem propertyToAttributeName_rejects_underscore :
  propertyToAttributeName (js "_foo") = Return None.
Proof.
  change (js "_foo") with [95; 102; 111; 111]%N.
  unfold propertyToAttributeName.
  rewrite toUpperCase_fixed by reflexivity.
  now rewrite decide_True.
Qed.

(** C4, as amended: for every property name [p] that the conversion accepts
    and in which no '-' stands immediately before a letter a..z, applying
    the inverse (delete each '-' that precedes a letter and capitalise the
    letter) to the attribute name gives [p] back. *)
Theorem attribute_roundtrip p attr :
  propertyToAttributeName p = Return (Some attr) ->
  dashBeforeLower p = false ->
  attributeToPropertyName attr = p.
Proof.
  unfold propertyToAttributeName. intros Hconv Hp.
  destruct p as [|c p]; [discriminate|].
  destruct (decide _); [discriminate|].
  injection Hconv as <-. exact (attributeToPropertyName_dashCase (c :: p) Hp).
Qed.

(** C5, as amended: for every published property with notify=true whose
    privacy is public or unset and whose name converts to the attribute name
    [attr], [addProperty] appends an event named [attr ++ "-changed"] to the
    events of the target and appends an attribute named [attr] whose
    changeEvent is that same name; the call returns normally. *)
Theorem addProperty_notify target prop attr :
  p_published prop = Some true ->
  p_notify prop = Some true ->
  nonpublic prop = false ->
  propertyToAttributeName (p_name prop) = Return (Some attr) ->
  exists t' ev a,
    addProperty target prop = (t', Return tt) /\
    events t' = events target ++ [ev] /\
    e_name ev = attr ++ js "-changed" /\
    attributes t' = attributes target ++ [a] /\
    a_name a = attr /\
    a_changeEvent a = Some (attr ++ js "-changed").
Proof.
  intros Hpubl Hnot Hpub Hattr.
  rewrite (addProperty_published target prop attr Hpub) by
    (try exact Hattr; unfold truthy; now rewrite Hpubl).
  unfold truthy. rewrite Hnot. cbn [default].
  eexists _, (changeEventFor prop attr), (attributeFor prop attr).
  split; [reflexivity|]. cbn.
  unfold truthy. rewrite Hnot. now cbn.
Qed.

(** C10, as amended: on the empty property name [propertyToAttributeName]
    throws a TypeError, and [addProperty] of a property with the empty name
    throws that TypeError after it has appended the property to the
    properties of the target; no attribute and no event is recorded. *)
Theorem addProperty_empty_name target prop :
  p_name prop = [] ->
  propertyToAttributeName [] = Throw TypeError /\
  addProperty target prop = (push_property target prop, Throw TypeError) /\
  attributes (push_property target prop) = attributes target /\
  events (push_property target prop) = events target.
Proof.
  intros Hname. unfold addProperty. rewrite Hname. now cbn.
Qed.

End ConversionFacts.

(** *** Closed instances *)

Definition emptyExtension : ScannedPolymerExtension :=
  {| className := None; description := []; demos := []; events := [];
     properties := []; attributes := []; observers := [];
     behaviorAssignments := [] |}.

Definition publishedProperty (name : jsstring) (privacy : option Privacy)
  : ScannedPolymerProperty :=
  {| p_name := name; p_privacy := privacy; p_published := Some true;
     p_notify := Some true; p_description := None; p_type := None;
     p_sourceRange := None; p_astNode := 0%N |}.

Example propertyToAttributeName_fooBar :
  propertyToAttributeName (js "fooBar") = Return (Some (js "foo-bar")).
Proof. reflexivity. Qed.

Example propertyToAttributeName_FooBar :
  propertyToAttributeName (js "FooBar") = Return None.
Proof. reflexivity. Qed.

Example propertyToAttributeName_digit :
  propertyToAttributeName (js "1st") = Return None.
Proof. reflexivity. Qed.

Lemma attribute_roundtrip_witness :
  propertyToAttributeName (js "fooBar") = Return (Some (js "foo-bar")) /\
  attributeToPropertyName (js "foo-bar") = js "fooBar".
Proof.
  split; [reflexivity|].
  apply (attribute_roundtrip (js "fooBar") (js "foo-bar")); reflexivity.
Defined.

(** C4 as stated fails: ["a-b"] is accepted, is its own attribute name, and
    the inverse turns it into ["aB"]. *)
Lemma attribute_roundtrip_counterexample :
  ~ (forall (R : JsRuntime) p attr,
       propertyToAttributeName p = Return (Some attr) ->
       attributeToPropertyName attr = p).
Proof.
  intros Hclaim.
  specialize (Hclaim asciiRuntime (js "a-b") (js "a-b") eq_refl).
  vm_compute in Hclaim. discriminate.
Qed.

Lemma addProperty_notify_witness :
  exists t' ev a,
    addProperty emptyExtension (publishedProperty (js "fooBar") None)
      = (t', Return tt) /\
    events t' = events emptyExtension ++ [ev] /\
    e_name ev = js "foo-bar" ++ js "-changed" /\
    attributes t' = attributes emptyExtension ++ [a] /\
    a_name a = js "foo-bar" /\
    a_changeEvent a = Some (js "foo-bar" ++ js "-changed").
Proof.
  apply (addProperty_notify emptyExtension
           (publishedProperty (js "fooBar") None) (js "foo-bar"));
    reflexivity.
Defined.

(** C5 as stated fails: a published, notifying property that is private
    gets neither an attribute nor an event. *)
Lemma addProperty_notify_counterexample :
  ~ (forall (R : JsRuntime) target prop,
       p_published prop = Some true ->
       p_notify prop = Some true ->
       exists attr ev,
         propertyToAttributeName (p_name prop) = Return (Some attr) /\
         events (addProperty target prop).1 = events target ++ [ev] /\
         e_name ev = attr ++ js "-changed").
Proof.
  intros Hclaim.
  destruct (Hclaim asciiRuntime emptyExtension
              (publishedProperty (js "foo") (Some Private))
              eq_refl eq_refl) as (attr & ev & _ & Hev & _).
  vm_compute in Hev. discriminate.
Qed.

Lemma addProperty_empty_name_witness :
  propertyToAttributeName [] = Throw TypeError /\
  addProperty emptyExtension (publishedProperty [] None)
    = (push_property emptyExtension (publishedProperty [] None),
       Throw TypeError) /\
  attributes (push_property emptyExtension (publishedProperty [] None))
    = attributes emptyExtension /\
  events (push_property emptyExtension (publishedProperty [] None))
    = events emptyExtension.
Proof.
  apply (addProperty_empty_name emptyExtension (publishedProperty [] None)).
  reflexivity.
Defined.

(** C10 as stated fails: the call throws, but not in place of recording the
    property; the property is in the properties of the target by then. *)
Lemma addProperty_empty_name_counterexample :
  ~ (forall (R : JsRuntime) target prop,
       p_name prop = [] ->
       exists target',
         addProperty target prop = (target', Throw TypeError) /\
         properties target' = properties target).
Proof.
  intros Hclaim.
  destruct (Hclaim asciiRuntime emptyExtension
              (publishedProperty [] None) eq_refl) as (target' & Hcall & Hsame).
  vm_compute in Hcall. injection Hcall as <-. discriminate.
Qed.

End PolymerElement.

(** * polymer/behavior-scanner.ts *)

Module BehaviorScanner.
Import PolymerElement.

(** ** A plain object used as a dictionary

    [bucket = {}] inherits from [Object.prototype], and [key in bucket] looks
    through the prototype chain.  The own properties are kept in creation
    order; [Object.keys] lists array indices first, in ascending order, and
    then the other keys in creation order. *)

Definition objectPrototypeKeys : list (list N) :=
  [ js "constructor"; js "hasOwnProperty"; js "isPrototypeOf";
    js "propertyIsEnumerable"; js "toLocaleString"; js "toString";
    js "valueOf"; js "__proto__"; js "__defineGetter__";
    js "__defineSetter__"; js "__lookupGetter__"; js "__lookupSetter__" ].

Definition ownKey {T} (key : jsstring) (bucket : list (list N * T)) : bool :=
  existsb (fun kv => bool_decide (kv.1 = key)) bucket.

(** [key in bucket] *)
Definition inObject {T} (key : jsstring) (bucket : list (list N * T)) : bool :=
  ownKey key bucket || bool_decide (key ∈ objectPrototypeKeys).

Definition isDigit (c : codeunit) : bool := (48 <=? c)%N && (c <=? 57)%N.

Definition decimalValue (s : jsstring) : N :=
  fold_left (fun acc c => (10 * acc + (c - 48))%N) s 0%N.

(** The array index that a property key denotes, if any: a canonical
    decimal numeral below 2^32 - 1. *)
Definition arrayIndex (key : jsstring) : option N :=
  match key with
  | [] => None
  | c :: rest =>
      if forallb isDigit key
         && (negb (c =? 48)%N || bool_decide (rest = []))
         && (decimalValue key <? 4294967295)%N
      then Some (decimalValue key)
      else None
  end.

Fixpoint insertIndexed {T} (i : N) (kv : list N * T)
    (sorted : list (N * (list N * T))) : list (N * (list N * T)) :=
  match sorted with
  | [] => [(i, kv)]
  | (j, kv') :: tl =>
      if (i <? j)%N then (i, kv) :: sorted
      else (j, kv') :: insertIndexed i kv tl
  end.

Definition indexedEntries {T} (bucket : list (list N * T))
  : list (N * (list N * T)) :=
  fold_left
    (fun acc kv =>
       match arrayIndex kv.1 with
       | Some i => insertIndexed i kv acc
       | None => acc
       end)
    bucket [].

(** The own entries of [bucket] in the order of [Object.keys]. *)
Definition objectEntries {T} (bucket : list (list N * T))
  : list (list N * T) :=
  map snd (indexedEntries bucket)
  ++ filter (fun kv => arrayIndex kv.1 = None) bucket.

(** ** dedupe *)

Definition dedupe {T} (array : list T) (keyFunc : T -> jsstring) : list T :=
  let bucket :=
    fold_left
      (fun bucket el =>
         let key := keyFunc el in
         if inObject key bucket then bucket else bucket ++ [(key, el)])
      array [] in
  map snd (objectEntries bucket).

(** ** mergeBehavior *)

Abbreviation ScannedBehavior := ScannedPolymerExtension (only parsing).

Definition set_description (b : ScannedBehavior) (d : jsstring)
  : ScannedBehavior :=
  {| className := className b; description := d; demos := demos b;
     events := events b; properties := properties b;
     attributes := attributes b; observers := observers b;
     behaviorAssignments := behaviorAssignments b |}.

Definition set_demos (b : ScannedBehavior) (d : list Demo)
  : ScannedBehavior :=
  {| className := className b; description := description b; demos := d;
     events := events b; properties := properties b;
     attributes := attributes b; observers := observers b;
     behaviorAssignments := behaviorAssignments b |}.

Definition set_events (b : ScannedBehavior) (e : list ScannedEvent)
  : ScannedBehavior :=
  {| className := className b; description := description b;
     demos := demos b; events := e; properties := properties b;
     attributes := attributes b; observers := observers b;
     behaviorAssignments := behaviorAssignments b |}.

Definition set_observers (b : ScannedBehavior) (o : list N)
  : ScannedBehavior :=
  {| className := className b; description := description b;
     demos := demos b; events := events b; properties := properties b;
     attributes := attributes b; observers := o;
     behaviorAssignments := behaviorAssignments b |}.

Definition set_behaviorAssignments (b : ScannedBehavior)
    (a : list ScannedBehaviorAssignment) : ScannedBehavior :=
  {| className := className b; description := description b;
     demos := demos b; events := events b; properties := properties b;
     attributes := attributes b; observers := observers b;
     behaviorAssignments := a |}.

(** [hay.indexOf(needle) !== -1] *)
Fixpoint isPrefix (needle hay : jsstring) : bool :=
  match needle, hay with
  | [], _ => true
  | _ :: _, [] => false
  | a :: needle', b :: hay' => (a =? b)%N && isPrefix needle' hay'
  end.

Fixpoint occursIn (needle hay : jsstring) : bool :=
  isPrefix needle hay ||
  match hay with
  | [] => false
  | _ :: hay' => occursIn needle hay'
  end.

(** A string | undefined used where a string is expected. *)
Definition toStringOrUndefined (s : option (list N)) : jsstring :=
  default (js "undefined") s.

Section Merge.
Context `{JsRuntime}.

(** [for (const property of properties) behavior.addProperty(property)] *)
Fixpoint addProperties (behavior : ScannedBehavior)
    (props : list ScannedPolymerProperty)
  : ScannedBehavior * Completion unit :=
  match props with
  | [] => (behavior, Return tt)
  | property :: rest =>
      match addProperty behavior property with
      | (behavior', Return _) => addProperties behavior' rest
      | (behavior', Throw e) => (behavior', Throw e)
      end
  end.

(** [const isBehaviorImpl = (b) => b.name.indexOf(newBehavior.className) === -1] *)
Definition isBehaviorImpl (newBehavior : ScannedBehavior)
    (b : ScannedBehaviorAssignment) : bool :=
  negb (occursIn (toStringOrUndefined (className newBehavior)) (ba_name b)).

Definition mergeDescription (behavior newBehavior : ScannedBehavior)
  : ScannedBehavior :=
  match description newBehavior with
  | [] => behavior
  | _ :: _ =>
      match description behavior with
      | _ :: _ =>
          if (length (description behavior)
              <? length (description newBehavior))%nat
          then set_description behavior (description newBehavior)
          else behavior
      | [] => set_description behavior (description newBehavior)
      end
  end.

(** The body of the loop of [mergeBehavior] once the class names agree: the
    in-place update of the record [behavior] that is already in the set. *)
Definition mergeInto (behavior newBehavior : ScannedBehavior)
  : ScannedBehavior * Completion unit :=
  let behavior := mergeDescription behavior newBehavior in
  let behavior := set_demos behavior (demos behavior ++ demos newBehavior) in
  let behavior :=
    set_events behavior (events behavior ++ events newBehavior) in
  let behavior := set_events behavior (dedupe (events behavior) e_name) in
  match addProperties behavior (properties newBehavior) with
  | (behavior, Throw e) => (behavior, Throw e)
  | (behavior, Return _) =>
      let behavior :=
        set_observers behavior
          (observers behavior ++ observers newBehavior) in
      let behavior :=
        set_behaviorAssignments behavior
          (filter (fun b => isBehaviorImpl newBehavior b = true)
             (behaviorAssignments behavior
              ++ behaviorAssignments newBehavior)) in
      (behavior, Return tt)
  end.

(** What [mergeBehavior] returns: the record of the set that took the new
    behavior in (by its position in the set), or the new behavior itself. *)
Inductive Merged :=
  | Existing (index : nat) (behavior : ScannedBehavior)
  | Unmerged (newBehavior : ScannedBehavior).

(** [this.behaviors] is the set of behaviors found so far, in insertion
    order; the set after the call comes back with the completion. *)
Fixpoint mergeBehaviorFrom (index : nat) (visited behaviors : list ScannedBehavior)
    (newBehavior : ScannedBehavior)
  : list ScannedBehavior * Completion Merged :=
  match behaviors with
  | [] => (visited, Return (Unmerged newBehavior))
  | behavior :: rest =>
      if decide (className newBehavior <> className behavior)
      then mergeBehaviorFrom (S index) (visited ++ [behavior]) rest newBehavior
      else
        match mergeInto behavior newBehavior with
        | (behavior', Throw e) => (visited ++ behavior' :: rest, Throw e)
        | (behavior', Return _) =>
            (visited ++ behavior' :: rest, Return (Existing index behavior'))
        end
  end.

Definition mergeBehavior (behaviors : list ScannedBehavior)
    (newBehavior : ScannedBehavior)
  : list ScannedBehavior * Completion Merged :=
  mergeBehaviorFrom 0 [] behaviors newBehavior.

End Merge.

(** ** Deduplication as the words have it: an element stays when no earlier
    element has its key. *)
Fixpoint firstOccurrences {T} (keyFunc : T -> jsstring)
    (seen : list (list N)) (array : list T) : list T :=
  match array with
  | [] => []
  | el :: rest =>
      if bool_decide (keyFunc el ∈ seen)
      then firstOccurrences keyFunc seen rest
      else el :: firstOccurrences keyFunc (seen ++ [keyFunc el]) rest
  end.

Section DedupeFacts.
Context {T : Type} (keyFunc : T -> jsstring).

Definition bucketStep (bucket : list (list N * T)) (el : T)
  : list (list N * T) :=
  if inObject (keyFunc el) bucket then bucket
  else bucket ++ [(keyFunc el, el)].

Lemma ownKey_elem key (bucket : list (list N * T)) :
  ownKey key bucket = bool_decide (key ∈ bucket.*1).
Proof.
  unfold ownKey. induction bucket as [|[k v] bucket IH]; cbn.
  - symmetry. apply bool_decide_eq_false. apply not_elem_of_nil.
  - rewrite IH. destruct (decide (k = key)) as [->|Hne].
    + rewrite bool_decide_eq_true_2 by reflexivity. cbn.
      symmetry. apply bool_decide_eq_true. apply elem_of_cons. now left.
    + rewrite (bool_decide_eq_false_2 _ Hne). cbn.
      apply bool_decide_ext. rewrite elem_of_cons. cbn. intuition congruence.
Qed.

Lemma bucket_fold array : forall bucket,
  (forall el, el ∈ array -> keyFunc el ∉ objectPrototypeKeys) ->
  fold_left bucketStep array bucket =
  bucket ++ map (fun el => (keyFunc el, el))
                (firstOccurrences keyFunc (bucket.*1) array).
Proof.
  induction array as [|el array IH]; intros bucket Hproto; cbn.
  - now rewrite app_nil_r.
  - assert (keyFunc el ∉ objectPrototypeKeys) as Hel
      by (apply Hproto; apply elem_of_cons; now left).
    assert (forall el', el' ∈ array -> keyFunc el' ∉ objectPrototypeKeys)
      as Hrest by (intros el' Hin; apply Hproto, elem_of_cons; now right).
    unfold bucketStep at 2. unfold inObject.
    rewrite ownKey_elem, (bool_decide_eq_false_2 _ Hel), orb_false_r.
    destruct (bool_decide (keyFunc el ∈ bucket.*1)).
    + now apply IH.
    + rewrite (IH _ Hrest), fmap_app. cbn. now rewrite <- app_assoc.
Qed.

Lemma indexedEntries_none (bucket : list (list N * T)) :
  (forall kv, kv ∈ bucket -> arrayIndex kv.1 = None) ->
  forall acc,
    fold_left
      (fun acc kv =>
         match arrayIndex kv.1 with
         | Some i => insertIndexed i kv acc
         | None => acc
         end) bucket acc = acc.
Proof.
  induction bucket as [|kv bucket IH]; intros Hnone acc; cbn; [reflexivity|].
  rewrite (Hnone kv) by (apply elem_of_cons; now left).
  apply IH. intros kv' Hin. apply Hnone, elem_of_cons. now right.
Qed.

Lemma objectEntries_creation_order (bucket : list (list N * T)) :
  (forall kv, kv ∈ bucket -> arrayIndex kv.1 = None) ->
  objectEntries bucket = bucket.
Proof.
  intros Hnone. unfold objectEntries, indexedEntries.
  rewrite (indexedEntries_none _ Hnone). cbn.
  induction bucket as [|kv bucket IH]; [reflexivity|].
  rewrite filter_cons_True by (apply Hnone, elem_of_cons; now left).
  f_equal. apply IH. intros kv' Hin. apply Hnone, elem_of_cons. now right.
Qed.

Lemma firstOccurrences_subset seen array el :
  el ∈ firstOccurrences keyFunc seen array -> el ∈ array.
Proof.
  revert seen. induction array as [|x array IH]; intros seen; cbn.
  - intros Hin. now apply elem_of_nil in Hin.
  - destruct (bool_decide _).
    + intros Hin. apply elem_of_cons. right. eauto.
    + rewrite !elem_of_cons. intros [->|Hin]; [now left|right; eauto].
Qed.

(** When no key is inherited from [Object.prototype] and no key is an array
    index, [dedupe] keeps exactly the first element of every key, in the
    order of the array. *)
Lemma dedupe_firstOccurrences array :
  (forall el, el ∈ array -> keyFunc el ∉ objectPrototypeKeys) ->
  (forall el, el ∈ array -> arrayIndex (keyFunc el) = None) ->
  dedupe array keyFunc = firstOccurrences keyFunc [] array.
Proof.
  intros Hproto Hindex. unfold dedupe.
  change (fold_left _ array []) with (fold_left bucketStep array []).
  rewrite (bucket_fold array [] Hproto). cbn [app fmap list_fmap].
  rewrite objectEntries_creation_order.
  - rewrite map_map. cbn. apply map_id.
  - intros kv Hin. apply list_elem_of_In, in_map_iff in Hin as (el & <- & Hin).
    cbn. apply Hindex. apply list_elem_of_In in Hin.
    now apply firstOccurrences_subset in Hin.
Qed.

End DedupeFacts.

Section MergeFacts.
Context `{JsRuntime}.

(** What [addProperty] leaves alone, appends to, and may append to. *)
Lemma addProperty_fields target prop :
  let t' := (addProperty target prop).1 in
  className t' = className target /\
  description t' = description target /\
  demos t' = demos target /\
  observers t' = observers target /\
  behaviorAssignments t' = behaviorAssignments target /\
  properties t' = properties target ++ [prop] /\
  exists added, events t' = events target ++ added.
Proof.
  unfold addProperty.
  destruct (propertyToAttributeName (p_name prop)) as [attr|e]; cbn.
  - destruct (nonpublic prop || falsyName attr
              || negb (truthy (p_published prop))); cbn.
    + repeat split. exists []. now rewrite app_nil_r.
    + destruct (truthy (p_notify prop)); cbn; repeat split.
      * now eexists [_].
      * exists []. now rewrite app_nil_r.
  - repeat split. exists []. now rewrite app_nil_r.
Qed.

Lemma addProperties_fields props : forall target t',
  addProperties target props = (t', Return tt) ->
  className t' = className target /\
  description t' = description target /\
  demos t' = demos target /\
  observers t' = observers target /\
  behaviorAssignments t' = behaviorAssignments target /\
  properties t' = properties target ++ props /\
  exists added, events t' = events target ++ added.
Proof.
  induction props as [|prop props IH]; intros target t'; cbn.
  - intros [= <-]. repeat split; try now rewrite app_nil_r.
    exists []. now rewrite app_nil_r.
  - pose proof (addProperty_fields target prop) as Hone.
    destruct (addProperty target prop) as [t1 [[]|e]]; [|discriminate].
    cbn in Hone. destruct Hone as (Hc & Hd & Hdm & Ho & Hb & Hp & ev1 & He).
    intros Hrest.
    destruct (IH _ _ Hrest) as (Hc' & Hd' & Hdm' & Ho' & Hb' & Hp' & ev2 & He').
    repeat split; try congruence.
    + rewrite Hp', Hp, <- app_assoc. reflexivity.
    + exists (ev1 ++ ev2). rewrite He', He, <- app_assoc. reflexivity.
Qed.

Lemma mergeDescription_longest behavior newBehavior :
  description (mergeDescription behavior newBehavior) =
  if (length (description behavior)
      <? length (description newBehavior))%nat
  then description newBehavior else description behavior.
Proof.
  unfold mergeDescription.
  destruct (description newBehavior) as [|c d] eqn:Hnew.
  - now destruct (description behavior).
  - destruct (description behavior) as [|c' d'] eqn:Hold; [reflexivity|].
    cbn [length].
    destruct (S (length d') <? S (length d))%nat; cbn; congruence.
Qed.

Lemma mergeDescription_fields behavior newBehavior :
  let b := mergeDescription behavior newBehavior in
  className b = className behavior /\
  demos b = demos behavior /\
  events b = events behavior /\
  properties b = properties behavior /\
  observers b = observers behavior /\
  behaviorAssignments b = behaviorAssignments behavior.
Proof.
  unfold mergeDescription.
  destruct (description newBehavior); [now cbn|].
  destruct (description behavior); [now cbn|].
  now destruct (_ <? _)%nat.
Qed.

(** The record that took a same-named behavior in, field by field: the
    longer description (the old one on a tie), the demos, observers and
    properties of both, the deduplicated events of both followed by the
    events that the added properties announce, and the behavior assignments
    of both without those that mention the class name. *)
Lemma mergeInto_merges behavior newBehavior b' :
  mergeInto behavior newBehavior = (b', Return tt) ->
  className b' = className behavior /\
  description b' =
    (if (length (description behavior)
         <? length (description newBehavior))%nat
     then description newBehavior else description behavior) /\
  demos b' = demos behavior ++ demos newBehavior /\
  (exists added,
     events b' =
     dedupe (events behavior ++ events newBehavior) e_name ++ added) /\
  properties b' = properties behavior ++ properties newBehavior /\
  observers b' = observers behavior ++ observers newBehavior /\
  behaviorAssignments b' =
    filter (fun b => occursIn (toStringOrUndefined (className newBehavior))
                              (ba_name b) = false)
           (behaviorAssignments behavior ++ behaviorAssignments newBehavior).
Proof.
  unfold mergeInto.
  destruct (addProperties _ _) as [b1 [[]|e]] eqn:Hadd; [|discriminate].
  intros [= <-].
  apply addProperties_fields in Hadd
    as (Hc & Hd & Hdm & Ho & Hb & Hp & added & He).
  cbn in *. rewrite Hc, Hd, Hdm, Ho, Hb, Hp.
  pose proof (mergeDescription_longest behavior newBehavior) as Hdesc.
  destruct (mergeDescription_fields behavior newBehavior)
    as (-> & -> & Hev & -> & -> & ->).
  rewrite Hev in He.
  repeat split; try assumption; try reflexivity.
  - now exists added.
  - apply list_filter_iff. intros b. unfold isBehaviorImpl.
    now destruct (occursIn _ _).
Qed.

(** [mergeBehavior] updates the first behavior of the set that has the
    class name of the new one, and leaves the set alone when there is
    none. *)
Lemma mergeBehaviorFrom_existing before behavior after newBehavior b' :
  forall index visited,
    Forall (fun b => className newBehavior <> className b) before ->
    className newBehavior = className behavior ->
    mergeInto behavior newBehavior = (b', Return tt) ->
    mergeBehaviorFrom index visited (before ++ behavior :: after) newBehavior
    = (visited ++ before ++ b' :: after,
       Return (Existing (index + length before) b')).
Proof.
  induction before as [|b before IH]; intros index visited Hbefore Hname Hmerge.
  - cbn. rewrite decide_False by (intros Hne; now apply Hne).
    rewrite Hmerge. now rewrite Nat.add_0_r.
  - apply Forall_cons_1 in Hbefore as [Hb Hbefore]. cbn.
    rewrite decide_True by exact Hb.
    rewrite (IH (S index) (visited ++ [b]) Hbefore Hname Hmerge).
    rewrite <- app_assoc. cbn. do 3 f_equal. lia.
Qed.

Lemma mergeBehaviorFrom_fresh behaviors newBehavior :
  forall index visited,
    Forall (fun b => className newBehavior <> className b) behaviors ->
    mergeBehaviorFrom index visited behaviors newBehavior
    = (visited ++ behaviors, Return (Unmerged newBehavior)).
Proof.
  induction behaviors as [|b behaviors IH]; intros index visited Hall; cbn.
  - now rewrite app_nil_r.
  - apply Forall_cons_1 in Hall as [Hb Hall].
    rewrite decide_True by exact Hb.
    rewrite (IH _ _ Hall). now rewrite <- app_assoc.
Qed.

End MergeFacts.

(** *** Closed instances *)

Definition eventNamed (name : jsstring) : ScannedEvent :=
  {| e_name := name; e_description := []; e_sourceRange := None;
     e_astNode := 0%N; e_warnings := []; e_params := [] |}.

Definition behaviorWith (name description : jsstring)
    (events : list ScannedEvent) : ScannedBehavior :=
  {| className := Some name; description := description; demos := [];
     events := events; properties := []; attributes := []; observers := [];
     behaviorAssignments := [] |}.

Example dedupe_keeps_first :
  dedupe [eventNamed (js "a"); eventNamed (js "b"); eventNamed (js "a")]
         e_name
  = [eventNamed (js "a"); eventNamed (js "b")].
Proof. reflexivity. Qed.

Example dedupe_index_order :
  dedupe [eventNamed (js "b"); eventNamed (js "7"); eventNamed (js "b")]
         e_name
  = [eventNamed (js "7"); eventNamed (js "b")].
Proof. reflexivity. Qed.

(** C6, the code at an event whose name a plain object inherits: the test
    [key in bucket] of [dedupe] is true of ["toString"] before anything is
    stored, so the only event of that name is dropped, not kept, when a
    behavior of the same class name is merged in. *)
Theorem mergeBehavior_drops_inherited_name :
  mergeBehavior
    [behaviorWith (js "B") (js "first") [eventNamed (js "toString")]]
    (behaviorWith (js "B") [] [])
  = ([behaviorWith (js "B") (js "first") []],
     Return (Existing 0 (behaviorWith (js "B") (js "first") []))).
Proof. reflexivity. Qed.

End BehaviorScanner.

(** * Regular expressions without anchors, groups by reference or lookaround

    Enough of the language of JavaScript patterns for [/(.+-)+.+/]: the
    matcher works by derivatives, and [test] looks for a match anywhere in
    the subject, as [RegExp.prototype.test] does for a pattern that is
    neither global nor sticky. *)

Module Regex.

Inductive regex :=
  | Void
  | Eps
  | Chr (p : N -> bool)
  | Seq (r s : regex)
  | Alt (r s : regex)
  | Star (r : regex).

Definition Plus (r : regex) : regex := Seq r (Star r).

Fixpoint nullable (r : regex) : bool :=
  match r with
  | Void => false
  | Eps => true
  | Chr _ => false
  | Seq r s => nullable r && nullable s
  | Alt r s => nullable r || nullable s
  | Star _ => true
  end.

Fixpoint deriv (c : N) (r : regex) : regex :=
  match r with
  | Void => Void
  | Eps => Void
  | Chr p => if p c then Eps else Void
  | Seq r s =>
      if nullable r then Alt (Seq (deriv c r) s) (deriv c s)
      else Seq (deriv c r) s
  | Alt r s => Alt (deriv c r) (deriv c s)
  | Star r => Seq (deriv c r) (Star r)
  end.

(** Does [r] match the whole of [s]? *)
Fixpoint matches (r : regex) (s : jsstring) : bool :=
  match s with
  | [] => nullable r
  | c :: s' => matches (deriv c r) s'
  end.

Definition anything : regex := Star (Chr (fun _ => true)).

(** [regex.test(s)] *)
Definition test (r : regex) (s : jsstring) : bool :=
  matches (Seq anything (Seq r anything)) s.

(** [.] matches every code unit but the line terminators. *)
Definition lineTerminator (c : N) : bool :=
  (c =? 10)%N || (c =? 13)%N || (c =? 8232)%N || (c =? 8233)%N.
Definition dot : regex := Chr (fun c => negb (lineTerminator c)).
Definition lit (c : N) : regex := Chr (N.eqb c).

(** ** The language of a pattern *)

Inductive lang : regex -> list N -> Prop :=
  | lang_eps : lang Eps []
  | lang_chr p c : p c = true -> lang (Chr p) [c]
  | lang_seq r s u v : lang r u -> lang s v -> lang (Seq r s) (u ++ v)
  | lang_alt_l r s u : lang r u -> lang (Alt r s) u
  | lang_alt_r r s u : lang s u -> lang (Alt r s) u
  | lang_star_nil r : lang (Star r) []
  | lang_star_app r u v :
      lang r u -> lang (Star r) v -> lang (Star r) (u ++ v).

#[local] Hint Constructors lang : core.

Lemma lang_seq_inv r s w :
  lang (Seq r s) w -> exists u v, w = u ++ v /\ lang r u /\ lang s v.
Proof. inversion 1; subst; eauto. Qed.

Lemma lang_chr_inv p w : lang (Chr p) w -> exists c, w = [c] /\ p c = true.
Proof. inversion 1; subst; eauto. Qed.

Lemma nullable_lang r : nullable r = true <-> lang r [].
Proof.
  induction r as [| |p|r IHr s IHs|r IHr s IHs|r IHr]; cbn.
  - split; [discriminate|]. inversion 1.
  - split; auto.
  - split; [discriminate|]. inversion 1.
  - rewrite andb_true_iff, IHr, IHs. split.
    + intros [Hr Hs]. change (@nil N) with (@nil N ++ []). auto.
    + intros (u & v & Heq & Hu & Hv)%lang_seq_inv.
      symmetry in Heq. apply app_eq_nil in Heq as [-> ->]. auto.
  - rewrite orb_true_iff, IHr, IHs. split.
    + intros [?|?]; auto.
    + inversion 1; subst; auto.
  - split; auto.
Qed.

Lemma lang_star_cons r c w :
  lang (Star r) (c :: w) ->
  exists u v, w = u ++ v /\ lang r (c :: u) /\ lang (Star r) v.
Proof.
  intros Hstar. remember (Star r) as sr eqn:Hsr.
  remember (c :: w) as cw eqn:Hcw.
  revert w Hcw.
  induction Hstar as [| | | | | |r' u v Hu _ Hv IHv];
    try discriminate; intros w Hcw.
  injection Hsr as ->.
  destruct u as [|c' u].
  - cbn in Hcw. now apply IHv.
  - cbn in Hcw. injection Hcw as -> <-. eauto.
Qed.

Lemma deriv_lang c r : forall w, lang (deriv c r) w <-> lang r (c :: w).
Proof.
  induction r as [| |p|r IHr s IHs|r IHr s IHs|r IHr]; intros w; cbn.
  - split; inversion 1.
  - split; inversion 1.
  - destruct (p c) eqn:Hp; split.
    + inversion 1; subst. auto.
    + inversion 1; subst. auto.
    + inversion 1.
    + inversion 1; subst. congruence.
  - assert (lang (Seq (deriv c r) s) w ->
            lang (Seq r s) (c :: w)) as Hhead.
    { intros (u & v & -> & Hu & Hv)%lang_seq_inv.
      apply IHr in Hu. change (c :: u ++ v) with ((c :: u) ++ v). auto. }
    assert (lang (Seq r s) (c :: w) ->
            lang (Seq (deriv c r) s) w \/
            (lang r [] /\ lang (deriv c s) w)) as Hsplit.
    { intros (u & v & Heq & Hu & Hv)%lang_seq_inv.
      destruct u as [|c' u]; cbn in Heq.
      - subst v. right. split; [assumption|]. now apply IHs.
      - injection Heq as <- ->. left. apply IHr in Hu. auto. }
    destruct (nullable r) eqn:Hnull; split.
    + inversion 1; subst; [auto|].
      apply nullable_lang in Hnull.
      change (c :: w) with ([] ++ c :: w). constructor; [assumption|].
      now apply IHs.
    + intros Hw. destruct (Hsplit Hw) as [?|[_ ?]]; auto.
    + exact Hhead.
    + intros Hw. destruct (Hsplit Hw) as [?|[Hnil _]]; [assumption|].
      apply nullable_lang in Hnil. congruence.
  - split.
    + inversion 1; subst; [apply lang_alt_l, IHr|apply lang_alt_r, IHs];
        assumption.
    + inversion 1; subst; [apply lang_alt_l, IHr|apply lang_alt_r, IHs];
        assumption.
  - split.
    + intros (u & v & -> & Hu & Hv)%lang_seq_inv.
      apply IHr in Hu. change (c :: u ++ v) with ((c :: u) ++ v). auto.
    + intros Hw. apply lang_star_cons in Hw as (u & v & -> & Hu & Hv).
      apply IHr in Hu. auto.
Qed.

(** The matcher decides the language. *)
Theorem matches_lang s : forall r, matches r s = true <-> lang r s.
Proof.
  induction s as [|c s IH]; intros r; cbn.
  - apply nullable_lang.
  - rewrite IH. apply deriv_lang.
Qed.

Lemma lang_anything w : lang anything w.
Proof.
  induction w as [|c w IH]; [constructor|].
  change (c :: w) with ([c] ++ w). constructor; [now constructor|exact IH].
Qed.

(** [test] finds the pattern somewhere in the subject. *)
Lemma test_lang r s :
  test r s = true <-> exists pre m post, s = pre ++ m ++ post /\ lang r m.
Proof.
  unfold test. rewrite matches_lang. split.
  - intros (pre & rest & -> & _ & Hrest)%lang_seq_inv.
    apply lang_seq_inv in Hrest as (m & post & -> & Hm & _). eauto.
  - intros (pre & m & post & -> & Hm).
    constructor; [apply lang_anything|].
    constructor; [assumption|apply lang_anything].
Qed.

End Regex.

(** * html/html-element-reference-scanner.ts *)

Module HtmlElementReferenceScanner.
Import Regex.

(** ** The markup tree (parse5) *)

Record Attr := { attr_name : list N; attr_value : list N }.

#[warnings="-register-all"]
Inductive ASTNode := mkNode {
  nodeName : list N;
  tagName : option (list N);
  attrs : option (list Attr);
  childNodes : list ASTNode;
  content : option ASTNode
}.

Record ScannedAttributeReference := {
  name : list N;
  value : list N;
  sourceRange : option SourceRange;
  nameSourceRange : option SourceRange;
  valueSourceRange : option SourceRange
}.

Record ScannedElementReference := {
  ref_tagName : list N;
  ref_sourceRange : option SourceRange;
  ref_astNode : ASTNode;
  attributes : list ScannedAttributeReference
}.

(** [/(.+-)+.+/] *)
Definition customElementPattern : regex :=
  Seq (Plus (Seq (Plus dot) (lit hyphen))) (Plus dot).

Section Scanner.
Context `{JsRuntime}.

(** The source map of the parsed document (html/html-document). *)
Variable sourceRangeForNode : ASTNode -> option SourceRange.
Variable sourceRangeForAttribute : ASTNode -> list N -> option SourceRange.
Variable sourceRangeForAttributeName :
  ASTNode -> list N -> option SourceRange.
Variable sourceRangeForAttributeValue :
  ASTNode -> list N -> option SourceRange.

(** [dom5.predicates.hasMatchingTagName(regex)]: the pattern is tried on
    the lower-cased tag name of a node that has one. *)
Definition hasMatchingTagName (r : regex) (node : ASTNode) : bool :=
  match tagName node with
  | None | Some [] => false
  | Some t => test r (toLowerCase t)
  end.

Definition isCustomElement : ASTNode -> bool :=
  hasMatchingTagName customElementPattern.

(** [HtmlElementReferenceScanner.matches] and its override in
    [HtmlCustomElementReferenceScanner]. *)
Definition matchesAny (node : ASTNode) : bool := true.

Definition matchesCustom (node : ASTNode) : bool :=
  isCustomElement node && negb (bool_decide (nodeName node = js "dom-module")).

Definition attributeReference (node : ASTNode) (attr : Attr)
  : ScannedAttributeReference :=
  {| name := attr_name attr;
     value := attr_value attr;
     sourceRange := sourceRangeForAttribute node (attr_name attr);
     nameSourceRange := sourceRangeForAttributeName node (attr_name attr);
     valueSourceRange := sourceRangeForAttributeValue node (attr_name attr) |}.

(** The reference built for [node]: [new ScannedElementReference(...)]
    followed by one [push] for each attribute. *)
Definition elementReference (node : ASTNode) : ScannedElementReference :=
  {| ref_tagName := default [] (tagName node);
     ref_sourceRange := sourceRangeForNode node;
     ref_astNode := node;
     attributes :=
       fold_left (fun attributes attr =>
                    attributes ++ [attributeReference node attr])
                 (default [] (attrs node)) [] |}.

Definition hasTagName (node : ASTNode) : bool :=
  match tagName node with
  | None | Some [] => false
  | Some _ => true
  end.

Definition isTemplate (node : ASTNode) : bool :=
  bool_decide (tagName node = Some (js "template")).

Section Visitor.
Variable matches : ASTNode -> bool.

(** The first statement of the visitor. *)
Definition emit (node : ASTNode) (elements : list ScannedElementReference)
  : list ScannedElementReference :=
  if hasTagName node && matches node
  then elements ++ [elementReference node]
  else elements.

(** [dom5.nodeWalk(n, (n) => { visitor(n); return false; })]: the visitor
    runs on [n], which makes it walk the content of [n] when [n] is a
    template, and the walk goes on through the child nodes of [n]. *)
Fixpoint walk (n : ASTNode) (elements : list ScannedElementReference)
  : list ScannedElementReference :=
  let elements := emit n elements in
  let elements :=
    if isTemplate n then
      match content n with
      | Some c => walk c elements
      | None => elements
      end
    else elements in
  fold_left (fun elements child => walk child elements)
            (childNodes n) elements.

Definition visitor (node : ASTNode) (elements : list ScannedElementReference)
  : list ScannedElementReference :=
  let elements := emit node elements in
  if isTemplate node then
    match content node with
    | Some c => walk c elements
    | None => elements
    end
  else elements.

(** [scan]: the document hands the nodes it visits, in order, to the
    visitor; [nodes] is that sequence. *)
Definition scan (nodes : list ASTNode) : list ScannedElementReference :=
  fold_left (fun elements node => visitor node elements) nodes [].

End Visitor.

Definition scanCustomElementReferences : list ASTNode ->
    list ScannedElementReference :=
  scan matchesCustom.

End Scanner.

(** The nodes that the visitor is run on when the walk starts at [n]. *)
Fixpoint walked (n : ASTNode) : list ASTNode :=
  n :: (if isTemplate n then
          match content n with
          | Some c => walked c
          | None => []
          end
        else [])
    ++ flat_map walked (childNodes n).

(** The nodes that the visitor is run on when it is handed [node]. *)
Definition presented (node : ASTNode) : list ASTNode :=
  node :: (if isTemplate node then
             match content node with
             | Some c => walked c
             | None => []
             end
           else []).

(** A hyphen with a character that is no line terminator on either side. *)
Definition hyphenInside (s : jsstring) : Prop :=
  exists pre a b post,
    s = pre ++ a :: hyphen :: b :: post /\
    lineTerminator a = false /\ lineTerminator b = false.

(** ** Induction on markup trees *)

Lemma ASTNode_tree_ind (P : ASTNode -> Prop) :
  (forall nn tn ats children co,
      Forall P children ->
      (forall c, co = Some c -> P c) ->
      P (mkNode nn tn ats children co)) ->
  forall n, P n.
Proof.
  intros Hnode. fix IH 1. intros [nn tn ats children co].
  apply Hnode.
  - induction children as [|child children IHc]; constructor.
    + apply IH.
    + exact IHc.
  - destruct co as [c0|]; intros c [= <-]. apply IH.
Qed.

(** ** What [/(.+-)+.+/] finds *)

Lemma lang_star_dot w :
  lang (Star dot) w -> Forall (fun c => lineTerminator c = false) w.
Proof.
  intros Hw. remember (Star dot) as r eqn:Hr.
  induction Hw as [| | | | | |r' u v Hu _ Hv IHv]; try discriminate.
  - constructor.
  - injection Hr as ->.
    apply lang_chr_inv in Hu as (c & -> & Hc).
    constructor; [now apply negb_true_iff in Hc|now apply IHv].
Qed.

Lemma lang_plus_dot_head w :
  lang (Plus dot) w ->
  exists b w', w = b :: w' /\ lineTerminator b = false.
Proof.
  intros (u & v & -> & Hu & _)%lang_seq_inv.
  apply lang_chr_inv in Hu as (c & -> & Hc).
  exists c, v. split; [reflexivity|now apply negb_true_iff in Hc].
Qed.

Lemma lang_plus_dot_last w :
  lang (Plus dot) w ->
  exists w' a, w = w' ++ [a] /\ lineTerminator a = false.
Proof.
  intros (u & v & -> & Hu & Hv)%lang_seq_inv.
  apply lang_chr_inv in Hu as (c & -> & Hc).
  apply negb_true_iff in Hc. apply lang_star_dot in Hv.
  destruct (exists_last (l := [c] ++ v)) as (w' & a & Heq); [discriminate|].
  exists w', a. split; [exact Heq|].
  assert (Forall (fun c => lineTerminator c = false) ([c] ++ v)) as Hall
    by (constructor; assumption).
  rewrite Heq in Hall. apply Forall_app in Hall as [_ Hlast].
  now apply Forall_cons_1 in Hlast as [? _].
Qed.

Definition hyphenGroup : regex := Seq (Plus dot) (lit hyphen).

Lemma lang_group_tail w :
  lang hyphenGroup w ->
  exists w' a, w = w' ++ [a; hyphen] /\ lineTerminator a = false.
Proof.
  intros (u & v & -> & Hu & Hv)%lang_seq_inv.
  apply lang_plus_dot_last in Hu as (w' & a & -> & Ha).
  apply lang_chr_inv in Hv as (c & -> & Hc). apply N.eqb_eq in Hc as <-.
  exists w', a. now rewrite <- app_assoc.
Qed.

Lemma lang_groups_tail w :
  lang (Star hyphenGroup) w ->
  w = [] \/ exists w' a, w = w' ++ [a; hyphen] /\ lineTerminator a = false.
Proof.
  intros Hw. remember (Star hyphenGroup) as r eqn:Hr.
  induction Hw as [| | | | | |r' u v Hu _ Hv IHv]; try discriminate.
  - now left.
  - injection Hr as ->. right.
    destruct (IHv eq_refl) as [->|(w' & a & -> & Ha)].
    + rewrite app_nil_r. now apply lang_group_tail.
    + exists (u ++ w'), a. now rewrite <- app_assoc.
Qed.

(** The pattern is found in exactly the strings that have a hyphen between
    two characters that are not line terminators. *)
Lemma test_customElementPattern s :
  test customElementPattern s = true <-> hyphenInside s.
Proof.
  rewrite test_lang. split.
  - intros (pre & m & post & -> & Hm).
    apply lang_seq_inv in Hm as (g & d & -> & Hg & Hd).
    apply lang_plus_dot_head in Hd as (b & d' & -> & Hb).
    apply lang_seq_inv in Hg as (g1 & g2 & -> & Hg1 & Hg2).
    assert (exists w' a, g1 ++ g2 = w' ++ [a; hyphen]
                         /\ lineTerminator a = false)
      as (w' & a & Heq & Ha).
    { apply lang_groups_tail in Hg2 as [->|(w' & a & -> & Ha)].
      - rewrite app_nil_r. now apply lang_group_tail.
      - exists (g1 ++ w'), a. now rewrite <- app_assoc. }
    exists (pre ++ w'), a, b, (d' ++ post).
    rewrite Heq. repeat split; try assumption.
    now rewrite <- !app_assoc.
  - intros (pre & a & b & post & -> & Ha & Hb).
    exists pre, [a; hyphen; b], post. split; [reflexivity|].
    assert (forall c, lineTerminator c = false -> lang (Plus dot) [c]) as Hdot.
    { intros c Hc. change [c] with ([c] ++ []).
      constructor; [|constructor].
      constructor. now rewrite Hc. }
    change [a; hyphen; b] with (([a; hyphen] ++ []) ++ [b]).
    constructor; [|now apply Hdot].
    constructor; [|constructor].
    change [a; hyphen] with ([a] ++ [hyphen]).
    constructor; [now apply Hdot|].
    constructor. apply N.eqb_refl.
Qed.

(** ** What the scanner emits *)

Section ScannerFacts.
Context `{JsRuntime}.
Variable sourceRangeForNode : ASTNode -> option SourceRange.
Variable sourceRangeForAttribute : ASTNode -> list N -> option SourceRange.
Variable sourceRangeForAttributeName :
  ASTNode -> list N -> option SourceRange.
Variable sourceRangeForAttributeValue :
  ASTNode -> list N -> option SourceRange.

Local Abbreviation reference :=
  (elementReference sourceRangeForNode sourceRangeForAttribute
     sourceRangeForAttributeName sourceRangeForAttributeValue).
Local Abbreviation attributeRef :=
  (attributeReference sourceRangeForAttribute
     sourceRangeForAttributeName sourceRangeForAttributeValue).
Local Abbreviation walkWith :=
  (walk sourceRangeForNode sourceRangeForAttribute
     sourceRangeForAttributeName sourceRangeForAttributeValue).
Local Abbreviation visitorWith :=
  (visitor sourceRangeForNode sourceRangeForAttribute
     sourceRangeForAttributeName sourceRangeForAttributeValue).
Local Abbreviation scanWith :=
  (scan sourceRangeForNode sourceRangeForAttribute
     sourceRangeForAttributeName sourceRangeForAttributeValue).

Section AnyMatcher.
Variable matches : ASTNode -> bool.

Definition emitted (n : ASTNode) : Prop :=
  hasTagName n && matches n = true.

#[global] Instance emitted_dec n : Decision (emitted n).
Proof. unfold emitted. apply _. Defined.

Local Abbreviation refs l := (map reference (filter emitted l)).

Lemma refs_app l1 l2 : refs (l1 ++ l2) = refs l1 ++ refs l2.
Proof. now rewrite filter_app, map_app. Qed.

Lemma refs_cons n l : refs (n :: l) = refs [n] ++ refs l.
Proof. apply (refs_app [n] l). Qed.

Lemma emit_refs n elements :
  emit sourceRangeForNode sourceRangeForAttribute
    sourceRangeForAttributeName sourceRangeForAttributeValue
    matches n elements
  = elements ++ refs [n].
Proof.
  unfold emit. destruct (hasTagName n && matches n) eqn:Hn.
  - now rewrite filter_cons_True.
  - rewrite filter_cons_False by (unfold emitted; congruence).
    cbn. now rewrite app_nil_r.
Qed.

Lemma fold_walk_refs children :
  Forall (fun child => forall elements,
            walkWith matches child elements
            = elements ++ refs (walked child)) children ->
  forall elements,
    fold_left (fun elements child => walkWith matches child elements)
              children elements
    = elements ++ refs (flat_map walked children).
Proof.
  induction 1 as [|child children Hchild _ IH]; intros elements;
    cbn [fold_left flat_map].
  - cbn. now rewrite app_nil_r.
  - now rewrite Hchild, IH, refs_app, app_assoc.
Qed.

Lemma walk_refs n : forall elements,
  walkWith matches n elements = elements ++ refs (walked n).
Proof.
  induction n as [nn tn ats children co Hchildren Hcontent]
    using ASTNode_tree_ind.
  intros elements.
  change (walkWith matches (mkNode nn tn ats children co) elements)
    with (fold_left (fun elements child => walkWith matches child elements)
            children
            (let e := emit sourceRangeForNode sourceRangeForAttribute
                        sourceRangeForAttributeName
                        sourceRangeForAttributeValue matches
                        (mkNode nn tn ats children co) elements in
             if isTemplate (mkNode nn tn ats children co) then
               match co with
               | Some c => walkWith matches c e
               | None => e
               end
             else e)).
  rewrite (fold_walk_refs children Hchildren). cbn zeta.
  rewrite emit_refs.
  change (walked (mkNode nn tn ats children co))
    with (mkNode nn tn ats children co
            :: (if isTemplate (mkNode nn tn ats children co) then
                  match co with Some c => walked c | None => [] end
                else [])
            ++ flat_map walked children).
  rewrite (refs_cons _ (_ ++ _)), !refs_app.
  destruct (isTemplate _); [destruct co as [c|]|].
  - rewrite (Hcontent c eq_refl). now rewrite <- !app_assoc.
  - cbn. now rewrite <- !app_assoc.
  - cbn. now rewrite <- !app_assoc.
Qed.

Lemma visitor_refs n elements :
  visitorWith matches n elements = elements ++ refs (presented n).
Proof.
  unfold visitor, presented. rewrite emit_refs.
  destruct (isTemplate n); [destruct (content n) as [c|]|].
  - now rewrite walk_refs, (refs_cons n (walked c)), <- app_assoc.
  - reflexivity.
  - reflexivity.
Qed.

(** The scanner emits, in order, one reference for each node it is run on
    that has a tag name and passes [matches]. *)
Lemma scan_refs nodes :
  scanWith matches nodes = refs (flat_map presented nodes).
Proof.
  unfold scan.
  enough (forall elements,
            fold_left (fun elements node => visitorWith matches node elements)
                      nodes elements
            = elements ++ refs (flat_map presented nodes)) as Hgen
    by apply (Hgen []).
  induction nodes as [|n nodes IH]; intros elements;
    cbn [fold_left flat_map].
  - cbn. now rewrite app_nil_r.
  - now rewrite IH, visitor_refs, refs_app, app_assoc.
Qed.

End AnyMatcher.

Lemma attributes_all n :
  attributes (reference n) = map (attributeRef n) (default [] (attrs n)).
Proof.
  cbn.
  enough (forall l acc,
            fold_left (fun attributes attr =>
                         attributes ++ [attributeRef n attr]) l acc
            = acc ++ map (attributeRef n) l) as Hgen by apply (Hgen _ []).
  induction l as [|a l IH]; intros acc; cbn.
  - now rewrite app_nil_r.
  - now rewrite IH, <- app_assoc.
Qed.

Lemma matchesCustom_iff n :
  hasTagName n && matchesCustom n = true <->
  exists t, tagName n = Some t /\ t <> [] /\
            hyphenInside (toLowerCase t) /\
            nodeName n <> js "dom-module".
Proof.
  unfold matchesCustom, isCustomElement, hasMatchingTagName, hasTagName.
  destruct (tagName n) as [[|c t]|].
  - split; [discriminate|]. intros (t & [= <-] & Hne & _). congruence.
  - rewrite !andb_true_iff, negb_true_iff, bool_decide_eq_false,
      test_customElementPattern.
    split.
    + intros (_ & Hin & Hdm). exists (c :: t). now repeat split.
    + intros (t' & [= <-] & _ & Hin & Hdm). now repeat split.
  - split; [discriminate|]. intros (t & [=] & _).
Qed.

Lemma hyphenInside_In s : hyphenInside s -> In hyphen s.
Proof.
  intros (pre & a & b & post & -> & _). apply in_or_app. right.
  right. now left.
Qed.

(** C7, as amended: the custom-element reference scanner emits, in the order
    of the visit, one reference for each element it visits whose lower-cased
    tag name has a hyphen with a character other than a line terminator
    immediately before and immediately after it, except the elements whose
    node name is 'dom-module'; each reference records every attribute of
    the element with its attribute range, name range and value range; and
    an element whose tag name has no hyphen is never emitted. *)
Theorem scanCustomElementReferences_emits nodes :
  scanCustomElementReferences sourceRangeForNode sourceRangeForAttribute
    sourceRangeForAttributeName sourceRangeForAttributeValue nodes
  = map reference (filter (emitted matchesCustom) (flat_map presented nodes))
  /\ (forall n,
        emitted matchesCustom n <->
        exists t, tagName n = Some t /\ t <> [] /\
                  hyphenInside (toLowerCase t) /\
                  nodeName n <> js "dom-module")
  /\ (forall n,
        attributes (reference n)
        = map (fun attr =>
                 {| name := attr_name attr;
                    value := attr_value attr;
                    sourceRange :=
                      sourceRangeForAttribute n (attr_name attr);
                    nameSourceRange :=
                      sourceRangeForAttributeName n (attr_name attr);
                    valueSourceRange :=
                      sourceRangeForAttributeValue n (attr_name attr) |})
              (default [] (attrs n)))
  /\ (forall n t,
        tagName n = Some t -> ~ In hyphen t -> ~ emitted matchesCustom n).
Proof.
  split; [apply scan_refs|]. split; [apply matchesCustom_iff|].
  split; [apply attributes_all|].
  intros n t Ht Hno (t' & Ht' & _ & Hin & _)%matchesCustom_iff.
  rewrite Ht in Ht'. injection Ht' as <-.
  now apply Hno, toLowerCase_hyphen, hyphenInside_In.
Qed.

End ScannerFacts.

(** *** Closed instances *)

Definition noRange : ASTNode -> option SourceRange := fun _ => None.
Definition noAttrRange : ASTNode -> list N -> option SourceRange :=
  fun _ _ => None.

Definition element (tag : jsstring) (ats : list Attr)
    (children : list ASTNode) : ASTNode :=
  mkNode tag (Some tag) (Some ats) children None.

Definition template (inside : list ASTNode) : ASTNode :=
  mkNode (js "template") (Some (js "template")) (Some []) []
         (Some (mkNode (js "#document-fragment") None None inside None)).

Example scan_example :
  map ref_tagName
    (scanCustomElementReferences noRange noAttrRange noAttrRange noAttrRange
       [ element (js "my-el") [] [];
         element (js "div") [] [];
         element (js "dom-module") [] [];
         template [element (js "p") [] [element (js "x-y") [] []]] ])
  = [js "my-el"; js "x-y"].
Proof. reflexivity. Qed.

(** C7 as stated fails: the element [<x->] has a hyphen in its tag name and
    is not a 'dom-module', and the scanner emits nothing for it. *)
Lemma scanCustomElementReferences_counterexample :
  ~ (forall (R : JsRuntime) nodes n t,
       In n nodes -> tagName n = Some t -> In hyphen t ->
       nodeName n <> js "dom-module" ->
       exists r,
         In r (scanCustomElementReferences noRange noAttrRange noAttrRange
                 noAttrRange nodes)
         /\ ref_astNode r = n).
Proof.
  intros Hclaim.
  destruct (Hclaim asciiRuntime [element (js "x-") [] []]
              (element (js "x-") [] []) (js "x-"))
    as (r & Hin & _).
  - now left.
  - reflexivity.
  - right. now left.
  - discriminate.
  - vm_compute in Hin. exact Hin.
Qed.

End HtmlElementReferenceScanner.

(** * generate-analysis.ts: the summary emitter *)

Module GenerateAnalysis.

Inductive Privacy := Public | Private | Protected.

(** A source range of the summary; an inherited member keeps a file. *)
Record SourceRangeOut := {
  o_file : option (list N);
  o_start : Position;
  o_end : Position
}.

(** [x || d] on a string that may be undefined. *)
Definition orString (x : option (list N)) (d : jsstring) : jsstring :=
  match x with
  | Some (c :: s) => c :: s
  | _ => d
  end.

(** The string when it is truthy. *)
Definition truthyString (x : option (list N)) : option (list N) :=
  match x with
  | Some (c :: s) => Some (c :: s)
  | _ => None
  end.

Record ScannedReference := { identifier : list N }.
Record Demo := { demo_desc : list N; demo_path : list N }.
Record Slot := { slot_name : list N; slot_range : option SourceRange }.
Record ReturnType := { ret_type : option (list N); ret_desc : option (list N) }.

Record ResolvedParameter := {
  rparam_name : list N;
  rparam_description : option (list N);
  rparam_type : option (list N)
}.

Record ResolvedProperty := {
  rp_name : list N;
  rp_type : option (list N);
  rp_description : option (list N);
  rp_privacy : Privacy;
  rp_sourceRange : option SourceRange;
  rp_default : option (list N);
  rp_inheritedFrom : option (list N)
}.

Record ResolvedMethod := {
  rm_name : list N;
  rm_description : option (list N);
  rm_privacy : Privacy;
  rm_sourceRange : option SourceRange;
  rm_params : option (list ResolvedParameter);
  rm_return : option ReturnType;
  rm_inheritedFrom : option (list N)
}.

Record ResolvedAttribute := {
  ra_name : list N;
  ra_description : option (list N);
  ra_sourceRange : option SourceRange;
  ra_type : option (list N);
  ra_inheritedFrom : option (list N)
}.

Record ResolvedEvent := {
  re_name : list N;
  re_description : option (list N);
  re_inheritedFrom : option (list N)
}.

Section Emitter.

(** The metadata bags are opaque to the emitter; [path.relative] and
    [path.dirname] come from the host. *)
Variable Metadata : Type.
Variable pathRelative : list N -> list N -> list N.
Variable pathDirname : list N -> list N.

(** A resolved element with the results of its [emit...Metadata] methods. *)
Record ResolvedElement := {
  sourceRange : option SourceRange;
  description : option (list N);
  summary : option (list N);
  properties : list ResolvedProperty;
  methods : list ResolvedMethod;
  demos : option (list Demo);
  privacy : Privacy;
  attributes : list ResolvedAttribute;
  events : list ResolvedEvent;
  slots : list Slot;
  tagName : option (list N);
  className : option (list N);
  mixins : list ScannedReference;
  superClass : option ScannedReference;
  emitMetadata : Metadata;
  emitPropertyMetadata : ResolvedProperty -> Metadata;
  emitMethodMetadata : ResolvedMethod -> Metadata;
  emitAttributeMetadata : ResolvedAttribute -> Metadata;
  emitEventMetadata : ResolvedEvent -> Metadata
}.

Record SummaryParameter := {
  param_name : list N;
  param_description : option (list N);
  param_type : option (list N)
}.

Record Property := {
  prop_name : list N;
  prop_type : list N;
  prop_description : list N;
  prop_privacy : Privacy;
  prop_sourceRange : option SourceRangeOut;
  prop_metadata : Metadata;
  prop_defaultValue : option (list N);
  prop_inheritedFrom : option (list N)
}.

Record Method := {
  method_name : list N;
  method_description : list N;
  method_privacy : Privacy;
  method_sourceRange : option SourceRangeOut;
  method_metadata : Metadata;
  method_params : option (list SummaryParameter);
  method_return : option ReturnType;
  method_inheritedFrom : option (list N)
}.

Record Attribute := {
  attribute_name : list N;
  attribute_description : list N;
  attribute_sourceRange : option SourceRangeOut;
  attribute_metadata : Metadata;
  attribute_type : option (list N);
  attribute_inheritedFrom : option (list N)
}.

Record Event := {
  event_type : list N;
  event_name : list N;
  event_description : list N;
  event_metadata : Metadata;
  event_inheritedFrom : option (list N)
}.

Record SlotOut := {
  so_description : list N;
  so_name : list N;
  so_range : option SourceRange
}.

Record Styling := { cssVariables : list N; selectors : list N }.

(** An entry of [elements] in the summary. *)
Record Element := {
  el_description : list N;
  el_summary : list N;
  el_path : list N;
  el_properties : list Property;
  el_methods : list Method;
  el_demos : list (list N);
  el_metadata : Metadata;
  el_sourceRange : option SourceRangeOut;
  el_privacy : Privacy;
  el_attributes : list Attribute;
  el_events : list Event;
  el_styling : option Styling;
  el_slots : list SlotOut;
  el_tagname : option (list N);
  el_classname : option (list N);
  el_mixins : option (list (list N));
  el_superclass : option (list N)
}.

Definition resolveSourceRangePath (elementPath : jsstring)
    (range : option SourceRange) : option SourceRangeOut :=
  match range with
  | None => None
  | Some r =>
      match file r with
      | [] => Some {| o_file := Some []; o_start := start r; o_end := end_ r |}
      | _ :: _ =>
          if decide (elementPath = file r)
          then Some {| o_file := None; o_start := start r; o_end := end_ r |}
          else Some {| o_file :=
                         Some (pathRelative (pathDirname elementPath) (file r));
                       o_start := start r; o_end := end_ r |}
      end
  end.

Definition serializeProperty (elementOrMixin : ResolvedElement)
    (elementPath : jsstring) (p : ResolvedProperty) : Property :=
  {| prop_name := rp_name p;
     prop_type := orString (rp_type p) (js "?");
     prop_description := orString (rp_description p) [];
     prop_privacy := rp_privacy p;
     prop_sourceRange := resolveSourceRangePath elementPath (rp_sourceRange p);
     prop_metadata := emitPropertyMetadata elementOrMixin p;
     prop_defaultValue := truthyString (rp_default p);
     prop_inheritedFrom := truthyString (rp_inheritedFrom p) |}.

Definition serializeParameter (p : ResolvedParameter) : SummaryParameter :=
  {| param_name := rparam_name p;
     param_description := truthyString (rparam_description p);
     param_type := truthyString (rparam_type p) |}.

Definition serializeMethod (resolvedElement : ResolvedElement)
    (elementPath : jsstring) (m : ResolvedMethod) : Method :=
  {| method_name := rm_name m;
     method_description := orString (rm_description m) [];
     method_privacy := rm_privacy m;
     method_sourceRange :=
       resolveSourceRangePath elementPath (rm_sourceRange m);
     method_metadata := emitMethodMetadata resolvedElement m;
     method_params := map serializeParameter <$> rm_params m;
     method_return := rm_return m;
     method_inheritedFrom := rm_inheritedFrom m |}.

Definition serializeAttribute (resolvedElement : ResolvedElement)
    (elementPath : jsstring) (a : ResolvedAttribute) : Attribute :=
  {| attribute_name := ra_name a;
     attribute_description := orString (ra_description a) [];
     attribute_sourceRange :=
       resolveSourceRangePath elementPath (ra_sourceRange a);
     attribute_metadata := emitAttributeMetadata resolvedElement a;
     attribute_type := truthyString (ra_type a);
     attribute_inheritedFrom := ra_inheritedFrom a |}.

Definition serializeEvent (resolvedElement : ResolvedElement)
    (_elementPath : jsstring) (e : ResolvedEvent) : Event :=
  {| event_type := js "CustomEvent";
     event_name := re_name e;
     event_description := orString (re_description e) [];
     event_metadata := emitEventMetadata resolvedElement e;
     event_inheritedFrom := re_inheritedFrom e |}.

(** [serializeClass]; [clazz.sourceRange!.file] throws when the class has
    no source range.  The fields that [serializeElementLike] and
    [serializeElement] assign afterwards start out unset. *)
Definition serializeClass (clazz : ResolvedElement) (packagePath : jsstring)
  : Completion Element :=
  match sourceRange clazz with
  | None => Throw TypeError
  | Some range =>
      let path := file range in
      let packageRelativePath := pathRelative packagePath path in
      Return
        {| el_description := orString (description clazz) [];
           el_summary := orString (summary clazz) [];
           el_path := packageRelativePath;
           el_properties :=
             map (serializeProperty clazz path) (properties clazz);
           el_methods := map (serializeMethod clazz path) (methods clazz);
           el_demos := map demo_path (default [] (demos clazz));
           el_metadata := emitMetadata clazz;
           el_sourceRange := resolveSourceRangePath path (sourceRange clazz);
           el_privacy := privacy clazz;
           el_attributes := [];
           el_events := [];
           el_styling := None;
           el_slots := [];
           el_tagname := None;
           el_classname := None;
           el_mixins := None;
           el_superclass := None |}
  end.

Definition serializeElementLike (elementOrMixin : ResolvedElement)
    (packagePath : jsstring) : Completion Element :=
  match serializeClass elementOrMixin packagePath with
  | Throw e => Throw e
  | Return clazz =>
      match sourceRange elementOrMixin with
      | None => Throw TypeError
      | Some range =>
          let path := file range in
          Return
            {| el_description := el_description clazz;
               el_summary := el_summary clazz;
               el_path := el_path clazz;
               el_properties := el_properties clazz;
               el_methods := el_methods clazz;
               el_demos := el_demos clazz;
               el_metadata := el_metadata clazz;
               el_sourceRange := el_sourceRange clazz;
               el_privacy := el_privacy clazz;
               el_attributes :=
                 map (serializeAttribute elementOrMixin path)
                     (attributes elementOrMixin);
               el_events :=
                 map (serializeEvent elementOrMixin path)
                     (events elementOrMixin);
               el_styling := Some {| cssVariables := []; selectors := [] |};
               el_slots :=
                 map (fun s => {| so_description := [];
                                  so_name := slot_name s;
                                  so_range := slot_range s |})
                     (slots elementOrMixin);
               el_tagname := el_tagname clazz;
               el_classname := el_classname clazz;
               el_mixins := el_mixins clazz;
               el_superclass := el_superclass clazz |}
      end
  end.

Definition serializeElement (element : ResolvedElement)
    (packagePath : jsstring) : Completion Element :=
  match serializeElementLike element packagePath with
  | Throw e => Throw e
  | Return metadata =>
      Return
        {| el_description := el_description metadata;
           el_summary := el_summary metadata;
           el_path := el_path metadata;
           el_properties := el_properties metadata;
           el_methods := el_methods metadata;
           el_demos := el_demos metadata;
           el_metadata := el_metadata metadata;
           el_sourceRange := el_sourceRange metadata;
           el_privacy := el_privacy metadata;
           el_attributes := el_attributes metadata;
           el_events := el_events metadata;
           el_styling := el_styling metadata;
           el_slots := el_slots metadata;
           el_tagname := tagName element;
           el_classname :=
             match truthyString (className element) with
             | Some c => Some c
             | None => el_classname metadata
             end;
           el_mixins :=
             match mixins element with
             | [] => el_mixins metadata
             | ms => Some (map identifier ms)
             end;
           el_superclass := Some (js "HTMLElement") |}
  end.

(** The element with another resolved superclass. *)
Definition withSuperClass (element : ResolvedElement)
    (super : option ScannedReference) : ResolvedElement :=
  {| sourceRange := sourceRange element;
     description := description element;
     summary := summary element;
     properties := properties element;
     methods := methods element;
     demos := demos element;
     privacy := privacy element;
     attributes := attributes element;
     events := events element;
     slots := slots element;
     tagName := tagName element;
     className := className element;
     mixins := mixins element;
     superClass := super;
     emitMetadata := emitMetadata element;
     emitPropertyMetadata := emitPropertyMetadata element;
     emitMethodMetadata := emitMethodMetadata element;
     emitAttributeMetadata := emitAttributeMetadata element;
     emitEventMetadata := emitEventMetadata element |}.

(** The names of ancestors that an entry of the summary holds: its
    superclass, its mixins, and the [inheritedFrom] of its properties,
    methods, attributes and events. *)
Definition namedAncestors (entry : Element) : list (list N) :=
  option_list (el_superclass entry)
  ++ default [] (el_mixins entry)
  ++ omap prop_inheritedFrom (el_properties entry)
  ++ omap method_inheritedFrom (el_methods entry)
  ++ omap attribute_inheritedFrom (el_attributes entry)
  ++ omap event_inheritedFrom (el_events entry).

(** The members of an entry name the ancestors that the members of the
    element name. *)
Lemma inheritedFrom_kept {Member Entry} (serialize : Member -> Entry)
    (written : Entry -> option (list N)) (held : Member -> option (list N))
    (members : list Member) :
  (forall member, written (serialize member) = held member) ->
  omap written (map serialize members) = omap held members.
Proof.
  intros Hkept. induction members as [|member members IH]; [reflexivity|].
  cbn. now rewrite Hkept, IH.
Qed.


End Emitter.

Arguments el_superclass {Metadata} _.
Arguments el_tagname {Metadata} _.
Arguments serializeElement {Metadata} _ _ _ _.

(** *** A closed instance *)

Definition sampleElement : ResolvedElement unit :=
  {| sourceRange :=
       Some {| file := js "elementdir/element.html";
               start := {| line := 4; column := 4 |};
               end_ := {| line := 20; column := 5 |} |};
     description := Some (js "An element to test out behavior inheritance.");
     summary := None; properties := []; methods := []; demos := None;
     privacy := Public; attributes := []; events := []; slots := [];
     tagName := Some (js "behavior-test-elem"); className := None;
     mixins := [];
     superClass := Some {| identifier := js "Polymer.Element" |};
     emitMetadata := tt;
     emitPropertyMetadata := fun _ => tt;
     emitMethodMetadata := fun _ => tt;
     emitAttributeMetadata := fun _ => tt;
     emitEventMetadata := fun _ => tt |}.

Example serializeElement_sample :
  match serializeElement (fun _ p => p) (fun p => p) sampleElement [] with
  | Return entry =>
      el_superclass entry = Some (js "HTMLElement") /\
      el_tagname entry = Some (js "behavior-test-elem")
  | Throw _ => False
  end.
Proof. split; reflexivity. Qed.

(** An element whose class [Subclass] extends [Base], as the resolver
    leaves it: the method inherited from [Base] names it in
    [inheritedFrom], the own method names nothing. *)
Definition inheritingElement : ResolvedElement unit :=
  {| sourceRange :=
       Some {| file := js "class/super-class.js";
               start := {| line := 14; column := 0 |};
               end_ := {| line := 20; column := 1 |} |};
     description := None; summary := None; properties := [];
     methods :=
       [ {| rm_name := js "baseMethod"; rm_description := None;
            rm_privacy := Public; rm_sourceRange := None;
            rm_params := Some []; rm_return := None;
            rm_inheritedFrom := Some (js "Base") |};
         {| rm_name := js "subMethod"; rm_description := None;
            rm_privacy := Public; rm_sourceRange := None;
            rm_params := Some []; rm_return := None;
            rm_inheritedFrom := None |} ];
     demos := None; privacy := Public; attributes := []; events := [];
     slots := []; tagName := Some (js "sub-class");
     className := Some (js "Subclass"); mixins := [];
     superClass := Some {| identifier := js "Base" |};
     emitMetadata := tt;
     emitPropertyMetadata := fun _ => tt;
     emitMethodMetadata := fun _ => tt;
     emitAttributeMetadata := fun _ => tt;
     emitEventMetadata := fun _ => tt |}.



End GenerateAnalysis.

(** * core/analysis-context.ts *)

Module AnalysisContext.

(** ** Scanned documents (model/document)

    [getNestedFeatures] lists the features of a document together with
    those of its inline documents; the record keeps that list.  An import
    is known by the URL it names; the [error] that [scan] may attach to it
    lives in a store of its own, see [TransitiveScan] below. *)

Inductive ScannedFeature :=
  | ScannedImport (url : list N)
  | OtherFeature (id : N).

Record ScannedDocument := {
  sd_url : list N;
  getNestedFeatures : list ScannedFeature
}.

Section Context.
Context `{JsRuntime}.

(** The resolver and the pieces of the model that are built elsewhere: the
    resolved [Document] with its constructor and its [resolve] method, which
    reaches back into the cache through the context it is given. *)
Variable canResolve : list N -> bool.
Variable resolve : list N -> list N.
Variable extname : list N -> list N.
Variable Document AnalysisResult ParsedDocument InlineDocInfo : Type.
Variable newDocument : ScannedDocument -> option AnalysisResult -> Document.

Record AnalysisCache := {
  failedDocuments : gmap (list N) Warning;
  analyzedDocuments : gmap (list N) Document;
  analyzedDocumentPromises : gmap (list N) Document;
  scannedDocuments : gmap (list N) ScannedDocument
}.

Variable resolveDocument : Document -> AnalysisCache -> AnalysisCache.
Variable _languageAnalyzers : gmap (list N) (list N -> AnalysisResult).

Definition resolveUrl (url : jsstring) : jsstring :=
  if canResolve url then resolve url else url.

Definition substring1 (s : jsstring) : jsstring := tail s.

Definition set_analyzed (cache : AnalysisCache) (resolvedUrl : jsstring)
    (document : Document) : AnalysisCache :=
  {| failedDocuments := failedDocuments cache;
     analyzedDocuments := <[resolvedUrl := document]> (analyzedDocuments cache);
     analyzedDocumentPromises :=
       match analyzedDocumentPromises cache !! resolvedUrl with
       | Some _ => analyzedDocumentPromises cache
       | None => <[resolvedUrl := document]> (analyzedDocumentPromises cache)
       end;
     scannedDocuments := scannedDocuments cache |}.

Definition documentNotFound (url : jsstring) : Warning :=
  {| w_sourceRange :=
       {| file := resolveUrl url;
          start := {| line := 0; column := 0 |};
          end_ := {| line := 0; column := 0 |} |};
     w_code := js "unable-to-analyze";
     w_message := js "Document not found: " ++ url;
     w_severity := ERROR |}.

(** [getDocument] reads and writes the cache of the context; the cache
    after the call is returned with the result. *)
Definition getDocument (cache : AnalysisCache) (url : jsstring)
  : AnalysisCache * (Document + Warning) :=
  let resolvedUrl := resolveUrl url in
  match failedDocuments cache !! resolvedUrl with
  | Some cachedWarning => (cache, inr cachedWarning)
  | None =>
      match analyzedDocuments cache !! resolvedUrl with
      | Some cachedResult => (cache, inl cachedResult)
      | None =>
          match scannedDocuments cache !! resolvedUrl with
          | None => (cache, inr (documentNotFound url))
          | Some scannedDocument =>
              let extension := substring1 (extname resolvedUrl) in
              let analysisResult :=
                match _languageAnalyzers !! extension with
                | Some languageAnalyzer =>
                    Some (languageAnalyzer (sd_url scannedDocument))
                | None => None
                end in
              let document := newDocument scannedDocument analysisResult in
              let cache := set_analyzed cache resolvedUrl document in
              (resolveDocument document cache, inl document)
          end
      end
  end.

(** ** Parsing *)

Local Abbreviation Parser :=
  (list N -> list N -> option InlineDocInfo -> Completion ParsedDocument)
  (only parsing).

Variable parsers : gmap (list N) Parser.

Definition instanceofWarningCarryingException (error : Thrown) : bool :=
  match error with
  | WarningCarryingException _ => true
  | _ => false
  end.

(** [`${error.stack}`]: reading a property of [null] or [undefined] throws;
    an undefined [stack] prints as "undefined". *)
Definition stackText (error : Thrown) : Completion (list N) :=
  match error with
  | JsUndefined | JsNull => Throw TypeError
  | _ => Return (default (js "undefined") (stackOf error))
  end.

Definition newline : codeunit := 10%N.

Definition _parseContents (type contents url : jsstring)
    (inlineInfo : option InlineDocInfo) : Completion ParsedDocument :=
  match parsers !! type with
  | None =>
      Throw (NoKnownParserError (js "No parser for for file type " ++ type))
  | Some parser =>
      match parser contents url inlineInfo with
      | Return parsed => Return parsed
      | Throw error =>
          if instanceofWarningCarryingException error then Throw error
          else
            match stackText error with
            | Throw e => Throw e
            | Return stack =>
                Throw (Error (js "Error parsing " ++ url ++ js ":"
                              ++ [newline] ++ js " " ++ stack))
            end
      end
  end.

(** C2: when the failed-documents table, the analyzed-documents cache and
    the scanned-documents cache have no entry for the resolved form of
    [url], [getDocument] returns the warning 'unable-to-analyze' whose range
    lies in the file of the resolved URL and starts and ends at line 0,
    column 0; the cache is left as it was, so no document is made or
    cached. *)
Theorem getDocument_unable_to_analyze cache url :
  failedDocuments cache !! resolveUrl url = None ->
  analyzedDocuments cache !! resolveUrl url = None ->
  scannedDocuments cache !! resolveUrl url = None ->
  exists w,
    getDocument cache url = (cache, inr w) /\
    w_code w = js "unable-to-analyze" /\
    file (w_sourceRange w) = resolveUrl url /\
    start (w_sourceRange w) = {| line := 0; column := 0 |} /\
    end_ (w_sourceRange w) = start (w_sourceRange w).
Proof.
  intros Hfailed Hanalyzed Hscanned.
  exists (documentNotFound url). unfold getDocument.
  rewrite Hfailed, Hanalyzed, Hscanned. now repeat split.
Qed.

(** The three outcomes of [_parseContents] short of a parsed document. *)
Lemma _parseContents_no_parser type contents url inlineInfo :
  parsers !! type = None ->
  _parseContents type contents url inlineInfo
  = Throw (NoKnownParserError (js "No parser for for file type " ++ type)).
Proof. intros Hnone. unfold _parseContents. now rewrite Hnone. Qed.

Lemma _parseContents_rethrows type contents url inlineInfo parser w :
  parsers !! type = Some parser ->
  parser contents url inlineInfo = Throw (WarningCarryingException w) ->
  _parseContents type contents url inlineInfo
  = Throw (WarningCarryingException w).
Proof.
  intros Hparser Hthrow. unfold _parseContents. now rewrite Hparser, Hthrow.
Qed.

Lemma _parseContents_wraps type contents url inlineInfo parser error :
  parsers !! type = Some parser ->
  parser contents url inlineInfo = Throw error ->
  instanceofWarningCarryingException error = false ->
  error <> JsNull -> error <> JsUndefined ->
  _parseContents type contents url inlineInfo
  = Throw (Error (js "Error parsing " ++ url ++ js ":" ++ [newline]
                  ++ js " " ++ default (js "undefined") (stackOf error))).
Proof.
  intros Hparser Hthrow Hwce Hnull Hundef. unfold _parseContents.
  rewrite Hparser, Hthrow, Hwce. now destruct error.
Qed.

Lemma _parseContents_nullish type contents url inlineInfo parser error :
  parsers !! type = Some parser ->
  parser contents url inlineInfo = Throw error ->
  error = JsNull \/ error = JsUndefined ->
  _parseContents type contents url inlineInfo = Throw TypeError.
Proof.
  intros Hparser Hthrow [-> | ->]; unfold _parseContents;
    now rewrite Hparser, Hthrow.
Qed.

End Context.

Arguments failedDocuments {Document} _.
Arguments analyzedDocuments {Document} _.
Arguments analyzedDocumentPromises {Document} _.
Arguments scannedDocuments {Document} _.

(** *** Closed instances *)

Definition emptyCache : AnalysisCache unit :=
  {| failedDocuments := ∅; analyzedDocuments := ∅;
     analyzedDocumentPromises := ∅; scannedDocuments := ∅ |}.

Lemma getDocument_unable_to_analyze_witness :
  exists w,
    getDocument (fun _ => false) (fun u => u) (fun u => u) unit unit
      (fun _ _ => tt) (fun _ c => c) ∅ emptyCache (js "a.html")
    = (emptyCache, inr w) /\
    w_code w = js "unable-to-analyze" /\
    file (w_sourceRange w) = js "a.html" /\
    start (w_sourceRange w) = {| line := 0; column := 0 |} /\
    end_ (w_sourceRange w) = start (w_sourceRange w).
Proof.
  apply (getDocument_unable_to_analyze (fun _ => false) (fun u => u)
           (fun u => u) unit unit (fun _ _ => tt) (fun _ c => c) ∅
           emptyCache (js "a.html")); reflexivity.
Defined.

(** A parser for scripts that throws [null]. *)
Definition nullThrowingParsers
  : gmap (list N)
      (list N -> list N -> option unit -> Completion unit) :=
  {[ js "js" := fun _ _ _ => Throw JsNull ]}.

(** C8, the code at a parser that throws [null]: reading [error.stack] in
    the handler throws a TypeError, and that TypeError leaves
    [_parseContents] in place of the Error that names the URL. *)
Theorem _parseContents_null_throw :
  _parseContents unit unit nullThrowingParsers
    (js "js") (js "x") (js "a.js") None
  = Throw TypeError.
Proof. reflexivity. Qed.

End AnalysisContext.

(** * core/analysis-context.ts: the transitive scan

    [scan] is asynchronous: a call starts a producer that runs until it must
    wait, and the promise it left in the cache settles later.  The state
    below holds the promises of [dependenciesScannedPromises] with the point
    at which each producer is waiting, the dependency graph, the [catch]
    reactions that have not run yet, and the [error] fields of the imports.
    A step is one uninterrupted run of one producer or of one reaction; the
    steps, and the calls of [scan] that come from outside, may interleave in
    any order. *)

Module TransitiveScan.
Import AnalysisContext.

Inductive Promise :=
  | AwaitingLocal
  | AwaitingReady (scannedDocument : ScannedDocument)
  | Fulfilled (scannedDocument : ScannedDocument)
  | Rejected (error : Thrown).

Definition isAwaitingLocal (p : Promise) : bool :=
  match p with AwaitingLocal => true | _ => false end.
Definition isAwaitingReady (p : Promise) : bool :=
  match p with AwaitingReady _ => true | _ => false end.
Definition isSettled (p : Promise) : bool :=
  match p with Fulfilled _ | Rejected _ => true | _ => false end.

(** An import is the [i]-th import among the nested features of the
    document scanned at a URL. *)
Record State := {
  dependenciesScannedPromises : gmap (list N) Promise;
  dependencyGraph : gmap (list N) (Completion (list (list N)));
  reactions : list (list N * (list N * nat));
  importError : gmap (list N * nat) Thrown
}.

(** [getNestedFeatures().filter((e) => e instanceof ScannedImport)] *)
Definition importsOf (scannedDocument : ScannedDocument) : list (list N) :=
  omap (fun e => match e with
                 | ScannedImport url => Some url
                 | OtherFeature _ => None
                 end)
       (getNestedFeatures scannedDocument).

(** [error || ''] *)
Definition orEmpty (error : Thrown) : Thrown :=
  match error with
  | JsUndefined | JsNull | JsString [] => JsString []
  | _ => error
  end.

(** The thrown values that are falsy, for which [error || ''] is ['']. *)
Definition falsy (error : Thrown) : Prop :=
  error = JsUndefined \/ error = JsNull \/ error = JsString [].

(** The number of imports among [features]: an import that comes after
    them in the nested features of a document has this index in the array
    [imports] of [scan]. *)
Fixpoint importsAmong (features : list ScannedFeature) : nat :=
  match features with
  | [] => 0
  | ScannedImport _ :: rest => S (importsAmong rest)
  | OtherFeature _ :: rest => importsAmong rest
  end.

(** Modelled from the spec: the promise cache (core/async-work-cache is not
    among the sources).  "If a pending or complete entry exists, its value
    is returned; otherwise producer is invoked, its result stored, and
    returned."  The producer of [scan] that is invoked runs up to its first
    [await], where it waits for the local scan. *)
Definition getOrCompute (promises : gmap (list N) Promise) (key : jsstring)
  : gmap (list N) Promise :=
  match promises !! key with
  | Some _ => promises
  | None => <[key := AwaitingLocal]> promises
  end.

(** Modelled from the spec: the dependency graph (core/dependency-graph is
    not among the sources).  A node is in the graph once its document was
    added with its imports or rejected with an error. *)
Definition addDocument (graph : gmap (list N) (Completion (list (list N))))
    (url : jsstring) (imports : list (list N))
  : gmap (list N) (Completion (list (list N))) :=
  <[url := Return imports]> graph.

Definition rejectDocument (graph : gmap (list N) (Completion (list (list N))))
    (url : jsstring) (error : Thrown)
  : gmap (list N) (Completion (list (list N))) :=
  <[url := Throw error]> graph.

(** Modelled from the spec: "[when_ready(url)] returns a signal that
    resolves when the transitive closure rooted at [url] has completed
    (either success or failure of any node)".  [reaches graph u v]: [v] is in
    the transitive closure rooted at [u]. *)
Inductive reaches (graph : gmap (list N) (Completion (list (list N))))
  : list N -> list N -> Prop :=
  | reaches_here u : reaches graph u u
  | reaches_import u imports v w :
      graph !! u = Some (Return imports) ->
      v ∈ imports ->
      reaches graph v w ->
      reaches graph u w.

Definition whenReadyResolves
    (graph : gmap (list N) (Completion (list (list N)))) (url : jsstring)
  : Prop :=
  forall v, reaches graph url v -> is_Some (graph !! v).

(** Modelled from the spec: "a node's failure does not fail its importers'
    readiness"; the readiness of [url] is a failure only when [url] itself
    was rejected. *)
Definition whenReadyFailure
    (graph : gmap (list N) (Completion (list (list N)))) (url : jsstring)
  : option Thrown :=
  match graph !! url with
  | Some (Throw error) => Some error
  | _ => None
  end.

Section Scan.

(** [this.resolveUrl], and [this._parse] followed by [this._scanDocument]:
    what the loader, the parser and the scanners make of a resolved URL. *)
Variable resolveUrl : list N -> list N.
Variable localScan : list N -> Completion ScannedDocument.

(** The loop of [scan] over the imports: for each of them
    [this.scan(importUrl)] is called, which leaves a promise in the cache
    when there was none, and a reaction is put on the promise; nothing is
    awaited. *)
Fixpoint scanImports (resolvedUrl : jsstring) (index : nat)
    (imports : list (list N)) (s : State) : State :=
  match imports with
  | [] => s
  | url :: rest =>
      let importUrl := resolveUrl url in
      scanImports resolvedUrl (S index) rest
        {| dependenciesScannedPromises :=
             getOrCompute (dependenciesScannedPromises s) importUrl;
           dependencyGraph := dependencyGraph s;
           reactions := reactions s ++ [(importUrl, (resolvedUrl, index))];
           importError := importError s |}
  end.

Definition settle (s : State) (resolvedUrl : jsstring) (p : Promise)
  : State :=
  {| dependenciesScannedPromises :=
       <[resolvedUrl := p]> (dependenciesScannedPromises s);
     dependencyGraph := dependencyGraph s;
     reactions := reactions s;
     importError := importError s |}.

Definition set_graph (s : State)
    (graph : gmap (list N) (Completion (list (list N)))) : State :=
  {| dependenciesScannedPromises := dependenciesScannedPromises s;
     dependencyGraph := graph;
     reactions := reactions s;
     importError := importError s |}.

(** [_scanLocal] returned a document: it has added the document to the
    graph, and [scan] runs its loop and comes to [await whenReady]. *)
Definition localScanned (s : State) (resolvedUrl : jsstring)
    (scannedDocument : ScannedDocument) : State :=
  let imports := importsOf scannedDocument in
  let s := set_graph s (addDocument (dependencyGraph s) resolvedUrl
                          (map resolveUrl imports)) in
  let s := scanImports resolvedUrl 0 imports s in
  settle s resolvedUrl (AwaitingReady scannedDocument).

(** [_scanLocal] threw: it has rejected the document in the graph, and the
    promise of [scan] is rejected with the same error. *)
Definition localFailed (s : State) (resolvedUrl : jsstring)
    (error : Thrown) : State :=
  settle (set_graph s (rejectDocument (dependencyGraph s) resolvedUrl error))
         resolvedUrl (Rejected error).

(** [whenReady] is over: [scan] returns the document, or throws what
    [whenReady] threw. *)
Definition readied (s : State) (resolvedUrl : jsstring)
    (scannedDocument : ScannedDocument) : State :=
  settle s resolvedUrl
    match whenReadyFailure (dependencyGraph s) resolvedUrl with
    | Some error => Rejected error
    | None => Fulfilled scannedDocument
    end.

(** The reaction [(error) => { scannedImport.error = error || ''; }] runs on
    a rejected promise and is dropped on a fulfilled one. *)
Definition reacted (s : State) (remaining : list (list N * (list N * nat)))
    (import : list N * nat) (error : option Thrown) : State :=
  {| dependenciesScannedPromises := dependenciesScannedPromises s;
     dependencyGraph := dependencyGraph s;
     reactions := remaining;
     importError :=
       match error with
       | Some e => <[import := orEmpty e]> (importError s)
       | None => importError s
       end |}.

Inductive step : State -> State -> Prop :=
  | step_local_ok s u scannedDocument :
      dependenciesScannedPromises s !! u = Some AwaitingLocal ->
      localScan u = Return scannedDocument ->
      step s (localScanned s u scannedDocument)
  | step_local_fail s u error :
      dependenciesScannedPromises s !! u = Some AwaitingLocal ->
      localScan u = Throw error ->
      step s (localFailed s u error)
  | step_ready s u scannedDocument :
      dependenciesScannedPromises s !! u
        = Some (AwaitingReady scannedDocument) ->
      whenReadyResolves (dependencyGraph s) u ->
      step s (readied s u scannedDocument)
  | step_catch s before after v import error :
      reactions s = before ++ (v, import) :: after ->
      dependenciesScannedPromises s !! v = Some (Rejected error) ->
      step s (reacted s (before ++ after) import (Some error))
  | step_pass s before after v import scannedDocument :
      reactions s = before ++ (v, import) :: after ->
      dependenciesScannedPromises s !! v = Some (Fulfilled scannedDocument) ->
      step s (reacted s (before ++ after) import None).

Inductive steps : State -> State -> Prop :=
  | steps_refl s : steps s s
  | steps_step s1 s2 s3 : step s1 s2 -> steps s2 s3 -> steps s1 s3.

(** The fresh cache of [new AnalysisCache()]. *)
Definition fresh : State :=
  {| dependenciesScannedPromises := ∅;
     dependencyGraph := ∅;
     reactions := [];
     importError := ∅ |}.

(** [scan(url)] is called from outside, as [_analyze] does for each of the
    URLs it is given. *)
Definition called (s : State) (url : jsstring) : State :=
  {| dependenciesScannedPromises :=
       getOrCompute (dependenciesScannedPromises s) url;
     dependencyGraph := dependencyGraph s;
     reactions := reactions s;
     importError := importError s |}.

(** [scan(root)] on a fresh cache. *)
Definition initial (root : jsstring) : State := called fresh root.

(** The states that calls of [scan] and steps lead to from a fresh cache. *)
Inductive reachable : State -> Prop :=
  | reachable_fresh : reachable fresh
  | reachable_call s url : reachable s -> reachable (called s url)
  | reachable_step s s' : reachable s -> step s s' -> reachable s'.

(** Every promise is settled and every reaction has run. *)
Definition settled (s : State) : Prop :=
  map_Forall (fun _ p => isSettled p = true) (dependenciesScannedPromises s)
  /\ reactions s = [].

(** The reactions that the loop of [scan] registers. *)
Fixpoint newReactions (resolvedUrl : jsstring) (index : nat)
    (imports : list (list N)) : list (list N * (list N * nat)) :=
  match imports with
  | [] => []
  | url :: rest =>
      (resolveUrl url, (resolvedUrl, index))
        :: newReactions resolvedUrl (S index) rest
  end.

Definition scannedAs (p : option Promise) (d : ScannedDocument) : Prop :=
  p = Some (AwaitingReady d) \/ p = Some (Fulfilled d).

(** What holds of every state of a scan that started on a fresh cache. *)
Record consistent (s : State) : Prop := {
  c_unstarted : forall u,
    dependenciesScannedPromises s !! u = None ->
    dependencyGraph s !! u = None;
  c_local : forall u,
    dependenciesScannedPromises s !! u = Some AwaitingLocal ->
    dependencyGraph s !! u = None;
  c_scanned : forall u d,
    scannedAs (dependenciesScannedPromises s !! u) d ->
    localScan u = Return d /\
    dependencyGraph s !! u = Some (Return (map resolveUrl (importsOf d)));
  c_rejected : forall u e,
    dependenciesScannedPromises s !! u = Some (Rejected e) ->
    localScan u = Throw e /\ dependencyGraph s !! u = Some (Throw e);
  c_edges : forall u imports v,
    dependencyGraph s !! u = Some (Return imports) ->
    v ∈ imports ->
    is_Some (dependenciesScannedPromises s !! v);
  c_reaction_target : forall v import,
    (v, import) ∈ reactions s ->
    is_Some (dependenciesScannedPromises s !! v);
  c_reaction_import : forall v u i,
    (v, (u, i)) ∈ reactions s ->
    exists d url,
      localScan u = Return d /\ importsOf d !! i = Some url /\
      v = resolveUrl url;
  c_errors : forall u d i url,
    scannedAs (dependenciesScannedPromises s !! u) d ->
    importsOf d !! i = Some url ->
    (resolveUrl url, (u, i)) ∈ reactions s \/
    (exists d', dependenciesScannedPromises s !! resolveUrl url
                = Some (Fulfilled d')) \/
    (exists e, dependenciesScannedPromises s !! resolveUrl url
               = Some (Rejected e) /\
               importError s !! (u, i) = Some (orEmpty e))
}.

(** ** The loop over the imports *)

Lemma getOrCompute_old promises key v p :
  promises !! v = Some p -> getOrCompute promises key !! v = Some p.
Proof.
  intros Hv. unfold getOrCompute.
  destruct (promises !! key) eqn:Hkey; [exact Hv|].
  rewrite lookup_insert_ne; [exact Hv|]. intros ->. congruence.
Qed.

Lemma getOrCompute_key promises key :
  is_Some (getOrCompute promises key !! key).
Proof.
  unfold getOrCompute. destruct (promises !! key) eqn:Hkey.
  - rewrite Hkey. eauto.
  - rewrite lookup_insert_eq. eauto.
Qed.

Lemma getOrCompute_new promises key v p :
  getOrCompute promises key !! v = Some p ->
  promises !! v = Some p \/
  (promises !! v = None /\ p = AwaitingLocal /\ v = key).
Proof.
  unfold getOrCompute. destruct (promises !! key) eqn:Hkey; [now left|].
  destruct (decide (key = v)) as [->|Hne].
  - rewrite lookup_insert_eq. intros [= <-]. now right.
  - rewrite lookup_insert_ne by exact Hne. now left.
Qed.

Lemma scanImports_graph u imports : forall i s,
  dependencyGraph (scanImports u i imports s) = dependencyGraph s.
Proof.
  induction imports as [|url rest IH]; intros i s; cbn; [reflexivity|].
  now rewrite IH.
Qed.

Lemma scanImports_importError u imports : forall i s,
  importError (scanImports u i imports s) = importError s.
Proof.
  induction imports as [|url rest IH]; intros i s; cbn; [reflexivity|].
  now rewrite IH.
Qed.

Lemma scanImports_reactions u imports : forall i s,
  reactions (scanImports u i imports s)
  = reactions s ++ newReactions u i imports.
Proof.
  induction imports as [|url rest IH]; intros i s; cbn.
  - now rewrite app_nil_r.
  - rewrite IH. cbn. now rewrite <- app_assoc.
Qed.

Lemma scanImports_old u imports : forall i s v p,
  dependenciesScannedPromises s !! v = Some p ->
  dependenciesScannedPromises (scanImports u i imports s) !! v = Some p.
Proof.
  induction imports as [|url rest IH]; intros i s v p Hv; cbn; [exact Hv|].
  apply IH. cbn. now apply getOrCompute_old.
Qed.

Lemma scanImports_new u imports : forall i s v p,
  dependenciesScannedPromises (scanImports u i imports s) !! v = Some p ->
  dependenciesScannedPromises s !! v = Some p \/
  (dependenciesScannedPromises s !! v = None /\ p = AwaitingLocal /\
   v ∈ map resolveUrl imports).
Proof.
  induction imports as [|url rest IH]; intros i s v p; cbn; [now left|].
  intros [Hv|(Hnone & -> & Hin)]%IH; cbn in *.
  - apply getOrCompute_new in Hv as [Hv|(Hnone & -> & ->)]; [now left|].
    right. repeat split; [assumption|]. apply elem_of_cons. now left.
  - right. repeat split.
    + destruct (dependenciesScannedPromises s !! v) eqn:Hv; [|reflexivity].
      apply (getOrCompute_old _ (resolveUrl url)) in Hv. congruence.
    + apply elem_of_cons. now right.
Qed.

Lemma scanImports_started u imports : forall i s v,
  v ∈ map resolveUrl imports ->
  is_Some (dependenciesScannedPromises (scanImports u i imports s) !! v).
Proof.
  induction imports as [|url rest IH]; intros i s v; cbn.
  - intros Hin. now apply elem_of_nil in Hin.
  - intros [->|Hin]%elem_of_cons; [|now apply IH].
    destruct (getOrCompute_key (dependenciesScannedPromises s)
                (resolveUrl url)) as [p Hp].
    exists p. now apply scanImports_old.
Qed.

Lemma newReactions_lookup u imports : forall i j url,
  imports !! j = Some url ->
  (resolveUrl url, (u, i + j)) ∈ newReactions u i imports.
Proof.
  induction imports as [|url' rest IH]; intros i j url; [discriminate|].
  destruct j as [|j]; cbn.
  - intros [= ->]. rewrite Nat.add_0_r. apply elem_of_cons. now left.
  - intros Hj. apply elem_of_cons. right.
    replace (i + S j) with (S i + j) by lia. now apply IH.
Qed.

Lemma newReactions_elem u imports : forall i v u' k,
  (v, (u', k)) ∈ newReactions u i imports ->
  u' = u /\ exists url, imports !! (k - i) = Some url /\ v = resolveUrl url.
Proof.
  induction imports as [|url rest IH]; intros i v u' k; cbn.
  - intros Hin. now apply elem_of_nil in Hin.
  - intros [[= -> -> ->]|Hin]%elem_of_cons.
    + split; [reflexivity|]. exists url. now rewrite Nat.sub_diag.
    + assert (S i <= k) as Hle.
      { clear IH. revert Hin. generalize (S i) as m.
        induction rest as [|url' rest IH']; intros m; cbn.
        - intros Hin. now apply elem_of_nil in Hin.
        - intros [[= _ _ ->]|Hin]%elem_of_cons; [lia|].
          apply IH' in Hin. lia. }
      apply IH in Hin as (-> & url' & Hk & ->).
      split; [reflexivity|]. exists url'. split; [|reflexivity].
      replace (k - i) with (S (k - S i)) by lia. exact Hk.
Qed.

(** ** The states of a scan are consistent *)

Lemma initial_promises root u p :
  dependenciesScannedPromises (initial root) !! u = Some p ->
  u = root /\ p = AwaitingLocal.
Proof.
  cbn. unfold getOrCompute. rewrite lookup_empty.
  destruct (decide (root = u)) as [->|Hne].
  - rewrite lookup_insert_eq. now intros [= <-].
  - rewrite lookup_insert_ne by exact Hne. now rewrite lookup_empty.
Qed.

Lemma consistent_fresh : consistent fresh.
Proof.
  split; cbn.
  - intros u _. apply lookup_empty.
  - intros u _. apply lookup_empty.
  - intros u d [Hp|Hp]; now rewrite lookup_empty in Hp.
  - intros u e Hp. now rewrite lookup_empty in Hp.
  - intros u imports v Hg. now rewrite lookup_empty in Hg.
  - intros v import Hin. now apply elem_of_nil in Hin.
  - intros v u i Hin. now apply elem_of_nil in Hin.
  - intros u d i url [Hp|Hp]; now rewrite lookup_empty in Hp.
Qed.

Lemma called_scannedAs s url v d :
  scannedAs (dependenciesScannedPromises (called s url) !! v) d ->
  scannedAs (dependenciesScannedPromises s !! v) d.
Proof.
  intros [Hp|Hp]; apply getOrCompute_new in Hp as [Hp|(_ & [=] & _)];
    [now left|now right].
Qed.

Lemma consistent_called s url : consistent s -> consistent (called s url).
Proof.
  intros [Hunstarted Hlocal Hscanned Hrejected Hedges Htarget Himport Herrors].
  assert (forall v, is_Some (dependenciesScannedPromises s !! v) ->
                    is_Some (dependenciesScannedPromises (called s url) !! v))
    as Hmono.
  { intros v [p Hp]. exists p. now apply getOrCompute_old. }
  split; cbn [called dependencyGraph reactions importError].
  - intros v Hv. apply Hunstarted.
    destruct (dependenciesScannedPromises s !! v) eqn:Hold; [|reflexivity].
    apply (getOrCompute_old _ url) in Hold. cbn in Hv. congruence.
  - intros v [Hv|(Hv & _)]%getOrCompute_new; auto.
  - intros v d Hv%called_scannedAs. now apply Hscanned.
  - intros v e [Hv|(_ & [=] & _)]%getOrCompute_new. now apply Hrejected.
  - intros v imports w Hg Hw. apply Hmono. eauto.
  - intros v import Hin. apply Hmono. eauto.
  - exact Himport.
  - intros v d i u Hv%called_scannedAs Hi.
    destruct (Herrors v d i u Hv Hi) as [Hin|[[d' Hf]|(e & Hr & He)]].
    + now left.
    + right. left. exists d'. now apply getOrCompute_old.
    + right. right. exists e. split; [|exact He]. now apply getOrCompute_old.
Qed.

Lemma consistent_initial root : consistent (initial root).
Proof. apply consistent_called, consistent_fresh. Qed.

Section LocalScanned.
Variables (s : State) (u : list N) (d : ScannedDocument).
Hypothesis Hs : consistent s.
Hypothesis Hu : dependenciesScannedPromises s !! u = Some AwaitingLocal.
Hypothesis Hd : localScan u = Return d.

Lemma localScanned_graph :
  dependencyGraph (localScanned s u d)
  = <[u := Return (map resolveUrl (importsOf d))]> (dependencyGraph s).
Proof. cbn. now rewrite scanImports_graph. Qed.

Lemma localScanned_reactions :
  reactions (localScanned s u d)
  = reactions s ++ newReactions u 0 (importsOf d).
Proof. cbn. now rewrite scanImports_reactions. Qed.

Lemma localScanned_importError :
  importError (localScanned s u d) = importError s.
Proof. cbn. now rewrite scanImports_importError. Qed.

Lemma localScanned_self :
  dependenciesScannedPromises (localScanned s u d) !! u
  = Some (AwaitingReady d).
Proof. cbn. apply lookup_insert_eq. Qed.

Lemma localScanned_keeps v p :
  v <> u ->
  dependenciesScannedPromises s !! v = Some p ->
  dependenciesScannedPromises (localScanned s u d) !! v = Some p.
Proof.
  intros Hne Hv. cbn. rewrite lookup_insert_ne by congruence.
  now apply scanImports_old.
Qed.

Lemma localScanned_other v p :
  v <> u ->
  dependenciesScannedPromises (localScanned s u d) !! v = Some p ->
  dependenciesScannedPromises s !! v = Some p \/
  (dependenciesScannedPromises s !! v = None /\ p = AwaitingLocal).
Proof.
  intros Hne. cbn. rewrite lookup_insert_ne by congruence.
  intros [Hv|(Hnone & -> & _)]%scanImports_new; cbn in *; auto.
Qed.

Lemma localScanned_started v :
  is_Some (dependenciesScannedPromises s !! v) \/
  v ∈ map resolveUrl (importsOf d) ->
  is_Some (dependenciesScannedPromises (localScanned s u d) !! v).
Proof.
  intros Hv. destruct (decide (v = u)) as [->|Hne].
  - rewrite localScanned_self. eauto.
  - cbn. rewrite lookup_insert_ne by congruence.
    destruct Hv as [[p Hp]|Hin].
    + exists p. now apply scanImports_old.
    + now apply scanImports_started.
Qed.

Lemma localScanned_scannedAs v d' :
  scannedAs (dependenciesScannedPromises (localScanned s u d) !! v) d' ->
  (v = u /\ d' = d) \/
  (v <> u /\ scannedAs (dependenciesScannedPromises s !! v) d').
Proof.
  destruct (decide (v = u)) as [->|Hne].
  - rewrite localScanned_self. intros [[= ->]|[=]]. now left.
  - intros [Hp|Hp]; apply (localScanned_other _ _ Hne) in Hp
      as [Hp|[_ [=]]]; right; (split; [exact Hne|]);
      [now left|now right].
Qed.

Lemma consistent_localScanned : consistent (localScanned s u d).
Proof.
  destruct Hs as [Hunstarted Hlocal Hscanned Hrejected Hedges Htarget
                    Himport Herrors].
  split; rewrite ?localScanned_graph, ?localScanned_reactions,
           ?localScanned_importError.
  - intros v Hv.
    assert (v <> u) as Hne by (intros ->; now rewrite localScanned_self in Hv).
    rewrite lookup_insert_ne by congruence. apply Hunstarted.
    destruct (dependenciesScannedPromises s !! v) eqn:Hold; [|reflexivity].
    apply (localScanned_keeps _ _ Hne) in Hold. congruence.
  - intros v Hv.
    assert (v <> u) as Hne
      by (intros ->; rewrite localScanned_self in Hv; discriminate).
    rewrite lookup_insert_ne by congruence.
    apply (localScanned_other _ _ Hne) in Hv as [Hv|[Hv _]]; auto.
  - intros v d' [[-> ->]|[Hne Hv]]%localScanned_scannedAs.
    + now rewrite lookup_insert_eq.
    + rewrite lookup_insert_ne by congruence. now apply Hscanned.
  - intros v e Hv.
    assert (v <> u) as Hne
      by (intros ->; rewrite localScanned_self in Hv; discriminate).
    rewrite lookup_insert_ne by congruence.
    apply (localScanned_other _ _ Hne) in Hv as [Hv|[_ [=]]].
    now apply Hrejected.
  - intros v imports w Hg Hw. apply localScanned_started.
    destruct (decide (u = v)) as [->|Hne].
    + rewrite lookup_insert_eq in Hg. injection Hg as <-. now right.
    + rewrite lookup_insert_ne in Hg by exact Hne. left. eauto.
  - intros v import [Hin|Hin]%elem_of_app; apply localScanned_started.
    + left. eauto.
    + right. destruct import as [u' k].
      apply newReactions_elem in Hin as (_ & url & Hk & ->).
      apply list_elem_of_fmap. exists url. split; [reflexivity|].
      now apply list_elem_of_lookup_2 in Hk.
  - intros v u' i [Hin|Hin]%elem_of_app; [eauto|].
    apply newReactions_elem in Hin as (-> & url & Hk & ->).
    rewrite Nat.sub_0_r in Hk. eauto.
  - intros v d' i url [[-> ->]|[Hne Hv]]%localScanned_scannedAs Hi.
    + left. apply elem_of_app. right.
      now apply (newReactions_lookup u (importsOf d) 0 i url).
    + destruct (Herrors v d' i url Hv Hi) as [Hin|[[d'' Hf]|(e & Hr & He)]].
      * left. apply elem_of_app. now left.
      * right. left. exists d''. apply localScanned_keeps; [|exact Hf].
        intros Heq. rewrite Heq in Hf. congruence.
      * right. right. exists e. split; [|exact He].
        apply localScanned_keeps; [|exact Hr].
        intros Heq. rewrite Heq in Hr. congruence.
Qed.

End LocalScanned.

Lemma scannedAs_insert (promises : gmap (list N) Promise) u p v d :
  scannedAs (<[u := p]> promises !! v) d ->
  (v = u /\ scannedAs (Some p) d) \/ (v <> u /\ scannedAs (promises !! v) d).
Proof.
  destruct (decide (u = v)) as [->|Hne].
  - rewrite lookup_insert_eq. now left.
  - rewrite lookup_insert_ne by exact Hne. right. split; congruence.
Qed.

Lemma consistent_localFailed s u e :
  consistent s ->
  dependenciesScannedPromises s !! u = Some AwaitingLocal ->
  localScan u = Throw e ->
  consistent (localFailed s u e).
Proof.
  intros [Hunstarted Hlocal Hscanned Hrejected Hedges Htarget Himport Herrors]
         Hu He.
  assert (forall v, is_Some (dependenciesScannedPromises s !! v) ->
                    is_Some (<[u := Rejected e]>
                               (dependenciesScannedPromises s) !! v))
    as Hmono.
  { intros v Hv. destruct (decide (u = v)) as [->|Hne].
    - rewrite lookup_insert_eq. eauto.
    - now rewrite lookup_insert_ne. }
  unfold localFailed, rejectDocument.
  split; cbn [settle set_graph dependenciesScannedPromises dependencyGraph
                reactions importError].
  - intros v. destruct (decide (u = v)) as [->|Hne].
    + now rewrite lookup_insert_eq.
    + rewrite !lookup_insert_ne by exact Hne. apply Hunstarted.
  - intros v. destruct (decide (u = v)) as [->|Hne].
    + now rewrite lookup_insert_eq.
    + rewrite !lookup_insert_ne by exact Hne. apply Hlocal.
  - intros v d [[_ [[=]|[=]]]|[Hne Hv]]%scannedAs_insert.
    rewrite lookup_insert_ne by congruence. now apply Hscanned.
  - intros v e'. destruct (decide (u = v)) as [->|Hne].
    + rewrite !lookup_insert_eq. now intros [= <-].
    + rewrite !lookup_insert_ne by exact Hne. apply Hrejected.
  - intros v imports w Hg Hw. apply Hmono.
    destruct (decide (u = v)) as [->|Hne].
    + now rewrite lookup_insert_eq in Hg.
    + rewrite lookup_insert_ne in Hg by exact Hne. eauto.
  - intros v import Hin. apply Hmono. eauto.
  - exact Himport.
  - intros v d i url [[_ [[=]|[=]]]|[Hne Hv]]%scannedAs_insert Hi.
    destruct (Herrors v d i url Hv Hi) as [Hin|[[d' Hf]|(e' & Hr & He')]].
    + now left.
    + right. left. exists d'. rewrite lookup_insert_ne; [exact Hf|].
      intros Heq. rewrite <- Heq in Hf. congruence.
    + right. right. exists e'. split; [|exact He'].
      rewrite lookup_insert_ne; [exact Hr|].
      intros Heq. rewrite <- Heq in Hr. congruence.
Qed.

(** [whenReady] does not fail for a document that was scanned locally. *)
Lemma readied_fulfils s u d :
  consistent s ->
  dependenciesScannedPromises s !! u = Some (AwaitingReady d) ->
  readied s u d = settle s u (Fulfilled d).
Proof.
  intros Hs Hu. unfold readied, whenReadyFailure.
  destruct (c_scanned s Hs u d) as [_ ->]; [now left|reflexivity].
Qed.

Lemma consistent_readied s u d :
  consistent s ->
  dependenciesScannedPromises s !! u = Some (AwaitingReady d) ->
  consistent (readied s u d).
Proof.
  intros Hs Hu. rewrite (readied_fulfils s u d Hs Hu).
  destruct Hs as [Hunstarted Hlocal Hscanned Hrejected Hedges Htarget
                    Himport Herrors].
  assert (forall v, is_Some (dependenciesScannedPromises s !! v) ->
                    is_Some (<[u := Fulfilled d]>
                               (dependenciesScannedPromises s) !! v))
    as Hmono.
  { intros v Hv. destruct (decide (u = v)) as [->|Hne].
    - rewrite lookup_insert_eq. eauto.
    - now rewrite lookup_insert_ne. }
  assert (forall v d',
            scannedAs (<[u := Fulfilled d]>
                         (dependenciesScannedPromises s) !! v) d' ->
            scannedAs (dependenciesScannedPromises s !! v) d') as Hback.
  { intros v d' [[-> [[=]|[= ->]]]|[_ Hv]]%scannedAs_insert; [|exact Hv].
    now left. }
  split; cbn [settle dependenciesScannedPromises dependencyGraph reactions
                importError].
  - intros v. destruct (decide (u = v)) as [->|Hne].
    + now rewrite lookup_insert_eq.
    + rewrite lookup_insert_ne by exact Hne. apply Hunstarted.
  - intros v. destruct (decide (u = v)) as [->|Hne].
    + now rewrite lookup_insert_eq.
    + rewrite lookup_insert_ne by exact Hne. apply Hlocal.
  - intros v d' Hv%Hback. now apply Hscanned.
  - intros v e. destruct (decide (u = v)) as [->|Hne].
    + now rewrite lookup_insert_eq.
    + rewrite lookup_insert_ne by exact Hne. apply Hrejected.
  - intros v imports w Hg Hw. apply Hmono. eauto.
  - intros v import Hin. apply Hmono. eauto.
  - exact Himport.
  - intros v d' i url Hv%Hback Hi.
    destruct (Herrors v d' i url Hv Hi) as [Hin|[[d'' Hf]|(e & Hr & He)]].
    + now left.
    + right. left. exists d''. rewrite lookup_insert_ne; [exact Hf|].
      intros Heq. rewrite <- Heq in Hf. congruence.
    + right. right. exists e. split; [|exact He].
      rewrite lookup_insert_ne; [exact Hr|].
      intros Heq. rewrite <- Heq in Hr. congruence.
Qed.

Lemma elem_of_middle {A} (x y : A) before after :
  x ∈ before ++ y :: after -> x = y \/ x ∈ before ++ after.
Proof.
  rewrite !elem_of_app, elem_of_cons. tauto.
Qed.

Lemma elem_of_without {A} (x y : A) before after :
  x ∈ before ++ after -> x ∈ before ++ y :: after.
Proof.
  rewrite !elem_of_app, elem_of_cons. tauto.
Qed.

Lemma consistent_reacted s before after v import outcome :
  consistent s ->
  reactions s = before ++ (v, import) :: after ->
  match outcome with
  | Some e => dependenciesScannedPromises s !! v = Some (Rejected e)
  | None => exists d, dependenciesScannedPromises s !! v = Some (Fulfilled d)
  end ->
  consistent (reacted s (before ++ after) import outcome).
Proof.
  intros [Hunstarted Hlocal Hscanned Hrejected Hedges Htarget Himport Herrors]
         HR Hv.
  split; cbn [reacted dependenciesScannedPromises dependencyGraph reactions
                importError]; try assumption.
  - intros w k Hin. apply (Htarget w k). rewrite HR.
    now apply elem_of_without.
  - intros w u i Hin. apply (Himport w u i). rewrite HR.
    now apply elem_of_without.
  - intros u d i url Hu Hi.
    destruct (Herrors u d i url Hu Hi) as [Hin|[Hf|(e & Hr & He)]].
    + rewrite HR in Hin. apply elem_of_middle in Hin as [[= <- <-]|Hin];
        [|now left].
      right. destruct outcome as [e|].
      * right. exists e. split; [exact Hv|]. apply lookup_insert_eq.
      * now left.
    + right. now left.
    + right. right. exists e. split; [exact Hr|].
      destruct outcome as [e'|]; [|exact He].
      destruct (decide (import = (u, i))) as [->|Hne];
        [|now rewrite lookup_insert_ne].
      rewrite lookup_insert_eq. f_equal. f_equal.
      destruct (Himport v u i) as (d0 & url0 & Hd0 & Hi0 & ->).
      { rewrite HR. apply elem_of_app. right. apply elem_of_cons. now left. }
      destruct (Hscanned u d Hu) as [Hd _].
      rewrite Hd in Hd0. injection Hd0 as <-.
      rewrite Hi in Hi0. injection Hi0 as <-. congruence.
Qed.

(** Every step keeps the state consistent. *)
Lemma consistent_step s s' : consistent s -> step s s' -> consistent s'.
Proof.
  intros Hs Hstep. destruct Hstep.
  - now apply consistent_localScanned.
  - now apply consistent_localFailed.
  - now apply consistent_readied.
  - now apply (consistent_reacted s before after v import (Some error)).
  - apply (consistent_reacted s before after v import None); eauto.
Qed.

Lemma consistent_steps s s' : consistent s -> steps s s' -> consistent s'.
Proof.
  intros Hs Hsteps. induction Hsteps as [|s1 s2 s3 Hstep _ IH];
    [exact Hs|].
  apply IH. now apply (consistent_step s1).
Qed.

(** ** A scan that is not settled can go on *)

Lemma whenReady_resolves s u d :
  consistent s ->
  map_Forall (fun _ p => isAwaitingLocal p = false)
             (dependenciesScannedPromises s) ->
  dependenciesScannedPromises s !! u = Some (AwaitingReady d) ->
  whenReadyResolves (dependencyGraph s) u.
Proof.
  intros Hs Hnone Hu v Hreach.
  assert (is_Some (dependenciesScannedPromises s !! u)) as Hstarted by eauto.
  clear Hu. induction Hreach as [u|u imports v w Hg Hv _ IH].
  - destruct Hstarted as [p Hp]. pose proof (Hnone u p Hp) as Hp'.
    destruct p as [|d'|d'|e]; [discriminate| | |].
    + destruct (c_scanned s Hs u d') as [_ ->]; [now left|eauto].
    + destruct (c_scanned s Hs u d') as [_ ->]; [now right|eauto].
    + destruct (c_rejected s Hs u e Hp) as [_ ->]. eauto.
  - apply IH. now apply (c_edges s Hs u imports v).
Qed.

Lemma progress s : consistent s -> settled s \/ exists s', step s s'.
Proof.
  intros Hs.
  destruct (decide (map_Exists (fun _ p => isAwaitingLocal p = true)
                               (dependenciesScannedPromises s)))
    as [(u & p & Hu & Hp)|Hnolocal].
  { right. destruct p; try discriminate.
    destruct (localScan u) as [d|e] eqn:Hd.
    - exists (localScanned s u d). now constructor.
    - exists (localFailed s u e). now constructor. }
  apply map_not_Exists in Hnolocal.
  assert (map_Forall (fun _ p => isAwaitingLocal p = false)
                     (dependenciesScannedPromises s)) as Hnone.
  { intros u p Hu. specialize (Hnolocal u p Hu). cbn in Hnolocal.
    now destruct (isAwaitingLocal p). }
  destruct (decide (map_Exists (fun _ p => isAwaitingReady p = true)
                               (dependenciesScannedPromises s)))
    as [(u & p & Hu & Hp)|Hnoready].
  { right. destruct p as [|d| |]; try discriminate.
    exists (readied s u d). constructor; [exact Hu|].
    now apply (whenReady_resolves s u d). }
  apply map_not_Exists in Hnoready.
  assert (map_Forall (fun _ p => isSettled p = true)
                     (dependenciesScannedPromises s)) as Hall.
  { intros u p Hu. specialize (Hnoready u p Hu). specialize (Hnone u p Hu).
    cbn in *. now destruct p. }
  destruct (reactions s) as [|[v import] after] eqn:HR.
  { left. now split. }
  right. destruct (c_reaction_target s Hs v import) as [p Hv].
  { rewrite HR. apply elem_of_cons. now left. }
  pose proof (Hall v p Hv) as Hp.
  destruct p as [| |d|e]; try discriminate.
  - exists (reacted s ([] ++ after) import None).
    now apply (step_pass s [] after v import d).
  - exists (reacted s ([] ++ after) import (Some e)).
    now apply (step_catch s [] after v import e).
Qed.

(** ** Every step brings the scan closer to its end *)

Definition importCount (u : jsstring) : nat :=
  match localScan u with
  | Return d => length (importsOf d)
  | Throw _ => 0
  end.

Definition weight (s : State) (u : jsstring) : nat :=
  match dependenciesScannedPromises s !! u with
  | None | Some AwaitingLocal => 2 + importCount u
  | Some (AwaitingReady _) => 1
  | Some (Fulfilled _) | Some (Rejected _) => 0
  end.

Definition workLeft (universe : list (list N)) (s : State) : nat :=
  sum_list_with (weight s) universe + length (reactions s).

(** The URLs of the scan stay inside [universe]. *)
Definition within (universe : list (list N)) (s : State) : Prop :=
  forall u, is_Some (dependenciesScannedPromises s !! u) -> u ∈ universe.

(** [universe] has, with every URL, the resolved URLs of the imports of
    the document scanned there. *)
Definition closedUnderImports (universe : list (list N)) : Prop :=
  forall u d url,
    u ∈ universe -> localScan u = Return d -> url ∈ importsOf d ->
    resolveUrl url ∈ universe.

Lemma sum_list_with_drop {A} (f g : A -> nat) (l : list A) x k :
  (forall y, g y <= f y) -> x ∈ l -> g x + k <= f x ->
  sum_list_with g l + k <= sum_list_with f l.
Proof.
  intros Hle Hx Hk. induction l as [|y l IH]; [now apply elem_of_nil in Hx|].
  cbn. apply elem_of_cons in Hx as [<-|Hx].
  - assert (sum_list_with g l <= sum_list_with f l) as Hrest.
    { clear IH. induction l as [|z l IHl]; cbn; [lia|].
      specialize (Hle z). lia. }
    lia.
  - specialize (IH Hx). specialize (Hle y). lia.
Qed.

Lemma newReactions_length u imports : forall i,
  length (newReactions u i imports) = length imports.
Proof.
  induction imports as [|url rest IH]; intros i; cbn; [reflexivity|].
  now rewrite IH.
Qed.

Lemma weight_settle_other s u p v :
  v <> u -> weight (settle s u p) v = weight s v.
Proof.
  intros Hne. unfold weight. cbn. now rewrite lookup_insert_ne.
Qed.

Lemma workLeft_step universe s s' :
  within universe s -> step s s' ->
  workLeft universe s' < workLeft universe s.
Proof.
  intros Hin Hstep. unfold workLeft. destruct Hstep.
  - rewrite localScanned_reactions, length_app, newReactions_length.
    enough (sum_list_with (weight (localScanned s u scannedDocument)) universe
            + (length (importsOf scannedDocument) + 1)
            <= sum_list_with (weight s) universe) by lia.
    apply (sum_list_with_drop _ _ _ u).
    + intros v. destruct (decide (v = u)) as [->|Hne].
      * unfold weight. rewrite localScanned_self, H. lia.
      * unfold weight.
        destruct (dependenciesScannedPromises
                    (localScanned s u scannedDocument) !! v) as [p|] eqn:Hv.
        -- apply (localScanned_other _ _ _ _ _ Hne) in Hv
             as [->|[-> ->]]; lia.
        -- destruct (dependenciesScannedPromises s !! v) as [p|] eqn:Hold;
             [|lia].
           apply (localScanned_keeps s u scannedDocument _ _ Hne) in Hold.
           congruence.
    + apply Hin. eauto.
    + unfold weight, importCount. rewrite localScanned_self, H, H0. lia.
  - cbn [localFailed settle set_graph reactions].
    enough (sum_list_with (weight (localFailed s u error)) universe + 1
            <= sum_list_with (weight s) universe) by lia.
    apply (sum_list_with_drop _ _ _ u).
    + intros v. destruct (decide (v = u)) as [->|Hne].
      * unfold weight. cbn. rewrite lookup_insert_eq. lia.
      * unfold localFailed. rewrite weight_settle_other by exact Hne.
        reflexivity.
    + apply Hin. eauto.
    + unfold weight. cbn. rewrite lookup_insert_eq, H. lia.
  - cbn [readied settle reactions].
    enough (sum_list_with (weight (readied s u scannedDocument)) universe + 1
            <= sum_list_with (weight s) universe) by lia.
    apply (sum_list_with_drop _ _ _ u).
    + intros v. destruct (decide (v = u)) as [->|Hne].
      * unfold weight. cbn. rewrite lookup_insert_eq, H.
        destruct (whenReadyFailure _ _); lia.
      * unfold readied. rewrite weight_settle_other by exact Hne.
        reflexivity.
    + apply Hin. eauto.
    + unfold weight. cbn. rewrite lookup_insert_eq, H.
      destruct (whenReadyFailure _ _); lia.
  - cbn [reacted reactions]. rewrite H, !length_app. cbn [length].
    change (weight (reacted s (before ++ after) import (Some error)))
      with (weight s). lia.
  - cbn [reacted reactions]. rewrite H, !length_app. cbn [length].
    change (weight (reacted s (before ++ after) import None))
      with (weight s). lia.
Qed.

Lemma within_step universe s s' :
  closedUnderImports universe ->
  within universe s -> step s s' -> within universe s'.
Proof.
  intros Hclosed Hin Hstep. destruct Hstep; intros w [p Hw].
  - destruct (decide (w = u)) as [->|Hne]; [apply Hin; eauto|].
    cbn in Hw. rewrite lookup_insert_ne in Hw by congruence.
    apply scanImports_new in Hw as [Hw|(_ & _ & Hw)]; [apply Hin; eauto|].
    apply list_elem_of_fmap in Hw as (url & -> & Hurl).
    apply (Hclosed u scannedDocument url); [apply Hin; eauto|assumption..].
  - destruct (decide (w = u)) as [->|Hne]; [apply Hin; eauto|].
    cbn in Hw. rewrite lookup_insert_ne in Hw by congruence.
    apply Hin; eauto.
  - destruct (decide (w = u)) as [->|Hne]; [apply Hin; eauto|].
    cbn in Hw. rewrite lookup_insert_ne in Hw by congruence.
    apply Hin; eauto.
  - apply Hin. eauto.
  - apply Hin. eauto.
Qed.

(** A scan over finitely many URLs settles. *)
Lemma settles universe :
  closedUnderImports universe ->
  forall n s,
    workLeft universe s <= n -> consistent s -> within universe s ->
    exists s', steps s s' /\ settled s'.
Proof.
  intros Hclosed n. induction n as [|n IH]; intros s Hn Hs Hin;
    (destruct (progress s Hs) as [Hdone|[s' Hstep]];
     [exists s; split; [constructor|exact Hdone]|]);
    pose proof (workLeft_step universe s s' Hin Hstep) as Hless; [lia|].
  destruct (IH s') as (s'' & Hsteps & Hdone).
  - lia.
  - now apply (consistent_step s).
  - now apply (within_step universe s).
  - exists s''. split; [|exact Hdone]. now apply (steps_step s s').
Qed.

Lemma within_initial universe root :
  root ∈ universe -> within universe (initial root).
Proof.
  intros Hroot u [p Hp]. now apply initial_promises in Hp as [-> _].
Qed.

Lemma started_step s s' u :
  is_Some (dependenciesScannedPromises s !! u) -> step s s' ->
  is_Some (dependenciesScannedPromises s' !! u).
Proof.
  intros Hu Hstep. destruct Hstep; try exact Hu.
  - destruct (decide (u = u0)) as [->|Hne].
    + cbn. rewrite lookup_insert_eq. eauto.
    + destruct Hu as [p Hp]. exists p.
      cbn. rewrite lookup_insert_ne by congruence.
      now apply scanImports_old.
  - cbn. destruct (decide (u = u0)) as [->|Hne].
    + rewrite lookup_insert_eq. eauto.
    + now rewrite lookup_insert_ne by congruence.
  - cbn. destruct (decide (u = u0)) as [->|Hne].
    + rewrite lookup_insert_eq. eauto.
    + now rewrite lookup_insert_ne by congruence.
Qed.

Lemma started_steps s s' u :
  is_Some (dependenciesScannedPromises s !! u) -> steps s s' ->
  is_Some (dependenciesScannedPromises s' !! u).
Proof.
  intros Hu Hsteps. induction Hsteps as [|s1 s2 s3 Hstep _ IH];
    [exact Hu|].
  apply IH. now apply (started_step s1).
Qed.

Lemma consistent_reachable s : reachable s -> consistent s.
Proof.
  induction 1 as [|s url _ IH|s s' _ IH Hstep].
  - apply consistent_fresh.
  - now apply consistent_called.
  - now apply (consistent_step s).
Qed.

(** ** The imports among the features, and the value of [error || ''] *)

Lemma orEmpty_falsy e : falsy e -> orEmpty e = JsString [].
Proof. now intros [->|[->| ->]]. Qed.

Lemma orEmpty_truthy e : ~ falsy e -> orEmpty e = e.
Proof.
  unfold falsy. intros Hnot.
  destruct e as [| |[|c str]| | | | |]; try reflexivity; tauto.
Qed.

Lemma importsOf_elem d url :
  ScannedImport url ∈ getNestedFeatures d -> url ∈ importsOf d.
Proof.
  intros Hin. unfold importsOf. apply list_elem_of_omap.
  now exists (ScannedImport url).
Qed.

Lemma importsOf_position d before url after :
  getNestedFeatures d = before ++ ScannedImport url :: after ->
  importsOf d !! importsAmong before = Some url.
Proof.
  intros Hfeatures. unfold importsOf. rewrite Hfeatures. clear Hfeatures.
  induction before as [|[url'|id] before IH]; cbn; [reflexivity|exact IH..].
Qed.

Lemma scanImports_pending u imports i s v :
  v ∈ map resolveUrl imports ->
  dependenciesScannedPromises s !! v = None ->
  dependenciesScannedPromises (scanImports u i imports s) !! v
  = Some AwaitingLocal.
Proof.
  intros Hin Hnone.
  destruct (scanImports_started u imports i s v Hin) as [p Hp].
  rewrite Hp.
  apply scanImports_new in Hp as [Hp|(_ & -> & _)]; [congruence|reflexivity].
Qed.

(** C1: in every state that calls of [scan] and the steps of the scans lead
    to from a fresh cache.  A promise of [scan] is rejected only with the
    error of the local scan of its own URL, so the failure of an import does
    not reach the importer.  When the local scan of a URL returns a
    document, the same run calls [scan] for every import among the nested
    features of the document and comes to wait for the graph with its own
    promise pending: a scan that it started is only pending then.  Every
    import of a document that was scanned locally has had [scan] called for
    it; when that scan was rejected, the reaction that sets the error field
    of the import is still to run, or the field is set to [error || '']:
    the error, or the empty string when the error is falsy.  The state is
    settled or can take a step, so no scan waits for ever on another; when
    the URLs that the imports lead to are finitely many, every step lowers
    the work that is left, and the scans can run on to a state where
    everything is settled.  In a settled state the promise of each URL whose
    local scan gave a document is fulfilled with that document, and for
    each import among its nested features whose local scan threw, the scan
    of the import is rejected and the error field of the import holds
    [error || '']. *)
Theorem scan_attaches_import_errors s :
  reachable s ->
  (forall u e,
      dependenciesScannedPromises s !! u = Some (Rejected e) ->
      localScan u = Throw e) /\
  (forall u d,
      dependenciesScannedPromises s !! u = Some AwaitingLocal ->
      localScan u = Return d ->
      step s (localScanned s u d) /\
      dependenciesScannedPromises (localScanned s u d) !! u
      = Some (AwaitingReady d) /\
      forall url,
        ScannedImport url ∈ getNestedFeatures d ->
        is_Some (dependenciesScannedPromises (localScanned s u d)
                 !! resolveUrl url) /\
        (dependenciesScannedPromises s !! resolveUrl url = None ->
         dependenciesScannedPromises (localScanned s u d) !! resolveUrl url
         = Some AwaitingLocal)) /\
  (forall u d before url after,
      scannedAs (dependenciesScannedPromises s !! u) d ->
      getNestedFeatures d = before ++ ScannedImport url :: after ->
      localScan u = Return d /\
      is_Some (dependenciesScannedPromises s !! resolveUrl url) /\
      forall e,
        dependenciesScannedPromises s !! resolveUrl url
        = Some (Rejected e) ->
        (resolveUrl url, (u, importsAmong before)) ∈ reactions s \/
        exists attached,
          importError s !! (u, importsAmong before) = Some attached /\
          (falsy e -> attached = JsString []) /\
          (~ falsy e -> attached = e)) /\
  (settled s \/ exists s', step s s') /\
  (forall universe,
      within universe s ->
      (forall u d url,
          u ∈ universe -> localScan u = Return d ->
          ScannedImport url ∈ getNestedFeatures d ->
          resolveUrl url ∈ universe) ->
      (forall s', step s s' -> workLeft universe s' < workLeft universe s) /\
      exists s', steps s s' /\ settled s') /\
  (settled s ->
   forall u d,
     is_Some (dependenciesScannedPromises s !! u) ->
     localScan u = Return d ->
     dependenciesScannedPromises s !! u = Some (Fulfilled d) /\
     forall before url after e,
       getNestedFeatures d = before ++ ScannedImport url :: after ->
       localScan (resolveUrl url) = Throw e ->
       dependenciesScannedPromises s !! resolveUrl url
       = Some (Rejected e) /\
       exists attached,
         importError s !! (u, importsAmong before) = Some attached /\
         (falsy e -> attached = JsString []) /\
         (~ falsy e -> attached = e)).
Proof.
  intros Hs%consistent_reachable.
  assert (forall e, exists attached,
            Some (orEmpty e) = Some attached /\
            (falsy e -> attached = JsString []) /\
            (~ falsy e -> attached = e)) as Hvalue.
  { intros e. exists (orEmpty e). split; [reflexivity|].
    split; [apply orEmpty_falsy|apply orEmpty_truthy]. }
  assert (forall u d before url after,
            scannedAs (dependenciesScannedPromises s !! u) d ->
            getNestedFeatures d = before ++ ScannedImport url :: after ->
            is_Some (dependenciesScannedPromises s !! resolveUrl url))
    as Hstarted.
  { intros u d before url after Hu Hfeatures.
    destruct (c_scanned s Hs u d Hu) as [_ Hg].
    apply (c_edges s Hs u _ _ Hg). apply list_elem_of_fmap.
    exists url. split; [reflexivity|]. apply importsOf_elem.
    rewrite Hfeatures. apply elem_of_app. right. apply elem_of_cons.
    now left. }
  split; [|split; [|split; [|split; [|split]]]].
  - intros u e Hu. now apply (c_rejected s Hs u e).
  - intros u d Hu Hd. split; [now apply step_local_ok|].
    split; [apply localScanned_self|].
    intros url Hurl%importsOf_elem.
    assert (resolveUrl url ∈ map resolveUrl (importsOf d)) as Hin.
    { apply list_elem_of_fmap. eauto. }
    split; [apply localScanned_started; now right|].
    intros Hnone. cbn.
    rewrite lookup_insert_ne by (intros Heq; rewrite <- Heq in Hnone;
                                 congruence).
    now apply scanImports_pending.
  - intros u d before url after Hu Hfeatures.
    destruct (c_scanned s Hs u d Hu) as [Hd _].
    split; [exact Hd|]. split; [now apply (Hstarted u d before url after)|].
    intros e He.
    apply importsOf_position in Hfeatures.
    destruct (c_errors s Hs u d _ url Hu Hfeatures)
      as [Hr|[[d' Hf]|(e' & Hr & Herr)]]; [now left|congruence|].
    right. rewrite Herr. assert (e' = e) as -> by congruence.
    apply Hvalue.
  - now apply progress.
  - intros universe Hin Hclosed.
    assert (closedUnderImports universe) as Hclosed'.
    { intros u d url Hu Hd Hurl. apply (Hclosed u d url Hu Hd).
      unfold importsOf in Hurl. apply list_elem_of_omap in Hurl
        as ([url'|id] & Hfeature & [= ->]). exact Hfeature. }
    split.
    + intros s' Hstep. now apply workLeft_step.
    + now apply (settles universe Hclosed' (workLeft universe s)).
  - intros [Hall HR] u d [p Hp] Hd.
    assert (p = Fulfilled d) as ->.
    { pose proof (Hall u p Hp) as Hsettled.
      destruct p as [| |d'|e]; try discriminate.
      - destruct (c_scanned s Hs u d') as [Hd' _]; [now right|]. congruence.
      - destruct (c_rejected s Hs u e Hp) as [He _]. congruence. }
    split; [exact Hp|].
    intros before url after e Hfeatures He.
    destruct (Hstarted u d before url after) as [p Hurl];
      [now right|exact Hfeatures|].
    assert (p = Rejected e) as ->.
    { pose proof (Hall _ p Hurl) as Hsettled.
      destruct p as [| |d'|e']; try discriminate.
      - destruct (c_scanned s Hs (resolveUrl url) d') as [Hd' _];
          [now right|]. congruence.
      - destruct (c_rejected s Hs _ e' Hurl) as [He' _]. congruence. }
    split; [exact Hurl|].
    apply importsOf_position in Hfeatures.
    destruct (c_errors s Hs u d (importsAmong before) url)
      as [Hr|[[d' Hf]|(e' & Hr & Herr)]];
      [now right|exact Hfeatures| | |].
    + rewrite HR in Hr. now apply elem_of_nil in Hr.
    + congruence.
    + rewrite Herr. assert (e' = e) as -> by congruence. apply Hvalue.
Qed.

End Scan.

(** *** A closed instance: a cycle and an import that cannot be loaded

    [a.html] imports [b.html] and [c.html], [b.html] imports [a.html], and
    [c.html] cannot be loaded. *)

Definition urlA : list N := js "a.html".
Definition urlB : list N := js "b.html".
Definition urlC : list N := js "c.html".

Definition docA : ScannedDocument :=
  {| sd_url := urlA;
     getNestedFeatures :=
       [ScannedImport urlB; OtherFeature 0; ScannedImport urlC] |}.
Definition docB : ScannedDocument :=
  {| sd_url := urlB; getNestedFeatures := [ScannedImport urlA] |}.
Definition cannotLoad : Thrown := Error (js "Can't load URL: c.html").

Definition cyclicWorld (u : list N) : Completion ScannedDocument :=
  if decide (u = urlA) then Return docA
  else if decide (u = urlB) then Return docB
  else Throw cannotLoad.

Definition cyclicUniverse : list (list N) := [urlA; urlB; urlC].

Lemma cyclicUniverse_closed :
  closedUnderImports (fun u => u) cyclicWorld cyclicUniverse.
Proof.
  intros u d url Hu Hd Hurl.
  apply list_elem_of_In in Hu. cbn in Hu.
  destruct Hu as [<-|[<-|[<-|[]]]]; vm_compute in Hd;
    try discriminate; injection Hd as <-;
    apply list_elem_of_In in Hurl; cbn in Hurl;
    apply list_elem_of_In; cbn; tauto.
Qed.

Definition afterLocalScan : State :=
  localScanned (fun u => u) (initial urlA) urlA docA.

(** The cycle where the load of [c.html] throws [error], and the state
    after these runs: the local scans of [a.html] and of [b.html], the
    failed local scan of [c.html], the ends of the two waits for the graph,
    and the three reactions. *)
Definition cycleThrowing (error : Thrown) (u : list N)
  : Completion ScannedDocument :=
  if decide (u = urlA) then Return docA
  else if decide (u = urlB) then Return docB
  else Throw error.

Definition cycleScanned (error : Thrown) : State :=
  localFailed (localScanned (fun u => u) afterLocalScan urlB docB)
    urlC error.

Definition cycleReadied (error : Thrown) : State :=
  readied (readied (cycleScanned error) urlA docA) urlB docB.

Definition settledCycle (error : Thrown) : State :=
  reacted
    (reacted
       (reacted (cycleReadied error)
          [(urlC, (urlA, 1)); (urlA, (urlB, 0))] (urlA, 0) None)
       [(urlA, (urlB, 0))] (urlA, 1) (Some error))
    [] (urlB, 0) None.

Lemma cycleScanned_reachable error :
  reachable (fun u => u) (cycleThrowing error) (cycleScanned error).
Proof.
  apply (reachable_step _ _
           (localScanned (fun u => u) afterLocalScan urlB docB)).
  - apply (reachable_step _ _ afterLocalScan).
    + apply (reachable_step _ _ (initial urlA)).
      * apply reachable_call, reachable_fresh.
      * apply step_local_ok; reflexivity.
    + apply step_local_ok; reflexivity.
  - apply step_local_fail; reflexivity.
Qed.

Lemma cycleReadied_reachable error :
  reachable (fun u => u) (cycleThrowing error) (cycleReadied error).
Proof.
  pose proof (cycleScanned_reachable error) as Hscanned.
  assert (reachable (fun u => u) (cycleThrowing error)
            (readied (cycleScanned error) urlA docA)) as HreadyA.
  { apply (reachable_step _ _ (cycleScanned error)); [exact Hscanned|].
    apply step_ready; [reflexivity|].
    apply (whenReady_resolves (fun u => u) (cycleThrowing error) _ _ docA);
      [now apply consistent_reachable| |reflexivity].
    apply map_Forall_to_list. vm_compute. repeat constructor. }
  apply (reachable_step _ _ (readied (cycleScanned error) urlA docA));
    [exact HreadyA|].
  apply step_ready; [reflexivity|].
  apply (whenReady_resolves (fun u => u) (cycleThrowing error) _ _ docB);
    [now apply consistent_reachable| |reflexivity].
  apply map_Forall_to_list. vm_compute. repeat constructor.
Qed.

Lemma settledCycle_reachable error :
  reachable (fun u => u) (cycleThrowing error) (settledCycle error).
Proof.
  eapply reachable_step.
  - eapply reachable_step.
    + eapply reachable_step; [apply cycleReadied_reachable|].
      apply (step_pass _ _ _ [] [(urlC, (urlA, 1)); (urlA, (urlB, 0))]
               urlB (urlA, 0) docB); reflexivity.
    + apply (step_catch _ _ _ [] [(urlA, (urlB, 0))] urlC (urlA, 1) error);
        reflexivity.
  - apply (step_pass _ _ _ [] [] urlA (urlB, 0) docA); reflexivity.
Qed.

Lemma settledCycle_settled error : settled (settledCycle error).
Proof.
  split; [|reflexivity].
  apply map_Forall_to_list. vm_compute. repeat constructor.
Qed.

Lemma scan_attaches_import_errors_witness :
  (reachable (fun u => u) cyclicWorld (initial urlA) /\
   step (fun u => u) cyclicWorld (initial urlA) afterLocalScan /\
   dependenciesScannedPromises afterLocalScan !! urlA
   = Some (AwaitingReady docA) /\
   dependenciesScannedPromises afterLocalScan !! urlB = Some AwaitingLocal /\
   dependenciesScannedPromises afterLocalScan !! urlC
   = Some AwaitingLocal) /\
  (reachable (fun u => u) cyclicWorld (settledCycle cannotLoad) /\
   settled (settledCycle cannotLoad) /\
   dependenciesScannedPromises (settledCycle cannotLoad) !! urlA
   = Some (Fulfilled docA) /\
   dependenciesScannedPromises (settledCycle cannotLoad) !! urlC
   = Some (Rejected cannotLoad) /\
   importError (settledCycle cannotLoad) !! (urlA, 1) = Some cannotLoad) /\
  (reachable (fun u => u) (cycleThrowing JsUndefined)
     (settledCycle JsUndefined) /\
   settled (settledCycle JsUndefined) /\
   dependenciesScannedPromises (settledCycle JsUndefined) !! urlA
   = Some (Fulfilled docA) /\
   dependenciesScannedPromises (settledCycle JsUndefined) !! urlC
   = Some (Rejected JsUndefined) /\
   importError (settledCycle JsUndefined) !! (urlA, 1)
   = Some (JsString [])).
Proof.
  split; [|split].
  - assert (reachable (fun u => u) cyclicWorld (initial urlA)) as Hreach
      by apply reachable_call, reachable_fresh.
    split; [exact Hreach|].
    destruct (scan_attaches_import_errors (fun u => u) cyclicWorld
                (initial urlA) Hreach) as (_ & Hlocal & _).
    destruct (Hlocal urlA docA eq_refl eq_refl) as (Hstep & HA & Himports).
    split; [exact Hstep|]. split; [exact HA|]. split.
    + apply (Himports urlB); [|reflexivity].
      apply list_elem_of_In. cbn. tauto.
    + apply (Himports urlC); [|reflexivity].
      apply list_elem_of_In. cbn. tauto.
  - pose proof (settledCycle_reachable cannotLoad) as Hreach.
    pose proof (settledCycle_settled cannotLoad) as Hsettled.
    split; [exact Hreach|]. split; [exact Hsettled|].
    destruct (scan_attaches_import_errors (fun u => u)
                (cycleThrowing cannotLoad) (settledCycle cannotLoad) Hreach)
      as (_ & _ & _ & _ & _ & Hdone).
    destruct (Hdone Hsettled urlA docA) as [HA Himports];
      [exists (Fulfilled docA); reflexivity|reflexivity|].
    split; [exact HA|].
    destruct (Himports [ScannedImport urlB; OtherFeature 0] urlC []
                cannotLoad eq_refl eq_refl)
      as (HC & attached & Hattached & _ & Htruthy).
    split; [exact HC|].
    assert (attached = cannotLoad) as ->; [|exact Hattached].
    apply Htruthy. intros [Hfalsy|[Hfalsy|Hfalsy]]; discriminate.
  - pose proof (settledCycle_reachable JsUndefined) as Hreach.
    pose proof (settledCycle_settled JsUndefined) as Hsettled.
    split; [exact Hreach|]. split; [exact Hsettled|].
    destruct (scan_attaches_import_errors (fun u => u)
                (cycleThrowing JsUndefined) (settledCycle JsUndefined)
                Hreach)
      as (_ & _ & _ & _ & _ & Hdone).
    destruct (Hdone Hsettled urlA docA) as [HA Himports];
      [exists (Fulfilled docA); reflexivity|reflexivity|].
    split; [exact HA|].
    destruct (Himports [ScannedImport urlB; OtherFeature 0] urlC []
                JsUndefined eq_refl eq_refl)
      as (HC & attached & Hattached & Hfalsy & _).
    split; [exact HC|].
    assert (attached = JsString []) as ->; [|exact Hattached].
    apply Hfalsy. now left.
Defined.

(** The scan of [a.html] settles: both documents of the cycle are returned
    by their scans, the scan of [c.html] is rejected, and the import of
    [c.html] in [a.html] carries the error. *)
Example scan_cycle_settles :
  exists s,
    steps (fun u => u) cyclicWorld (initial urlA) s /\ settled s /\
    dependenciesScannedPromises s !! urlA = Some (Fulfilled docA) /\
    dependenciesScannedPromises s !! urlB = Some (Fulfilled docB) /\
    dependenciesScannedPromises s !! urlC = Some (Rejected cannotLoad) /\
    importError s !! (urlA, 1) = Some cannotLoad.
Proof.
  pose proof (consistent_initial (fun u => u) cyclicWorld urlA) as Hs0.
  assert (within cyclicUniverse (initial urlA)) as Hin0
    by (apply within_initial, list_elem_of_In; cbn; tauto).
  destruct (settles (fun u => u) cyclicWorld cyclicUniverse
              cyclicUniverse_closed _ (initial urlA) (le_n _) Hs0 Hin0)
    as (s & Hsteps & Hdone).
  pose proof (consistent_steps _ _ _ _ Hs0 Hsteps) as Hs.
  exists s. split; [exact Hsteps|]. split; [exact Hdone|].
  destruct Hdone as [Hall HR].
  assert (forall u d,
            is_Some (dependenciesScannedPromises s !! u) ->
            cyclicWorld u = Return d ->
            dependenciesScannedPromises s !! u = Some (Fulfilled d))
    as Hfulfilled.
  { intros u d [p Hp] Hd. pose proof (Hall u p Hp) as Hsettled.
    destruct p as [| |d'|e]; try discriminate.
    - destruct (c_scanned _ _ s Hs u d') as [Hd' _]; [now right|]. congruence.
    - destruct (c_rejected _ _ s Hs u e Hp) as [He _]. congruence. }
  assert (dependenciesScannedPromises s !! urlA = Some (Fulfilled docA))
    as HA.
  { apply Hfulfilled; [|reflexivity].
    apply (started_steps (fun u => u) cyclicWorld (initial urlA));
      [|exact Hsteps].
    apply getOrCompute_key. }
  destruct (c_scanned _ _ s Hs urlA docA) as [_ HgA]; [now right|].
  assert (dependenciesScannedPromises s !! urlB = Some (Fulfilled docB))
    as HB.
  { apply Hfulfilled; [|reflexivity].
    apply (c_edges _ _ s Hs urlA _ _ HgA), list_elem_of_In. cbn. tauto. }
  assert (dependenciesScannedPromises s !! urlC = Some (Rejected cannotLoad))
    as HC.
  { destruct (c_edges _ _ s Hs urlA _ urlC HgA) as [p Hp];
      [apply list_elem_of_In; cbn; tauto|].
    pose proof (Hall urlC p Hp) as Hsettled.
    destruct p as [| |d|e]; try discriminate.
    - destruct (c_scanned _ _ s Hs urlC d) as [Hd _]; [now right|].
      discriminate.
    - destruct (c_rejected _ _ s Hs urlC e Hp) as [He _].
      injection He as <-. exact Hp. }
  repeat split; try assumption.
  destruct (c_errors _ _ s Hs urlA docA 1 urlC)
    as [Hr|[[d Hf]|(e & Hr & Herr)]]; [now right|reflexivity| | |].
  - rewrite HR in Hr. now apply elem_of_nil in Hr.
  - congruence.
  - rewrite HC in Hr. injection Hr as <-. exact Herr.
Qed.

End TransitiveScan.

(** * polymer/polymer-element.ts: more of the property model *)

Module PolymerProperties.
Import PolymerElement.

(** ** getBehaviors

    [document.getFeatures({kind: 'behavior', id, ...})] gives the set of the
    behaviors of that name, here the list of its members in iteration
    order. *)

Record BehaviorWarning := {
  bw_message : list N;
  bw_severity : Severity;
  bw_code : list N;
  bw_sourceRange : option SourceRange
}.

Section GetBehaviors.
Variable Behavior : Type.
Variable getFeatures : list N -> list Behavior.

Definition unknownBehavior (behavior : ScannedBehaviorAssignment)
  : BehaviorWarning :=
  {| bw_message :=
       js "Unable to resolve behavior `" ++ ba_name behavior
       ++ js "`. Did you import it? Is it annotated with @polymerBehavior?";
     bw_severity := ERROR;
     bw_code := js "unknown-polymer-behavior";
     bw_sourceRange := ba_sourceRange behavior |}.

Definition multipleBehaviors (behavior : ScannedBehaviorAssignment)
  : BehaviorWarning :=
  {| bw_message :=
       js "Found more than one behavior named " ++ ba_name behavior ++ js ".";
     bw_severity := WARNING;
     bw_code := js "multiple-polymer-behaviors";
     bw_sourceRange := ba_sourceRange behavior |}.

(** The loop of [getBehaviors], with the two arrays it fills. *)
Fixpoint getBehaviorsFrom (behaviorAssignments : list ScannedBehaviorAssignment)
    (warnings : list BehaviorWarning) (behaviors : list Behavior)
  : list BehaviorWarning * list Behavior :=
  match behaviorAssignments with
  | [] => (warnings, behaviors)
  | behavior :: rest =>
      let foundBehaviors := getFeatures (ba_name behavior) in
      match last foundBehaviors with
      | None =>
          getBehaviorsFrom rest (warnings ++ [unknownBehavior behavior])
                           behaviors
      | Some foundBehavior =>
          let warnings :=
            if (1 <? length foundBehaviors)%nat
            then warnings ++ [multipleBehaviors behavior]
            else warnings in
          getBehaviorsFrom rest warnings (behaviors ++ [foundBehavior])
      end
  end.

Definition getBehaviors (behaviorAssignments : list ScannedBehaviorAssignment)
  : list BehaviorWarning * list Behavior :=
  getBehaviorsFrom behaviorAssignments [] [].

Definition isUnknown (w : BehaviorWarning) : bool :=
  bool_decide (bw_code w = js "unknown-polymer-behavior").

Lemma getBehaviorsFrom_counts assignments : forall warnings behaviors,
  let result := getBehaviorsFrom assignments warnings behaviors in
  length (filter (fun w => isUnknown w = true) result.1) + length result.2
  = length (filter (fun w => isUnknown w = true) warnings)
    + length behaviors + length assignments
  /\ (result.1 = warnings <->
      Forall (fun a => length (getFeatures (ba_name a)) = 1) assignments)
  /\ result.2
     = behaviors ++ omap (fun a => last (getFeatures (ba_name a))) assignments
  /\ length warnings <= length result.1.
Proof.
  induction assignments as [|a rest IH]; intros warnings behaviors.
  - cbn. rewrite app_nil_r. repeat split; auto; lia.
  - cbn [getBehaviorsFrom omap].
    destruct (last (getFeatures (ba_name a))) as [found|] eqn:Hlast.
    + destruct (IH (if (1 <? length (getFeatures (ba_name a)))%nat
                    then warnings ++ [multipleBehaviors a] else warnings)
                   (behaviors ++ [found])) as (Hcount & Hnone & Hbeh & Hlen).
      cbn zeta in *. split; [|split; [|split]].
      * rewrite Hcount, length_app. cbn [length].
        destruct (1 <? _)%nat; [|lia].
        rewrite filter_app, length_app.
        rewrite filter_cons_False by (cbn; discriminate). cbn. lia.
      * destruct (1 <? length (getFeatures (ba_name a)))%nat eqn:Hmany.
        -- split.
           ++ intros Heq. rewrite Heq in Hlen. rewrite length_app in Hlen.
              cbn in Hlen. lia.
           ++ intros Hall%Forall_cons_1. destruct Hall as [Hone _].
              apply Nat.ltb_lt in Hmany. lia.
        -- rewrite Hnone. rewrite Forall_cons. apply Nat.ltb_ge in Hmany.
           assert (length (getFeatures (ba_name a)) <> 0)
             by (destruct (getFeatures (ba_name a)); [discriminate|cbn; lia]).
           intuition lia.
      * rewrite Hbeh. cbn. rewrite Hlast. now rewrite <- app_assoc.
      * destruct (1 <? _)%nat; [rewrite length_app in Hlen; cbn in Hlen|];
          lia.
    + destruct (IH (warnings ++ [unknownBehavior a]) behaviors)
        as (Hcount & Hnone & Hbeh & Hlen).
      cbn zeta in *. split; [|split; [|split]].
      * rewrite Hcount, filter_app, length_app.
        rewrite filter_cons_True by reflexivity. cbn. lia.
      * split.
        -- intros Heq. rewrite Heq, length_app in Hlen. cbn in Hlen. lia.
        -- intros Hall%Forall_cons_1. destruct Hall as [Hone _].
           destruct (getFeatures (ba_name a)); [discriminate|].
           now rewrite last_cons in Hlast; destruct (last l).
      * rewrite Hbeh. cbn. now rewrite Hlast.
      * rewrite length_app in Hlen. cbn in Hlen. lia.
Qed.

(** X1: Every behavior assignment is accounted for once, by the behavior
    found for it (the last of that name) or by an 'unknown-polymer-behavior'
    warning; and there is no warning at all exactly when every assignment
    names one behavior and no more. *)
Theorem getBehaviors_accounts behaviorAssignments :
  let result := getBehaviors behaviorAssignments in
  length (filter (fun w => isUnknown w = true) result.1) + length result.2
  = length behaviorAssignments
  /\ result.2
     = omap (fun a => last (getFeatures (ba_name a))) behaviorAssignments
  /\ (result.1 = [] <->
      Forall (fun a => length (getFeatures (ba_name a)) = 1)
             behaviorAssignments).
Proof.
  destruct (getBehaviorsFrom_counts behaviorAssignments [] [])
    as (Hcount & Hnone & Hbeh & _).
  cbn zeta in *. unfold getBehaviors. repeat split.
  - rewrite Hcount. cbn. lia.
  - exact Hbeh.
  - apply Hnone.
  - apply Hnone.
Qed.

End GetBehaviors.

(** ** Attribute names *)

(** Every attribute that says which event announces its changes names the
    event after itself, and an event of that name is among the events. *)
Definition announced (t : ScannedPolymerExtension) : Prop :=
  forall a n,
    a ∈ attributes t -> a_changeEvent a = Some n ->
    n = a_name a ++ js "-changed" /\
    exists e, e ∈ events t /\ e_name e = n.

Section AttributeNames.
Context `{JsRuntime}.

Lemma dashCase_lowercase p : Forall (fun c => isAZ c = false) (dashCase p).
Proof.
  induction p as [|c p IH]; [constructor|].
  rewrite dashCase_cons. destruct (isAZ c) eqn:Hc.
  - rewrite (toLowerCase_AZ _ Hc). cbn.
    constructor; [reflexivity|]. constructor; [|exact IH].
    apply isAZ_bounds in Hc. unfold isAZ.
    apply andb_false_iff. right. apply N.leb_gt. lia.
  - cbn. now constructor.
Qed.

Lemma dashCase_fixed p :
  Forall (fun c => isAZ c = false) p -> dashCase p = p.
Proof.
  induction 1 as [|c p Hc _ IH]; [reflexivity|].
  rewrite dashCase_cons, Hc, IH. reflexivity.
Qed.

Lemma propertyToAttributeName_dashCase p attributeName :
  propertyToAttributeName p = Return (Some attributeName) ->
  attributeName = dashCase p.
Proof.
  unfold propertyToAttributeName. destruct p as [|c p]; [discriminate|].
  destruct (decide _); [discriminate|]. now intros [= <-].
Qed.

(** X2: An attribute name has no letter A..Z. *)
Theorem attributeName_lowercase p attributeName :
  propertyToAttributeName p = Return (Some attributeName) ->
  Forall (fun c => isAZ c = false) attributeName.
Proof.
  intros ->%propertyToAttributeName_dashCase. apply dashCase_lowercase.
Qed.

(** X3: An attribute name is accepted as a property name, and is then its
    own attribute name. *)
Theorem attributeName_fixed p attributeName :
  propertyToAttributeName p = Return (Some attributeName) ->
  propertyToAttributeName attributeName = Return (Some attributeName).
Proof.
  intros Hp. pose proof (dashCase_lowercase p) as Hlower.
  unfold propertyToAttributeName in Hp. destruct p as [|c p]; [discriminate|].
  destruct (decide (toUpperCase [c] = [c])) as [|Hmoves]; [discriminate|].
  injection Hp as <-.
  assert (isAZ c = false) as Hc.
  { destruct (isAZ c) eqn:Hc; [|reflexivity]. exfalso. apply Hmoves.
    apply toUpperCase_fixed; [apply isAZ_bounds in Hc; lia|].
    now apply isaz_false_of_AZ. }
  rewrite dashCase_cons, Hc in *. cbn [app] in *.
  unfold propertyToAttributeName. rewrite decide_False by exact Hmoves.
  now rewrite (dashCase_fixed _ Hlower).
Qed.

(** X4: Two accepted property names in which no '-' stands before a letter
    a..z have the same attribute name only when they are equal. *)
Theorem attributeName_injective p q attributeName :
  propertyToAttributeName p = Return (Some attributeName) ->
  propertyToAttributeName q = Return (Some attributeName) ->
  dashBeforeLower p = false -> dashBeforeLower q = false ->
  p = q.
Proof.
  intros Hp%propertyToAttributeName_dashCase
         Hq%propertyToAttributeName_dashCase Hdp Hdq.
  rewrite <- (attributeToPropertyName_dashCase p Hdp).
  rewrite <- (attributeToPropertyName_dashCase q Hdq).
  now rewrite <- Hp, <- Hq.
Qed.

(** [addProperty] keeps the attributes announced, also when it throws. *)
Lemma addProperty_keeps_announced target prop :
  announced target -> announced (addProperty target prop).1.
Proof.
  intros Hann. unfold addProperty.
  destruct (propertyToAttributeName (p_name prop)) as [attr|e];
    [|exact Hann].
  destruct (nonpublic prop || falsyName attr
            || negb (truthy (p_published prop))); [exact Hann|].
  destruct (truthy (p_notify prop)) eqn:Hnotify; cbn [fst].
  - intros a n [Ha|Ha]%elem_of_app Hn.
    + destruct (Hann a n Ha Hn) as (Hname & e & He & Hevent).
      split; [exact Hname|].
      exists e. split; [|exact Hevent]. cbn. apply elem_of_app. now left.
    + apply list_elem_of_singleton in Ha as ->. cbn in Hn.
      rewrite Hnotify in Hn. injection Hn as <-.
      split; [reflexivity|].
      exists (changeEventFor prop (default [] attr)).
      split; [|reflexivity]. cbn. apply elem_of_app. right.
      now apply list_elem_of_singleton.
  - intros a n [Ha|Ha]%elem_of_app Hn.
    + exact (Hann a n Ha Hn).
    + apply list_elem_of_singleton in Ha as ->. cbn in Hn.
      now rewrite Hnotify in Hn.
Qed.

End AttributeNames.

Lemma attributeName_lowercase_witness :
  propertyToAttributeName (js "fooBar") = Return (Some (js "foo-bar")) /\
  Forall (fun c => isAZ c = false) (js "foo-bar").
Proof.
  split; [reflexivity|].
  apply (attributeName_lowercase (js "fooBar") (js "foo-bar")). reflexivity.
Defined.

Lemma attributeName_fixed_witness :
  propertyToAttributeName (js "fooBar") = Return (Some (js "foo-bar")) /\
  propertyToAttributeName (js "foo-bar") = Return (Some (js "foo-bar")).
Proof.
  split; [reflexivity|].
  apply (attributeName_fixed (js "fooBar") (js "foo-bar")). reflexivity.
Defined.

Lemma attributeName_injective_witness :
  (propertyToAttributeName (js "fooBar") = Return (Some (js "foo-bar")) /\
   dashBeforeLower (js "fooBar") = false) /\
  js "fooBar" = js "fooBar".
Proof.
  split; [split; reflexivity|].
  apply (attributeName_injective (js "fooBar") (js "fooBar") (js "foo-bar"));
    reflexivity.
Defined.

Lemma announced_empty : announced emptyExtension.
Proof. intros a n Ha. now apply elem_of_nil in Ha. Qed.

End PolymerProperties.

(** * More on the behavior scanner: [dedupe] in full, and what a merge can
      and cannot change *)

Module BehaviorProperties.
Import PolymerElement BehaviorScanner PolymerProperties.

Section Dedupe.
Context {T : Type} (keyFunc : T -> jsstring).

(** The array index of the key of [el], 0 when the key is none. *)
Definition indexOfKey (el : T) : N := default 0%N (arrayIndex (keyFunc el)).

Definition indexedKey (el : T) : bool :=
  bool_decide (is_Some (arrayIndex (keyFunc el))).

Definition entryOf (el : T) : list N * T := (keyFunc el, el).

Definition indexStep (acc : list (N * (list N * T))) (kv : list N * T)
  : list (N * (list N * T)) :=
  match arrayIndex kv.1 with
  | Some i => insertIndexed i kv acc
  | None => acc
  end.

Lemma bucket_fold_inherited array : forall bucket,
  fold_left (bucketStep keyFunc) array bucket =
  bucket ++ map entryOf
              (firstOccurrences keyFunc (objectPrototypeKeys ++ bucket.*1)
                 array).
Proof.
  induction array as [|el array IH]; intros bucket; cbn [fold_left].
  - cbn. now rewrite app_nil_r.
  - cbn [firstOccurrences]. unfold bucketStep at 2. unfold inObject.
    rewrite (ownKey_elem keyFunc).
    destruct (decide (keyFunc el ∈ objectPrototypeKeys ++ bucket.*1))
      as [Hin|Hout].
    + rewrite (bool_decide_eq_true_2 _ Hin).
      replace (_ || _) with true; [apply IH|].
      symmetry. apply orb_true_iff. apply elem_of_app in Hin as [Hin|Hin].
      * right. now apply bool_decide_eq_true.
      * left. now apply bool_decide_eq_true.
    + rewrite (bool_decide_eq_false_2 _ Hout).
      replace (_ || _) with false.
      * rewrite IH, fmap_app, <- (app_assoc bucket), (app_assoc objectPrototypeKeys). reflexivity.
      * symmetry. apply orb_false_iff.
        split; apply bool_decide_eq_false; intros Hin; apply Hout;
          apply elem_of_app; [now right|now left].
Qed.

Lemma firstOccurrences_keys array : forall seen,
  NoDup (map keyFunc (firstOccurrences keyFunc seen array)) /\
  forall el, el ∈ firstOccurrences keyFunc seen array -> keyFunc el ∉ seen.
Proof.
  induction array as [|x array IH]; intros seen; cbn.
  - split; [constructor|]. intros el Hin. now apply elem_of_nil in Hin.
  - destruct (decide (keyFunc x ∈ seen)) as [Hin|Hout].
    + rewrite (bool_decide_eq_true_2 _ Hin). apply IH.
    + rewrite (bool_decide_eq_false_2 _ Hout).
      destruct (IH (seen ++ [keyFunc x])) as [Hnodup Hseen]. split.
      * cbn. constructor; [|exact Hnodup].
        intros (el & Hkey & Hel)%list_elem_of_fmap.
        apply (Hseen el Hel). rewrite <- Hkey. apply elem_of_app. right.
        now apply list_elem_of_singleton.
      * intros el [->|Hel]%elem_of_cons; [exact Hout|].
        intros Hin. apply (Hseen el Hel). apply elem_of_app. now left.
Qed.

Lemma firstOccurrences_all array : forall seen,
  NoDup (map keyFunc array) ->
  (forall el, el ∈ array -> keyFunc el ∉ seen) ->
  firstOccurrences keyFunc seen array = array.
Proof.
  induction array as [|x array IH]; intros seen Hnodup Hseen; cbn;
    [reflexivity|].
  cbn in Hnodup. apply NoDup_cons in Hnodup as [Hx Hnodup].
  rewrite bool_decide_eq_false_2 by (apply Hseen, elem_of_cons; now left).
  f_equal. apply IH; [exact Hnodup|].
  intros el Hel [Hin|Hin]%elem_of_app.
  - apply (Hseen el); [apply elem_of_cons; now right|exact Hin].
  - apply list_elem_of_singleton in Hin. apply Hx. rewrite <- Hin.
    apply list_elem_of_fmap. now exists el.
Qed.

Definition ascending (acc : list (N * (list N * T))) : Prop :=
  StronglySorted (fun a b => (a.1 <= b.1)%N) acc.

Lemma insertIndexed_perm i kv (acc : list (N * (list N * T))) :
  insertIndexed i kv acc ≡ₚ (i, kv) :: acc.
Proof.
  induction acc as [|[j kv'] acc IH]; cbn; [reflexivity|].
  destruct (i <? j)%N; [reflexivity|].
  rewrite IH. apply Permutation_swap.
Qed.

Lemma insertIndexed_ascending i kv (acc : list (N * (list N * T))) :
  ascending acc -> ascending (insertIndexed i kv acc).
Proof.
  unfold ascending. induction 1 as [|[j kv'] acc Hsorted IH Hall]; cbn.
  - repeat constructor.
  - destruct (i <? j)%N eqn:Hij.
    + constructor; [now constructor|].
      apply N.ltb_lt in Hij. constructor; [cbn; lia|].
      eapply Forall_impl; [exact Hall|]. cbn. intros; lia.
    + constructor; [exact IH|].
      rewrite insertIndexed_perm. constructor; [|exact Hall].
      apply N.ltb_ge in Hij. exact Hij.
Qed.

Lemma insertIndexed_last i kv (acc : list (N * (list N * T))) :
  Forall (fun a => (a.1 <= i)%N) acc ->
  insertIndexed i kv acc = acc ++ [(i, kv)].
Proof.
  induction 1 as [|[j kv'] acc Hj _ IH]; cbn; [reflexivity|].
  cbn in Hj. rewrite (proj2 (N.ltb_ge i j)) by exact Hj. now rewrite IH.
Qed.

(** The entries that [Object.keys] lists first. *)
Lemma indexStep_fold bucket : forall acc,
  ascending acc ->
  Forall (fun a => arrayIndex a.2.1 = Some a.1) acc ->
  let entries := fold_left indexStep bucket acc in
  ascending entries /\
  Forall (fun a => arrayIndex a.2.1 = Some a.1) entries /\
  map snd entries
  ≡ₚ map snd acc
     ++ filter (fun kv => is_Some (arrayIndex kv.1)) bucket.
Proof.
  induction bucket as [|kv bucket IH]; intros acc Hsorted Htagged; cbn.
  - repeat split; try assumption. now rewrite app_nil_r.
  - unfold indexStep at 2 4 6.
    destruct (arrayIndex kv.1) as [i|] eqn:Hindex.
    + destruct (IH (insertIndexed i kv acc)) as (Hs & Ht & Hp).
      * now apply insertIndexed_ascending.
      * rewrite insertIndexed_perm. now constructor.
      * repeat split; try assumption. cbn zeta in Hp. rewrite Hp.
        rewrite insertIndexed_perm. cbn.
        rewrite decide_True by eauto.
        now rewrite Permutation_middle.
    + destruct (IH acc Hsorted Htagged) as (Hs & Ht & Hp).
      repeat split; assumption.
Qed.

Lemma filter_entries (P : list N * T -> Prop) `{forall kv, Decision (P kv)}
    (array : list T) :
  map snd (filter P (map entryOf array))
  = filter (fun el => P (entryOf el)) array.
Proof.
  induction array as [|el array IH]; [reflexivity|].
  cbn [map]. rewrite !filter_cons. destruct (decide (P (entryOf el))).
  - cbn. now rewrite IH.
  - exact IH.
Qed.

Lemma ascending_elements (entries : list (N * (list N * T))) :
  ascending entries ->
  Forall (fun a => indexOfKey a.2.2 = a.1) entries ->
  StronglySorted (fun a b => (indexOfKey a <= indexOfKey b)%N)
                 (map snd (map snd entries)).
Proof.
  induction 1 as [|a entries _ IH Hall]; intros Hindex; cbn; [constructor|].
  apply Forall_cons_1 in Hindex as [Ha Hindex].
  constructor; [now apply IH|].
  rewrite map_map. apply Forall_map.
  apply Forall_forall. intros b Hb. cbn.
  rewrite Forall_forall in Hall, Hindex.
  rewrite Ha, (Hindex b Hb). now apply Hall.
Qed.

(** The shape of the result of [dedupe]: the first elements per key that
    [Object.keys] lists as array indices, ascending, and after them the
    other first elements in the order of the array. *)
Lemma dedupe_entries array :
  let kept := firstOccurrences keyFunc objectPrototypeKeys array in
  exists indexed,
    dedupe array keyFunc
    = indexed ++ filter (fun el => arrayIndex (keyFunc el) = None) kept /\
    indexed ≡ₚ filter (fun el => is_Some (arrayIndex (keyFunc el))) kept /\
    StronglySorted (fun a b => (indexOfKey a <= indexOfKey b)%N) indexed.
Proof.
  intros kept. unfold dedupe.
  change (fold_left _ array []) with (fold_left (bucketStep keyFunc) array []).
  rewrite bucket_fold_inherited. cbn [app fmap list_fmap].
  rewrite app_nil_r. fold kept.
  unfold objectEntries, indexedEntries.
  change (fold_left _ (map entryOf kept) [])
    with (fold_left indexStep (map entryOf kept) []).
  destruct (indexStep_fold (map entryOf kept) []) as (Hsorted & Htagged & Hperm);
    [constructor|constructor|].
  cbn zeta in Hperm. cbn [map app] in Hperm.
  exists (map snd (map snd (fold_left indexStep (map entryOf kept) []))).
  split; [|split].
  - rewrite map_app. f_equal.
    exact (filter_entries (fun kv => arrayIndex kv.1 = None) kept).
  - rewrite Hperm.
    now rewrite (filter_entries (fun kv => is_Some (arrayIndex kv.1)) kept).
  - apply ascending_elements; [exact Hsorted|].
    apply Forall_forall. intros a Ha.
    assert (a.2 ∈ map entryOf kept) as Hentry.
    { assert (a.2 ∈ map snd (fold_left indexStep (map entryOf kept) []))
        as Hin by (apply list_elem_of_fmap; now exists a).
      rewrite Hperm in Hin. now apply list_elem_of_filter in Hin as [_ Hin]. }
    apply list_elem_of_fmap in Hentry as (el & Hel & _).
    rewrite Forall_forall in Htagged. specialize (Htagged a Ha).
    unfold indexOfKey. rewrite Hel in Htagged |- *. cbn in *.
    now rewrite Htagged.
Qed.

Lemma dedupe_kept array :
  dedupe array keyFunc ≡ₚ firstOccurrences keyFunc objectPrototypeKeys array.
Proof.
  destruct (dedupe_entries array) as (indexed & Heq & Hperm & _).
  cbn zeta in *. rewrite Heq, Hperm. clear.
  induction (firstOccurrences keyFunc objectPrototypeKeys array)
    as [|el kept IH]; [reflexivity|].
  rewrite !filter_cons.
  destruct (arrayIndex (keyFunc el)) as [i|] eqn:Hi.
  - rewrite decide_True by eauto. rewrite decide_False by discriminate.
    cbn. now rewrite IH.
  - rewrite decide_False by apply is_Some_None.
    rewrite decide_True by reflexivity.
    now rewrite <- Permutation_middle, IH.
Qed.

Lemma indexStep_sorted indexed : forall acc,
  StronglySorted (fun a b => (indexOfKey a <= indexOfKey b)%N) indexed ->
  Forall (fun el => is_Some (arrayIndex (keyFunc el))) indexed ->
  Forall (fun a => Forall (fun el => (a.1 <= indexOfKey el)%N) indexed) acc ->
  fold_left indexStep (map entryOf indexed) acc
  = acc ++ map (fun el => (indexOfKey el, entryOf el)) indexed.
Proof.
  induction indexed as [|el indexed IH]; intros acc Hsorted Hsome Hacc; cbn.
  - now rewrite app_nil_r.
  - apply StronglySorted_inv in Hsorted as [Hsorted Hel].
    apply Forall_cons_1 in Hsome as [[i Hi] Hsome].
    assert (indexOfKey el = i) as Hidx by (unfold indexOfKey; now rewrite Hi).
    unfold indexStep at 2. cbn [fst entryOf]. rewrite Hi.
    rewrite insertIndexed_last.
    + rewrite IH, <- app_assoc; [now rewrite Hidx|exact Hsorted|exact Hsome|].
      apply Forall_app. split.
      * eapply Forall_impl; [exact Hacc|]. cbn. intros a Ha.
        now apply Forall_cons_1 in Ha as [_ Ha].
      * constructor; [|constructor]. cbn. now rewrite <- Hidx.
    + eapply Forall_impl; [exact Hacc|]. cbn. intros a Ha.
      apply Forall_cons_1 in Ha as [Ha _]. now rewrite <- Hidx.
Qed.

Lemma indexStep_skip named : forall acc,
  Forall (fun el => arrayIndex (keyFunc el) = None) named ->
  fold_left indexStep (map entryOf named) acc = acc.
Proof.
  induction named as [|el named IH]; intros acc Hnone; cbn; [reflexivity|].
  apply Forall_cons_1 in Hnone as [Hel Hnone].
  unfold indexStep at 2. cbn [fst entryOf]. rewrite Hel. now apply IH.
Qed.

(** X5: [dedupe] keeps one element per key, the first of the array, leaves
    out those whose key a plain object inherits, and returns no element
    twice. *)
Theorem dedupe_first_per_key array :
  dedupe array keyFunc
  ≡ₚ firstOccurrences keyFunc objectPrototypeKeys array /\
  NoDup (map keyFunc (dedupe array keyFunc)) /\
  forall el, el ∈ dedupe array keyFunc ->
             el ∈ array /\ keyFunc el ∉ objectPrototypeKeys.
Proof.
  pose proof (dedupe_kept array) as Hkept.
  destruct (firstOccurrences_keys array objectPrototypeKeys) as [Hnodup Hseen].
  split; [exact Hkept|split].
  - now rewrite Hkept.
  - intros el Hel. rewrite Hkept in Hel. split; [|now apply Hseen].
    now apply (firstOccurrences_subset keyFunc) in Hel.
Qed.

(** X6: The order of the result of [dedupe]: first the elements whose keys
    are array indices, by ascending index, then the others in the order in
    which the array has them. *)
Theorem dedupe_order array :
  exists indexed named,
    dedupe array keyFunc = indexed ++ named /\
    StronglySorted (fun a b => (indexOfKey a <= indexOfKey b)%N) indexed /\
    Forall (fun el => is_Some (arrayIndex (keyFunc el))) indexed /\
    named
    = filter (fun el => arrayIndex (keyFunc el) = None)
        (firstOccurrences keyFunc objectPrototypeKeys array).
Proof.
  destruct (dedupe_entries array) as (indexed & Heq & Hperm & Hsorted).
  cbn zeta in *.
  exists indexed,
    (filter (fun el => arrayIndex (keyFunc el) = None)
       (firstOccurrences keyFunc objectPrototypeKeys array)).
  repeat split; try assumption.
  apply Forall_forall. intros el Hel. rewrite Hperm in Hel.
  now apply list_elem_of_filter in Hel as [Hel _].
Qed.

(** X7: Deduplicating a second time changes nothing. *)
Theorem dedupe_idempotent array :
  dedupe (dedupe array keyFunc) keyFunc = dedupe array keyFunc.
Proof.
  pose proof (dedupe_kept array) as Hkept.
  destruct (firstOccurrences_keys array objectPrototypeKeys) as [Hnodup Hseen].
  rewrite <- Hkept in Hnodup.
  assert (forall el, el ∈ dedupe array keyFunc ->
                     keyFunc el ∉ objectPrototypeKeys) as Hproto
    by (intros el Hel; rewrite Hkept in Hel; now apply Hseen).
  destruct (dedupe_entries array) as (indexed & Heq & Hperm & Hsorted).
  cbn zeta in *.
  set (kept := firstOccurrences keyFunc objectPrototypeKeys array) in *.
  set (named := filter (fun el => arrayIndex (keyFunc el) = None) kept) in *.
  rewrite Heq in *. unfold dedupe.
  change (fold_left _ (indexed ++ named) [])
    with (fold_left (bucketStep keyFunc) (indexed ++ named) []).
  rewrite bucket_fold_inherited. cbn [app fmap list_fmap].
  rewrite app_nil_r, (firstOccurrences_all _ _ Hnodup Hproto).
  unfold objectEntries, indexedEntries.
  change (fold_left _ (map entryOf (indexed ++ named)) [])
    with (fold_left indexStep (map entryOf (indexed ++ named)) []).
  assert (Forall (fun el => is_Some (arrayIndex (keyFunc el))) indexed)
    as Hindexed.
  { apply Forall_forall. intros el Hel. rewrite Hperm in Hel.
    now apply list_elem_of_filter in Hel as [Hel _]. }
  assert (Forall (fun el => arrayIndex (keyFunc el) = None) named) as Hnamed.
  { apply Forall_forall. intros el Hel.
    now apply list_elem_of_filter in Hel as [Hel _]. }
  rewrite (map_app entryOf), fold_left_app.
  rewrite (indexStep_sorted indexed [] Hsorted Hindexed) by constructor.
  rewrite (indexStep_skip named _ Hnamed). cbn [app].
  rewrite filter_app, !map_app, !map_map. cbn [snd].
  rewrite map_id.
  rewrite (filter_entries (fun kv => arrayIndex kv.1 = None) indexed).
  rewrite (filter_entries (fun kv => arrayIndex kv.1 = None) named).
  f_equal. change named with ([] ++ named) at 2. f_equal.
  - clear -Hindexed. induction Hindexed as [|el indexed [i Hi] _ IH];
      [reflexivity|].
    rewrite filter_cons_False; [exact IH|]. cbn. now rewrite Hi.
  - clear -Hnamed. induction Hnamed as [|el named Hel _ IH]; [reflexivity|].
    rewrite filter_cons_True by exact Hel. now rewrite IH.
Qed.

End Dedupe.

(** ** Merging *)

Section Merge.
Context `{JsRuntime}.

Lemma isPrefix_app needle : forall hay,
  isPrefix needle hay = true <-> exists post, hay = needle ++ post.
Proof.
  induction needle as [|a needle IH]; intros hay; cbn.
  - split; [intros _; now exists hay|reflexivity].
  - destruct hay as [|b hay].
    + split; [discriminate|]. now intros [post [=]].
    + rewrite andb_true_iff, N.eqb_eq, IH. split.
      * intros [-> [post ->]]. now exists post.
      * intros [post [= -> ->]]. split; [reflexivity|now exists post].
Qed.

(** [hay.indexOf(needle) !== -1] holds exactly of the strings that have
    [needle] as a substring. *)
Lemma occursIn_substring needle : forall hay,
  occursIn needle hay = true <-> exists pre post, hay = pre ++ needle ++ post.
Proof.
  induction hay as [|c hay IH].
  - cbn [occursIn]. rewrite orb_false_r, isPrefix_app. split.
    + intros [post ->]. now exists [], post.
    + intros (pre & post & Heq). destruct pre; [now exists post|discriminate].
  - cbn [occursIn]. rewrite orb_true_iff, isPrefix_app, IH. split.
    + intros [[post ->]|(pre & post & ->)].
      * now exists [], post.
      * now exists (c :: pre), post.
    + intros (pre & post & Heq). destruct pre as [|c' pre].
      * left. now exists post.
      * right. injection Heq as -> ->. now exists pre, post.
Qed.

Lemma changed_not_inherited attributeName :
  attributeName ++ js "-changed" ∉ objectPrototypeKeys.
Proof.
  intros Hin.
  assert (last (attributeName ++ js "-changed") = Some 100%N) as Hlast.
  { change (js "-changed") with (js "-change" ++ [100%N]).
    now rewrite app_assoc, last_snoc. }
  unfold objectPrototypeKeys in Hin.
  repeat (apply elem_of_cons in Hin as [Heq|Hin];
          [rewrite Heq in Hlast; discriminate|]).
  now apply elem_of_nil in Hin.
Qed.

Lemma firstOccurrences_covers {T} (keyFunc : T -> jsstring) array el :
  forall seen,
    el ∈ array -> keyFunc el ∉ seen ->
    exists el', el' ∈ firstOccurrences keyFunc seen array
                /\ keyFunc el' = keyFunc el.
Proof.
  induction array as [|x array IH]; intros seen Hel Hseen.
  - now apply elem_of_nil in Hel.
  - cbn. destruct (decide (keyFunc x ∈ seen)) as [Hin|Hout].
    + rewrite (bool_decide_eq_true_2 _ Hin).
      apply elem_of_cons in Hel as [->|Hel]; [contradiction|]. now apply IH.
    + rewrite (bool_decide_eq_false_2 _ Hout).
      destruct (decide (keyFunc x = keyFunc el)) as [Heq|Hne].
      * exists x. split; [apply elem_of_cons; now left|exact Heq].
      * apply elem_of_cons in Hel as [->|Hel]; [contradiction|].
        destruct (IH (seen ++ [keyFunc x]) Hel) as (el' & Hel' & Hkey).
        { intros [Hin|Hin]%elem_of_app; [contradiction|].
          apply list_elem_of_singleton in Hin. congruence. }
        exists el'. split; [apply elem_of_cons; now right|exact Hkey].
Qed.

Lemma dedupe_covers {T} (keyFunc : T -> jsstring) array el :
  el ∈ array -> keyFunc el ∉ objectPrototypeKeys ->
  exists el', el' ∈ dedupe array keyFunc /\ keyFunc el' = keyFunc el.
Proof.
  intros Hel Hproto.
  destruct (firstOccurrences_covers keyFunc array el _ Hel Hproto)
    as (el' & Hel' & Hkey).
  exists el'. split; [|exact Hkey]. now rewrite dedupe_kept.
Qed.

Lemma addProperties_keeps_announced props : forall target,
  announced target -> announced (addProperties target props).1.
Proof.
  induction props as [|prop props IH]; intros target Hann; cbn; [exact Hann|].
  pose proof (addProperty_keeps_announced target prop Hann) as Hone.
  destruct (addProperty target prop) as [t1 [[]|e]]; cbn in *.
  - now apply IH.
  - exact Hone.
Qed.

Lemma mergeInto_keeps_announced behavior newBehavior :
  announced behavior -> announced (mergeInto behavior newBehavior).1.
Proof.
  intros Hann. unfold mergeInto.
  set (merged := set_events _ (dedupe _ e_name)).
  assert (announced merged) as Hmerged.
  { intros a n Ha Hn. subst merged. cbn in Ha |- *.
    assert (a ∈ attributes behavior) as Ha'.
    { revert Ha. unfold mergeDescription.
      destruct (description newBehavior); [easy|].
      destruct (description behavior); [easy|]. now destruct (_ <? _)%nat. }
    destruct (Hann a n Ha' Hn) as (Hname & e & He & Hevent).
    split; [exact Hname|].
    destruct (mergeDescription_fields behavior newBehavior)
      as (_ & _ & -> & _).
    destruct (dedupe_covers e_name (events behavior ++ events newBehavior) e)
      as (e' & He' & Hkey).
    - apply elem_of_app. now left.
    - rewrite Hevent, Hname. apply changed_not_inherited.
    - exists e'. split; [exact He'|congruence]. }
  pose proof (addProperties_keeps_announced (properties newBehavior)
                merged Hmerged) as Hadded.
  destruct (addProperties merged (properties newBehavior)) as [b1 [[]|e]];
    exact Hadded.
Qed.

(** What a call of [mergeBehaviorFrom] does to the set, whatever the outcome
    of the merge. *)
Lemma mergeBehaviorFrom_shape newBehavior behaviors : forall index visited,
  (Forall (fun b => className newBehavior <> className b) behaviors /\
   mergeBehaviorFrom index visited behaviors newBehavior
   = (visited ++ behaviors, Return (Unmerged newBehavior)))
  \/
  exists before behavior after,
    behaviors = before ++ behavior :: after /\
    Forall (fun b => className newBehavior <> className b) before /\
    className newBehavior = className behavior /\
    mergeBehaviorFrom index visited behaviors newBehavior
    = (visited ++ before ++ (mergeInto behavior newBehavior).1 :: after,
       match (mergeInto behavior newBehavior).2 with
       | Return _ =>
           Return (Existing (index + length before)
                            (mergeInto behavior newBehavior).1)
       | Throw e => Throw e
       end).
Proof.
  induction behaviors as [|b behaviors IH]; intros index visited.
  - left. split; [constructor|]. cbn. now rewrite app_nil_r.
  - cbn [mergeBehaviorFrom].
    destruct (decide (className newBehavior <> className b)) as [Hne|Heq].
    + destruct (IH (S index) (visited ++ [b]))
        as [[Hall Hrun]|(before & behavior & after & -> & Hall & Hname & Hrun)].
      * left. split; [now constructor|].
        rewrite Hrun, <- app_assoc. reflexivity.
      * right. exists (b :: before), behavior, after.
        repeat split; [now constructor|exact Hname|].
        rewrite Hrun, <- app_assoc. cbn [app length].
        now rewrite Nat.add_succ_r.
    + right. exists [], b, behaviors.
      assert (className newBehavior = className b) as Hname
        by (destruct (decide (className newBehavior = className b));
            [assumption|contradiction]).
      repeat split; [constructor|exact Hname|].
      cbn [app length]. rewrite Nat.add_0_r.
      now destruct (mergeInto b newBehavior) as [b' [[]|e]].
Qed.

Lemma mergeInto_className behavior newBehavior :
  className (mergeInto behavior newBehavior).1 = className behavior.
Proof.
  unfold mergeInto.
  set (merged := set_events _ (dedupe _ e_name)).
  assert (className merged = className behavior) as Hmerged
    by (subst merged; cbn; apply mergeDescription_fields).
  assert (forall props target,
            className (addProperties target props).1 = className target)
    as Hadd.
  { induction props as [|prop props IH]; intros target; cbn; [reflexivity|].
    pose proof (addProperty_fields target prop) as [Hone _].
    destruct (addProperty target prop) as [t1 [[]|e]]; cbn in *.
    - now rewrite IH.
    - exact Hone. }
  specialize (Hadd (properties newBehavior) merged).
  destruct (addProperties merged (properties newBehavior)) as [b1 [[]|e]];
    cbn in *; congruence.
Qed.

(** X8: [mergeBehavior] never adds the new behavior to the set and never
    removes or reorders a member: the class names of the set stay as they
    are, a member of another class name stays as it is, the new behavior
    comes back unmerged only when no member has its class name, and a member
    comes back only when it is the first of that class name. *)
Theorem mergeBehavior_set behaviors newBehavior :
  let result := mergeBehavior behaviors newBehavior in
  map className result.1 = map className behaviors /\
  (forall i b, behaviors !! i = Some b ->
               className b <> className newBehavior ->
               result.1 !! i = Some b) /\
  (forall unmerged,
     result.2 = Return (Unmerged unmerged) ->
     unmerged = newBehavior /\ result.1 = behaviors /\
     Forall (fun b => className b <> className newBehavior) behaviors) /\
  (forall i behavior,
     result.2 = Return (Existing i behavior) ->
     result.1 !! i = Some behavior /\
     className behavior = className newBehavior /\
     forall j b, (j < i)%nat -> behaviors !! j = Some b ->
                 className b <> className newBehavior).
Proof.
  unfold mergeBehavior.
  destruct (mergeBehaviorFrom_shape newBehavior behaviors 0 [])
    as [[Hall ->]|(before & behavior & after & -> & Hall & Hname & ->)];
    cbn [fst snd app].
  - split; [reflexivity|]. split; [now intros i b Hb _|]. split.
    + intros unmerged [= <-]. repeat split.
      eapply Forall_impl; [exact Hall|]. cbn. congruence.
    + discriminate.
  - set (merged := (mergeInto behavior newBehavior).1).
    assert (className merged = className behavior) as Hmerged
      by apply mergeInto_className.
    split; [|split; [|split]].
    + rewrite !map_app. cbn. now rewrite Hmerged.
    + intros i b Hb Hne.
      destruct (decide (i = length before)) as [->|Hi].
      * rewrite list_lookup_middle in Hb by reflexivity.
        injection Hb as <-. congruence.
      * destruct (decide (i < length before)%nat).
        -- rewrite lookup_app_l in Hb |- * by assumption. exact Hb.
        -- rewrite lookup_app_r in Hb |- * by lia.
           destruct (i - length before)%nat as [|k] eqn:Hk; [lia|].
           exact Hb.
    + intros unmerged Hres.
      destruct (mergeInto behavior newBehavior).2; discriminate.
    + intros i b' Hres.
      destruct (mergeInto behavior newBehavior).2 as [[]|e]; [|discriminate].
      injection Hres as <- <-. split; [|split].
      * now apply list_lookup_middle.
      * congruence.
      * intros j b Hj Hb Heq. cbn in Hj.
        rewrite lookup_app_l in Hb by exact Hj.
        rewrite Forall_forall in Hall.
        apply (Hall b); [now apply list_elem_of_lookup_2 in Hb|congruence].
Qed.

(** X9: A merge keeps every behavior of the set announced, whatever the new
    behavior is and also when the merge throws: [dedupe] drops no event that
    an attribute names, and every attribute that [addProperty] adds for a
    notifying property comes with its event. *)
Theorem mergeBehavior_announced behaviors newBehavior :
  Forall announced behaviors ->
  Forall announced (mergeBehavior behaviors newBehavior).1.
Proof.
  intros Hall. unfold mergeBehavior.
  destruct (mergeBehaviorFrom_shape newBehavior behaviors 0 [])
    as [[_ ->]|(before & behavior & after & -> & _ & _ & ->)];
    cbn [fst app]; [exact Hall|].
  apply Forall_app in Hall as [Hbefore Hrest].
  apply Forall_cons_1 in Hrest as [Hbehavior Hafter].
  apply Forall_app. split; [exact Hbefore|].
  constructor; [|exact Hafter]. now apply mergeInto_keeps_announced.
Qed.

(** X10: After a merge the behavior that took the new one in is assigned the
    behaviors that either of the two was assigned, except those whose name
    has the class name as a substring. *)
Theorem mergeBehavior_no_self_reference behaviors newBehavior
    behaviors' i merged :
  mergeBehavior behaviors newBehavior
  = (behaviors', Return (Existing i merged)) ->
  exists behavior,
    behaviors !! i = Some behavior /\
    forall a,
      a ∈ behaviorAssignments merged <->
      (a ∈ behaviorAssignments behavior
       \/ a ∈ behaviorAssignments newBehavior) /\
      forall pre post,
        ba_name a
        <> pre ++ toStringOrUndefined (className newBehavior) ++ post.
Proof.
  unfold mergeBehavior.
  destruct (mergeBehaviorFrom_shape newBehavior behaviors 0 [])
    as [[_ ->]|(before & behavior & after & -> & _ & _ & ->)];
    [discriminate|].
  destruct (mergeInto behavior newBehavior) as [b' [[]|e]] eqn:Hmerge;
    cbn [fst snd]; [|discriminate].
  intros [= <- <- <-]. exists behavior.
  split; [now apply list_lookup_middle|].
  apply mergeInto_merges in Hmerge as (_ & _ & _ & _ & _ & _ & ->).
  intros a. rewrite list_elem_of_filter, elem_of_app.
  rewrite <- not_true_iff_false, occursIn_substring. split.
  - intros [Hnot Hin]. split; [exact Hin|].
    intros pre post Heq. apply Hnot. now exists pre, post.
  - intros [Hin Hnot]. split; [|exact Hin].
    intros (pre & post & Heq). now apply (Hnot pre post).
Qed.

End Merge.

(** *** Closed instances *)

Lemma announced_no_attributes t : attributes t = [] -> announced t.
Proof. intros Hnone a n Ha. rewrite Hnone in Ha. now apply elem_of_nil in Ha. Qed.

Definition assigned (name : jsstring)
    (properties : list ScannedPolymerProperty)
    (names : list (list N)) : ScannedBehavior :=
  {| className := Some name; description := []; demos := []; events := [];
     properties := properties; attributes := []; observers := [];
     behaviorAssignments :=
       map (fun n => {| ba_name := n; ba_sourceRange := None |}) names |}.

Lemma mergeBehavior_announced_witness :
  Forall announced [behaviorWith (js "B") [] [eventNamed (js "toString")]] /\
  Forall announced
    (mergeBehavior
       [behaviorWith (js "B") [] [eventNamed (js "toString")]]
       (assigned (js "B") [publishedProperty (js "fooBar") None] [])).1.
Proof.
  assert (Forall announced
            [behaviorWith (js "B") [] [eventNamed (js "toString")]]) as Hall
    by (constructor; [now apply announced_no_attributes|constructor]).
  split; [exact Hall|].
  exact (mergeBehavior_announced _ _ Hall).
Defined.

Lemma mergeBehavior_no_self_reference_witness :
  exists behavior,
    [assigned (js "My.B") [] [js "My.BImpl"; js "Other"]] !! 0%nat
    = Some behavior /\
    forall a,
      a ∈ behaviorAssignments
            (assigned (js "My.B") [] [js "Other"; js "Third"]) <->
      (a ∈ behaviorAssignments behavior
       \/ a ∈ behaviorAssignments
               (assigned (js "My.B") [] [js "Third"; js "x.My.B"])) /\
      forall pre post,
        ba_name a
        <> pre ++ toStringOrUndefined
                    (className
                       (assigned (js "My.B") [] [js "Third"; js "x.My.B"]))
               ++ post.
Proof.
  apply (mergeBehavior_no_self_reference
           [assigned (js "My.B") [] [js "My.BImpl"; js "Other"]]
           (assigned (js "My.B") [] [js "Third"; js "x.My.B"])
           [assigned (js "My.B") [] [js "Other"; js "Third"]]).
  reflexivity.
Defined.

End BehaviorProperties.

(** * More on the reference scanners: the scanner of all elements and its
      extension for custom elements *)

Module HtmlScannerProperties.
Import Regex HtmlElementReferenceScanner.

Section Scanners.
Context `{JsRuntime}.
Variable sourceRangeForNode : ASTNode -> option SourceRange.
Variable sourceRangeForAttribute : ASTNode -> list N -> option SourceRange.
Variable sourceRangeForAttributeName :
  ASTNode -> list N -> option SourceRange.
Variable sourceRangeForAttributeValue :
  ASTNode -> list N -> option SourceRange.

Local Abbreviation reference :=
  (elementReference sourceRangeForNode sourceRangeForAttribute
     sourceRangeForAttributeName sourceRangeForAttributeValue).

(** [HtmlElementReferenceScanner.scan] with the [matches] of the class
    itself, [!!node]. *)
Definition scanElementReferences (nodes : list ASTNode)
  : list ScannedElementReference :=
  scan sourceRangeForNode sourceRangeForAttribute
    sourceRangeForAttributeName sourceRangeForAttributeValue
    matchesAny nodes.

Lemma references_of_custom (l : list ASTNode) :
  map reference (filter (emitted matchesCustom) l)
  = filter (fun r => matchesCustom (ref_astNode r) = true)
      (map reference (filter (emitted matchesAny) l)).
Proof.
  induction l as [|n l IH]; [reflexivity|].
  rewrite !filter_cons.
  destruct (decide (emitted matchesAny n)) as [Hany|Hany].
  - cbn [map]. rewrite filter_cons. cbn [ref_astNode reference].
    unfold emitted, matchesAny in Hany. rewrite andb_true_r in Hany.
    destruct (decide (emitted matchesCustom n)) as [Hc|Hc];
      unfold emitted in Hc; rewrite Hany in Hc; cbn [andb] in Hc.
    + rewrite decide_True by exact Hc. cbn [map]. now rewrite IH.
    + now rewrite decide_False by exact Hc.
  - rewrite decide_False; [exact IH|].
    unfold emitted, matchesAny in *. rewrite andb_true_r in Hany.
    intros [Htag _]%andb_true_iff. contradiction.
Qed.

(** X11: The scanner of all elements emits one reference for each node it is
    run on that has a tag name, in the order of the visit; the scanner of
    custom elements emits exactly those of these references whose node
    passes its own [matches], in the same order. *)
Theorem custom_references_among_all nodes :
  map ref_astNode (scanElementReferences nodes)
  = filter (fun n => hasTagName n = true) (flat_map presented nodes) /\
  Forall (fun r => tagName (ref_astNode r) = Some (ref_tagName r)
                   /\ ref_tagName r <> [])
         (scanElementReferences nodes) /\
  scanCustomElementReferences sourceRangeForNode sourceRangeForAttribute
    sourceRangeForAttributeName sourceRangeForAttributeValue nodes
  = filter (fun r => matchesCustom (ref_astNode r) = true)
      (scanElementReferences nodes).
Proof.
  unfold scanElementReferences, scanCustomElementReferences.
  rewrite !scan_refs. split; [|split].
  - rewrite map_map. cbn [ref_astNode reference]. rewrite map_id.
    apply list_filter_iff. intros n. unfold emitted, matchesAny.
    now rewrite andb_true_r.
  - apply Forall_forall. intros r (n & -> & Hn)%list_elem_of_fmap.
    apply list_elem_of_filter in Hn as [Hn _].
    unfold emitted, matchesAny, hasTagName in Hn. cbn.
    destruct (tagName n) as [[|c t]|]; try discriminate. now split.
  - apply references_of_custom.
Qed.

End Scanners.

End HtmlScannerProperties.

(** * More on the summary: namespaces, the entries of an element and the
      validation of a summary *)

Module AnalysisSummary.
Import Regex GenerateAnalysis.

Arguments sourceRange {Metadata} _.
Arguments properties {Metadata} _.
Arguments methods {Metadata} _.
Arguments attributes {Metadata} _.
Arguments events {Metadata} _.
Arguments el_path {Metadata} _.
Arguments el_sourceRange {Metadata} _.
Arguments el_properties {Metadata} _.
Arguments el_methods {Metadata} _.
Arguments el_attributes {Metadata} _.
Arguments el_events {Metadata} _.
Arguments prop_name {Metadata} _.
Arguments prop_privacy {Metadata} _.
Arguments method_name {Metadata} _.
Arguments method_privacy {Metadata} _.
Arguments attribute_name {Metadata} _.
Arguments event_name {Metadata} _.

(** ** getNamespaceName *)

Definition fullStop : codeunit := 46%N.

(** [s.lastIndexOf(c)] for a single code unit [c]; [None] is -1. *)
Fixpoint lastIndexOf (c : codeunit) (s : jsstring) : option nat :=
  match s with
  | [] => None
  | x :: rest =>
      match lastIndexOf c rest with
      | Some i => Some (S i)
      | None => if (x =? c)%N then Some 0%nat else None
      end
  end.

Definition getNamespaceName (name : option jsstring) : option jsstring :=
  match name with
  | None => None
  | Some name =>
      match lastIndexOf fullStop name with
      | None => None
      | Some lastDotIndex => Some (take lastDotIndex name)
      end
  end.

Lemma lastIndexOf_None c s : lastIndexOf c s = None <-> c ∉ s.
Proof.
  induction s as [|x s IH]; cbn.
  - split; [intros _; apply not_elem_of_nil|reflexivity].
  - rewrite not_elem_of_cons, <- IH.
    destruct (lastIndexOf c s) as [i|].
    + split; [discriminate|]. now intros [_ [=]].
    + destruct (N.eqb_spec x c) as [->|Hne].
      * split; [discriminate|]. now intros [Hc _].
      * split; [|reflexivity]. intros _. split; [congruence|reflexivity].
Qed.

Lemma lastIndexOf_last c pre last :
  c ∉ last -> lastIndexOf c (pre ++ c :: last) = Some (length pre).
Proof.
  intros Hlast%lastIndexOf_None.
  induction pre as [|x pre IH]; cbn.
  - now rewrite Hlast, N.eqb_refl.
  - now rewrite IH.
Qed.

Lemma lastIndexOf_Some c s i :
  lastIndexOf c s = Some i ->
  exists last, s = take i s ++ c :: last /\ c ∉ last.
Proof.
  revert i. induction s as [|x s IH]; intros i; cbn; [discriminate|].
  destruct (lastIndexOf c s) as [j|] eqn:Hrest.
  - intros [= <-]. destruct (IH j eq_refl) as (last & Heq & Hlast).
    exists last. cbn. split; [now rewrite <- Heq|exact Hlast].
  - destruct (N.eqb_spec x c) as [->|Hne]; [|discriminate].
    intros [= <-]. exists s. split; [reflexivity|].
    now apply lastIndexOf_None.
Qed.

(** X12: The namespace of a name is what stands before its last full stop,
    and a name without a full stop, like no name at all, has none. *)
Theorem getNamespaceName_prefix name :
  (forall namespaceName,
      getNamespaceName (Some name) = Some namespaceName <->
      exists last,
        name = namespaceName ++ fullStop :: last /\ fullStop ∉ last) /\
  (getNamespaceName (Some name) = None <-> fullStop ∉ name).
Proof.
  unfold getNamespaceName. split.
  - intros namespaceName. split.
    + destruct (lastIndexOf fullStop name) as [i|] eqn:Hi; [|discriminate].
      intros [= <-]. exact (lastIndexOf_Some _ _ _ Hi).
    + intros (last & -> & Hlast).
      rewrite (lastIndexOf_last _ _ _ Hlast).
      now rewrite take_app_length.
  - rewrite <- lastIndexOf_None.
    destruct (lastIndexOf fullStop name); split; congruence.
Qed.

(** ** The entry of an element *)

Section Entries.
Variable Metadata : Type.
Variable pathRelative : list N -> list N -> list N.
Variable pathDirname : list N -> list N.

Local Abbreviation serialize :=
  (@serializeElement Metadata pathRelative pathDirname).

(** X13: [serializeElement] throws exactly on an element without a source
    range. On any other element the entry has the path of the file relative
    to the package, the range of the element without the name of its file,
    and the properties, methods, attributes and events of the element, all
    of them and in their order, whatever their privacy. *)
Theorem serializeElement_members (element : ResolvedElement Metadata)
    packagePath :
  match sourceRange element with
  | None => serialize element packagePath = Throw TypeError
  | Some range =>
      exists entry,
        serialize element packagePath = Return entry /\
        el_path entry = pathRelative packagePath (file range) /\
        el_sourceRange entry
        = Some {| o_file := match file range with
                            | [] => Some []
                            | _ :: _ => None
                            end;
                  o_start := start range; o_end := end_ range |} /\
        map (fun p => (prop_name p, prop_privacy p)) (el_properties entry)
        = map (fun p => (rp_name p, rp_privacy p)) (properties element) /\
        map (fun m => (method_name m, method_privacy m)) (el_methods entry)
        = map (fun m => (rm_name m, rm_privacy m)) (methods element) /\
        map attribute_name (el_attributes entry)
        = map ra_name (attributes element) /\
        map event_name (el_events entry) = map re_name (events element)
  end.
Proof.
  unfold serializeElement, serializeElementLike, serializeClass.
  destruct (sourceRange element) as [range|] eqn:Hrange; [|reflexivity].
  eexists. split; [reflexivity|]. cbn.
  rewrite !map_map. cbn. repeat split.
  unfold resolveSourceRangePath.
  destruct (file range) as [|c f] eqn:Hfile; [reflexivity|].
  now rewrite decide_True by reflexivity.
Qed.

End Entries.

(** ** validateAnalysis *)

(** [\d] *)
Definition digit : regex := Chr BehaviorScanner.isDigit.

(** [/^1\.\d+\.\d+$/]: with the anchors the pattern is tried on the whole
    of the string. *)
Definition versionPattern : regex :=
  Seq (lit 49) (Seq (lit fullStop)
    (Seq (Plus digit) (Seq (lit fullStop) (Plus digit)))).

Section Validation.

(** The summary as far as the validation reads it, and the validator of
    the JSON schema (jsonschema) with its result. *)
Variable Analysis SchemaError : Type.
Variable schema_version : Analysis -> list N.

Record ValidatorResult := {
  throwError : option Thrown;
  errors : list SchemaError
}.

Variable validate : option Analysis -> ValidatorResult.

Inductive Invalid :=
  | Raised (error : Thrown)
  | ValidationError (result : ValidatorResult)
  | InvalidVersion (message : list N).

(** [if (result.throwError)]: the error of the result when it is there and
    truthy. *)
Definition raised (result : ValidatorResult) : option Thrown :=
  match throwError result with
  | None | Some JsUndefined | Some JsNull | Some (JsString []) => None
  | Some error => Some error
  end.

Definition validateAnalysis (analyzedPackage : option Analysis)
  : unit + Invalid :=
  let result := validate analyzedPackage in
  match raised result with
  | Some error => inr (Raised error)
  | None =>
      match errors result with
      | _ :: _ => inr (ValidationError result)
      | [] =>
          match analyzedPackage with
          | None => inr (Raised TypeError)
          | Some a =>
              if matches versionPattern (schema_version a) then inl tt
              else inr (InvalidVersion
                          (js "Invalid schema_version in AnalyzedPackage. "
                           ++ js "Expected 1.x.x, got " ++ schema_version a))
          end
      end
  end.

Lemma lang_lit c w : lang (lit c) w <-> w = [c].
Proof.
  split.
  - intros (c' & -> & Hc)%lang_chr_inv. apply N.eqb_eq in Hc. now subst.
  - intros ->. constructor. apply N.eqb_refl.
Qed.

Lemma lang_star_chr p w : lang (Star (Chr p)) w <-> Forall (fun c => p c = true) w.
Proof.
  split.
  - intros Hw. remember (Star (Chr p)) as r eqn:Hr.
    induction Hw as [| | | | | |r' u v Hu _ Hv IHv]; try discriminate.
    + constructor.
    + injection Hr as ->. apply lang_chr_inv in Hu as (c & -> & Hc).
      constructor; [exact Hc|now apply IHv].
  - induction 1 as [|c w Hc _ IH]; [constructor|].
    apply (lang_star_app (Chr p) [c] w); [now constructor|exact IH].
Qed.

Lemma lang_plus_chr p w :
  lang (Plus (Chr p)) w <-> w <> [] /\ Forall (fun c => p c = true) w.
Proof.
  split.
  - intros (u & v & -> & Hu & Hv)%lang_seq_inv.
    apply lang_chr_inv in Hu as (c & -> & Hc).
    apply lang_star_chr in Hv. split; [discriminate|now constructor].
  - intros [Hne Hall]. destruct Hall as [|c w Hc Hall]; [contradiction|].
    apply (lang_seq (Chr p) (Star (Chr p)) [c] w); [now constructor|].
    now apply lang_star_chr.
Qed.

(** The version strings that pass: "1.", digits, ".", digits. *)
Lemma versionPattern_matches version :
  matches versionPattern version = true <->
  exists minor patch,
    version = js "1." ++ minor ++ fullStop :: patch /\
    minor <> [] /\ patch <> [] /\
    Forall (fun c => BehaviorScanner.isDigit c = true) minor /\
    Forall (fun c => BehaviorScanner.isDigit c = true) patch.
Proof.
  rewrite matches_lang. unfold versionPattern. split.
  - intros (u1 & v1 & -> & Hu1 & Hv1)%lang_seq_inv.
    apply lang_lit in Hu1 as ->.
    apply lang_seq_inv in Hv1 as (u2 & v2 & -> & Hu2 & Hv2).
    apply lang_lit in Hu2 as ->.
    apply lang_seq_inv in Hv2 as (minor & v3 & -> & Hminor & Hv3).
    apply lang_seq_inv in Hv3 as (u4 & patch & -> & Hu4 & Hpatch).
    apply lang_lit in Hu4 as ->.
    apply lang_plus_chr in Hminor as [Hm1 Hm2].
    apply lang_plus_chr in Hpatch as [Hp1 Hp2].
    exists minor, patch. now repeat split.
  - intros (minor & patch & -> & Hm1 & Hp1 & Hm2 & Hp2).
    apply (lang_seq _ _ [49%N]); [now apply lang_lit|].
    apply (lang_seq _ _ [fullStop]); [now apply lang_lit|].
    apply lang_seq; [now apply lang_plus_chr|].
    apply (lang_seq _ _ [fullStop]); [now apply lang_lit|].
    now apply lang_plus_chr.
Qed.

(** X14: [validateAnalysis] returns without throwing exactly when the
    validator neither throws nor reports an error and the summary has a
    version "1.x.y" with x and y non-empty strings of digits; so "1.0" and
    "2.0.0" are thrown out, and so is a [null] that the validator lets pass. *)
Theorem validateAnalysis_accepts analyzedPackage :
  validateAnalysis analyzedPackage = inl tt <->
  raised (validate analyzedPackage) = None /\
  errors (validate analyzedPackage) = [] /\
  exists a minor patch,
    analyzedPackage = Some a /\
    schema_version a = js "1." ++ minor ++ fullStop :: patch /\
    minor <> [] /\ patch <> [] /\
    Forall (fun c => BehaviorScanner.isDigit c = true) minor /\
    Forall (fun c => BehaviorScanner.isDigit c = true) patch.
Proof.
  unfold validateAnalysis.
  destruct (raised (validate analyzedPackage)) as [e|].
  { split; [discriminate|]. now intros [[=] _]. }
  destruct (errors (validate analyzedPackage)) as [|err errs].
  2: { split; [discriminate|]. now intros (_ & [=] & _). }
  destruct analyzedPackage as [a|].
  2: { split; [discriminate|]. now intros (_ & _ & a & ? & ? & [=] & _). }
  destruct (matches versionPattern (schema_version a)) eqn:Hversion.
  - split; [intros _|reflexivity]. repeat split.
    apply versionPattern_matches in Hversion
      as (minor & patch & Hv & Hrest).
    now exists a, minor, patch.
  - split; [discriminate|].
    intros (_ & _ & a' & minor & patch & [= <-] & Hv & Hrest).
    assert (matches versionPattern (schema_version a) = true) as Hyes
      by (apply versionPattern_matches; now exists minor, patch).
    congruence.
Qed.

End Validation.

(** ** buildAnalysis *)

Arguments className {Metadata} _.

Record ResolvedNamespace := {
  rn_name : list N;
  rn_description : option (list N);
  rn_summary : option (list N);
  rn_sourceRange : SourceRange
}.

Record Namespace := {
  ns_name : list N;
  ns_description : option (list N);
  ns_summary : option (list N);
  ns_sourceRange : SourceRange
}.

(** [namespaces.set(key, value)] on a [Map], which keeps its keys in the
    order in which they were first set. *)
Fixpoint mapSet {V} (key : jsstring) (value : V) (m : list (list N * V))
  : list (list N * V) :=
  match m with
  | [] => [(key, value)]
  | (k, v) :: rest =>
      if decide (k = key) then (k, value) :: rest
      else (k, v) :: mapSet key value rest
  end.

(** [namespaces.get(key)] *)
Fixpoint mapGet {V} (key : jsstring) (m : list (list N * V)) : option V :=
  match m with
  | [] => None
  | (k, v) :: rest => if decide (k = key) then Some v else mapGet key rest
  end.

Section Build.
Variable Metadata : Type.
Variable pathRelative : list N -> list N -> list N.
Variable pathDirname : list N -> list N.

(** The mixins, functions, behaviors and classes with the names that
    [buildAnalysis] reads and with their serializers. *)
Variable ResolvedMixin ResolvedFunction ResolvedPolymerBehavior
         ResolvedClass : Type.
Variable ElementMixin Function Class : Type.
Variable mixinName : ResolvedMixin -> option (list N).
Variable functionName : ResolvedFunction -> option (list N).
Variable behaviorClassName : ResolvedPolymerBehavior -> option (list N).
Variable classOwnName : ResolvedClass -> option (list N).
Variable serializeElementMixin :
  ResolvedMixin -> list N -> Completion ElementMixin.
Variable serializeFunction :
  ResolvedFunction -> list N -> Completion Function.
Variable serializePolymerBehaviorAsElementMixin :
  ResolvedPolymerBehavior -> list N -> Completion ElementMixin.
Variable serializeClassOf : ResolvedClass -> list N -> Completion Class.

Record Members := {
  m_elements : list (ResolvedElement Metadata);
  m_mixins : list ResolvedMixin;
  m_namespaces : list ResolvedNamespace;
  m_functions : list ResolvedFunction;
  m_polymerBehaviors : list ResolvedPolymerBehavior;
  m_classes : list ResolvedClass
}.

(** The lists that [buildAnalysis] fills in the summary and in a
    namespace.  A list is made when something is pushed to it first, so an
    empty list here is a property that the object does not have.  A member
    namespace is the object that the map of namespaces holds under its name;
    the list has the name. *)
Record Container := {
  c_namespaces : list (list N);
  c_elements : list (Element Metadata);
  c_mixins : list ElementMixin;
  c_functions : list Function;
  c_behaviors : list ElementMixin;
  c_classes : list Class
}.

Definition emptyContainer : Container :=
  {| c_namespaces := []; c_elements := []; c_mixins := [];
     c_functions := []; c_behaviors := []; c_classes := [] |}.

(** The summary under construction: [analysis] itself (its
    [schema_version] is the constant '1.0.0') and the map [namespaces]. *)
Record Summary := {
  analysis : Container;
  namespaces : list (list N * (Namespace * Container))
}.

Definition schema_version (_ : Summary) : list N := js "1.0.0".

Definition serializeNamespace (namespace : ResolvedNamespace)
    (packagePath : jsstring) : Namespace :=
  let packageRelativePath :=
    pathRelative packagePath (file (rn_sourceRange namespace)) in
  {| ns_name := rn_name namespace;
     ns_description := rn_description namespace;
     ns_summary := rn_summary namespace;
     ns_sourceRange :=
       {| file := packageRelativePath;
          start := start (rn_sourceRange namespace);
          end_ := end_ (rn_sourceRange namespace) |} |}.

Definition push_namespace (c : Container) (name : list N) : Container :=
  {| c_namespaces := c_namespaces c ++ [name]; c_elements := c_elements c;
     c_mixins := c_mixins c; c_functions := c_functions c;
     c_behaviors := c_behaviors c; c_classes := c_classes c |}.

Definition push_element (c : Container) (e : Element Metadata) : Container :=
  {| c_namespaces := c_namespaces c; c_elements := c_elements c ++ [e];
     c_mixins := c_mixins c; c_functions := c_functions c;
     c_behaviors := c_behaviors c; c_classes := c_classes c |}.

Definition push_mixin (c : Container) (m : ElementMixin) : Container :=
  {| c_namespaces := c_namespaces c; c_elements := c_elements c;
     c_mixins := c_mixins c ++ [m]; c_functions := c_functions c;
     c_behaviors := c_behaviors c; c_classes := c_classes c |}.

Definition push_function (c : Container) (f : Function) : Container :=
  {| c_namespaces := c_namespaces c; c_elements := c_elements c;
     c_mixins := c_mixins c; c_functions := c_functions c ++ [f];
     c_behaviors := c_behaviors c; c_classes := c_classes c |}.

Definition push_behavior (c : Container) (b : ElementMixin) : Container :=
  {| c_namespaces := c_namespaces c; c_elements := c_elements c;
     c_mixins := c_mixins c; c_functions := c_functions c;
     c_behaviors := c_behaviors c ++ [b]; c_classes := c_classes c |}.

Definition push_class (c : Container) (k : Class) : Container :=
  {| c_namespaces := c_namespaces c; c_elements := c_elements c;
     c_mixins := c_mixins c; c_functions := c_functions c;
     c_behaviors := c_behaviors c; c_classes := c_classes c ++ [k] |}.

(** The object [namespaces.get(namespaceName) || analysis], changed in
    place by [change]. *)
Fixpoint changeNamespace (key : jsstring) (change : Container -> Container)
    (m : list (list N * (Namespace * Container)))
  : list (list N * (Namespace * Container)) :=
  match m with
  | [] => []
  | (k, (n, c)) :: rest =>
      if decide (k = key) then (k, (n, change c)) :: rest
      else (k, (n, c)) :: changeNamespace key change rest
  end.

Definition changeParent (s : Summary) (namespaceName : option (list N))
    (change : Container -> Container) : Summary :=
  match namespaceName with
  | Some key =>
      match mapGet key (namespaces s) with
      | Some _ =>
          {| analysis := analysis s;
             namespaces := changeNamespace key change (namespaces s) |}
      | None =>
          {| analysis := change (analysis s); namespaces := namespaces s |}
      end
  | None => {| analysis := change (analysis s); namespaces := namespaces s |}
  end.

(** One of the loops over the members of a kind: the namespace of the name
    is looked up, and the serialized member is pushed to the list of the
    namespace, or of the summary when there is no such namespace. *)
Fixpoint place {Item Out} (nameOf : Item -> option (list N))
    (serialize : Item -> Completion Out)
    (push : Container -> Out -> Container)
    (items : list Item) (s : Summary) : Completion Summary :=
  match items with
  | [] => Return s
  | item :: rest =>
      let namespaceName := getNamespaceName (nameOf item) in
      match serialize item with
      | Throw e => Throw e
      | Return out =>
          place nameOf serialize push rest
            (changeParent s namespaceName (fun c => push c out))
      end
  end.

Definition buildAnalysis (members : Members) (packagePath : jsstring)
  : Completion Summary :=
  let namespaces :=
    fold_left
      (fun namespaces namespace =>
         mapSet (rn_name namespace)
                (serializeNamespace namespace packagePath, emptyContainer)
                namespaces)
      (m_namespaces members) [] in
  let s := {| analysis := emptyContainer; namespaces := namespaces |} in
  let s :=
    fold_left
      (fun s name =>
         changeParent s (getNamespaceName (Some name))
           (fun parent => push_namespace parent name))
      (map (fun kv => ns_name kv.2.1) namespaces) s in
  match place className (fun e => serializeElement pathRelative pathDirname
                                    e packagePath)
          push_element (m_elements members) s with
  | Throw e => Throw e
  | Return s =>
  match place mixinName (fun m => serializeElementMixin m packagePath)
          push_mixin (m_mixins members) s with
  | Throw e => Throw e
  | Return s =>
  match place functionName (fun f => serializeFunction f packagePath)
          push_function (m_functions members) s with
  | Throw e => Throw e
  | Return s =>
  match place behaviorClassName
          (fun b => serializePolymerBehaviorAsElementMixin b packagePath)
          push_behavior (m_polymerBehaviors members) s with
  | Throw e => Throw e
  | Return s =>
      place classOwnName (fun k => serializeClassOf k packagePath)
        push_class (m_classes members) s
  end end end end.

(** *** Where the members end up *)

(** The namespace that takes a member of the given name in: the one named
    by what stands before the last full stop of the name, when there is
    such a namespace among [names]; [None] is the summary itself. *)
Definition home (names : list (list N)) (name : option (list N))
  : option (list N) :=
  match getNamespaceName name with
  | Some namespaceName =>
      if bool_decide (namespaceName ∈ names) then Some namespaceName
      else None
  | None => None
  end.

Definition container (s : Summary) (c : option (list N))
  : option Container :=
  match c with
  | None => Some (analysis s)
  | Some key => snd <$> mapGet key (namespaces s)
  end.

Definition appendContainer (c d : Container) : Container :=
  {| c_namespaces := c_namespaces c ++ c_namespaces d;
     c_elements := c_elements c ++ c_elements d;
     c_mixins := c_mixins c ++ c_mixins d;
     c_functions := c_functions c ++ c_functions d;
     c_behaviors := c_behaviors c ++ c_behaviors d;
     c_classes := c_classes c ++ c_classes d |}.

Lemma appendContainer_assoc c d e :
  appendContainer (appendContainer c d) e
  = appendContainer c (appendContainer d e).
Proof. unfold appendContainer. cbn. now rewrite <- !app_assoc. Qed.

Lemma appendContainer_empty c : appendContainer c emptyContainer = c.
Proof. destruct c. unfold appendContainer. cbn. now rewrite !app_nil_r. Qed.

Lemma mapGet_keys {V} key (m : list (list N * V)) :
  is_Some (mapGet key m) <-> key ∈ map fst m.
Proof.
  induction m as [|[k v] m IH]; cbn.
  - split; [now intros [? [=]]|]. intros Hin. now apply elem_of_nil in Hin.
  - rewrite elem_of_cons. destruct (decide (k = key)) as [->|Hne].
    + split; [now left|eauto].
    + rewrite IH. split; [now right|]. intros [->|Hin]; [contradiction|easy].
Qed.

Lemma mapGet_None {V} key (m : list (list N * V)) :
  mapGet key m = None <-> key ∉ map fst m.
Proof.
  rewrite <- mapGet_keys. destruct (mapGet key m) as [v|].
  - split; [discriminate|]. intros Hnot. exfalso. apply Hnot. eauto.
  - split; [intros _; apply is_Some_None|reflexivity].
Qed.

Lemma changeNamespace_keys key change m :
  map fst (changeNamespace key change m) = map fst m.
Proof.
  induction m as [|[k [n c]] m IH]; cbn; [reflexivity|].
  destruct (decide (k = key)); cbn; [reflexivity|now rewrite IH].
Qed.

Lemma mapGet_changeNamespace key change m key' :
  mapGet key' (changeNamespace key change m)
  = if decide (key = key')
    then (fun nc => (nc.1, change nc.2)) <$> mapGet key m
    else mapGet key' m.
Proof.
  induction m as [|[k [n c]] m IH]; cbn.
  - now destruct (decide (key = key')).
  - destruct (decide (k = key)) as [->|Hne];
      destruct (decide (key = key')) as [->|Hne']; cbn.
    + now rewrite decide_True by reflexivity.
    + now rewrite decide_False by exact Hne'.
    + rewrite decide_False by exact Hne. exact IH.
    + destruct (decide (k = key')); [reflexivity|exact IH].
Qed.

Lemma changeParent_names s namespaceName change :
  map fst (namespaces (changeParent s namespaceName change))
  = map fst (namespaces s).
Proof.
  unfold changeParent. destruct namespaceName as [key|]; [|reflexivity].
  destruct (mapGet key (namespaces s)); [|reflexivity].
  apply changeNamespace_keys.
Qed.

Lemma changeParent_namespace s namespaceName change key :
  fst <$> mapGet key (namespaces (changeParent s namespaceName change))
  = fst <$> mapGet key (namespaces s).
Proof.
  unfold changeParent. destruct namespaceName as [k|]; [|reflexivity].
  destruct (mapGet k (namespaces s)) eqn:Hk; [|reflexivity].
  cbn. rewrite mapGet_changeNamespace.
  destruct (decide (k = key)) as [->|]; [|reflexivity].
  now rewrite Hk.
Qed.

Lemma changeParent_container s name change c :
  container (changeParent s (getNamespaceName name) change) c
  = if decide (home (map fst (namespaces s)) name = c)
    then change <$> container s c
    else container s c.
Proof.
  unfold home, changeParent.
  destruct (getNamespaceName name) as [key|].
  - destruct (mapGet key (namespaces s)) as [nc|] eqn:Hkey.
    + rewrite bool_decide_eq_true_2 by (apply mapGet_keys; eauto).
      destruct c as [key'|]; cbn.
      * rewrite mapGet_changeNamespace.
        destruct (decide (key = key')) as [->|Hne].
        -- rewrite decide_True by reflexivity. rewrite Hkey. reflexivity.
        -- now rewrite decide_False by congruence.
      * now rewrite decide_False by discriminate.
    + rewrite bool_decide_eq_false_2 by (now apply mapGet_None).
      destruct c as [key'|]; cbn.
      * now rewrite decide_False by discriminate.
      * now rewrite decide_True by reflexivity.
  - destruct c as [key'|]; cbn.
    + now rewrite decide_False by discriminate.
    + now rewrite decide_True by reflexivity.
Qed.

Section Placing.
Context {Item Out : Type}.
Variable nameOf : Item -> option (list N).
Variable serialize : Item -> Completion Out.
Variable push : Container -> Out -> Container.
Variable single : Out -> Container.
Hypothesis push_single :
  forall c out, push c out = appendContainer c (single out).

(** What the members of a kind add to the lists of one container. *)
Fixpoint gathered (items : list Item) : Container :=
  match items with
  | [] => emptyContainer
  | item :: rest =>
      match serialize item with
      | Return out => appendContainer (single out) (gathered rest)
      | Throw _ => gathered rest
      end
  end.

Lemma place_gathered items : forall s s',
  place nameOf serialize push items s = Return s' ->
  map fst (namespaces s') = map fst (namespaces s) /\
  (forall key, fst <$> mapGet key (namespaces s')
               = fst <$> mapGet key (namespaces s)) /\
  Forall (fun item => exists out, serialize item = Return out) items /\
  forall c,
    container s' c
    = (fun cont =>
         appendContainer cont
           (gathered
              (filter (fun item =>
                         home (map fst (namespaces s)) (nameOf item) = c)
                      items)))
      <$> container s c.
Proof.
  induction items as [|item rest IH]; intros s s'; cbn [place].
  - intros [= <-]. repeat split; [constructor|]. intros c. cbn.
    destruct (container s c) as [cont|]; cbn; [|reflexivity].
    now rewrite appendContainer_empty.
  - destruct (serialize item) as [out|e] eqn:Hout; [|discriminate].
    intros Hrest. apply IH in Hrest as (Hnames & Hmeta & Hall & Hcont).
    rewrite changeParent_names in Hnames, Hcont.
    split; [exact Hnames|]. split.
    { intros key. now rewrite Hmeta, changeParent_namespace. }
    split; [constructor; eauto|].
    intros c. rewrite Hcont, changeParent_container, filter_cons.
    destruct (decide (home (map fst (namespaces s)) (nameOf item) = c)).
    + cbn [gathered]. rewrite Hout.
      destruct (container s c) as [cont|]; cbn; [|reflexivity].
      now rewrite push_single, appendContainer_assoc.
    + reflexivity.
Qed.

End Placing.

Lemma mapSet_keys {V} key (value : V) m :
  map fst (mapSet key value m)
  = if bool_decide (key ∈ map fst m) then map fst m else map fst m ++ [key].
Proof.
  induction m as [|[k v] m IH]; cbn.
  - now rewrite bool_decide_eq_false_2 by apply not_elem_of_nil.
  - destruct (decide (k = key)) as [->|Hne]; cbn.
    + now rewrite bool_decide_eq_true_2 by (apply elem_of_cons; now left).
    + rewrite IH. destruct (decide (key ∈ map fst m)) as [Hin|Hout].
      * rewrite (bool_decide_eq_true_2 _ Hin).
        now rewrite bool_decide_eq_true_2 by (apply elem_of_cons; now right).
      * rewrite (bool_decide_eq_false_2 _ Hout).
        rewrite bool_decide_eq_false_2; [reflexivity|].
        intros [->|Hin]%elem_of_cons; contradiction.
Qed.

Lemma mapGet_mapSet {V} key (value : V) m key' :
  mapGet key' (mapSet key value m)
  = if decide (key = key') then Some value else mapGet key' m.
Proof.
  induction m as [|[k v] m IH]; cbn.
  - destruct (decide (key = key')); reflexivity.
  - destruct (decide (k = key)) as [->|Hne]; cbn.
    + destruct (decide (key = key')); reflexivity.
    + destruct (decide (k = key')) as [->|Hne'].
      * now rewrite decide_False by congruence.
      * exact IH.
Qed.

Lemma mapGet_entry {V} key (value : V) m :
  NoDup (map fst m) -> (key, value) ∈ m -> mapGet key m = Some value.
Proof.
  induction m as [|[k v] m IH]; cbn; intros Hnodup Hin.
  - now apply elem_of_nil in Hin.
  - apply NoDup_cons in Hnodup as [Hk Hnodup].
    apply elem_of_cons in Hin as [[= -> ->]|Hin].
    + now rewrite decide_True by reflexivity.
    + rewrite decide_False; [now apply IH|].
      intros ->. apply Hk. apply list_elem_of_fmap. now exists (key, value).
Qed.

(** The map of namespaces: one entry for each name, at the place of the
    first namespace of that name and made from the last one. *)
Lemma namespaces_declared packagePath (l : list ResolvedNamespace) :
  let m :=
    fold_left
      (fun namespaces namespace =>
         mapSet (rn_name namespace)
                (serializeNamespace namespace packagePath, emptyContainer)
                namespaces) l [] in
  NoDup (map fst m) /\
  (forall name, name ∈ map fst m <-> name ∈ map rn_name l) /\
  forall name,
    mapGet name m
    = (fun r => (serializeNamespace r packagePath, emptyContainer))
      <$> last (filter (fun r => rn_name r = name) l).
Proof.
  induction l as [|x l IH] using rev_ind; cbn zeta.
  - cbn. split; [constructor|]. split; [reflexivity|]. reflexivity.
  - rewrite fold_left_app. cbn [fold_left].
    cbn zeta in IH. destruct IH as (Hnodup & Hnames & Hget).
    set (m := fold_left _ l []) in *.
    rewrite mapSet_keys. split; [|split].
    + destruct (decide (rn_name x ∈ map fst m)) as [Hin|Hout].
      * now rewrite (bool_decide_eq_true_2 _ Hin).
      * rewrite (bool_decide_eq_false_2 _ Hout).
        apply NoDup_app. split; [exact Hnodup|]. split.
        -- intros k Hk ->%list_elem_of_singleton. contradiction.
        -- apply NoDup_singleton.
    + intros name. rewrite map_app, elem_of_app. cbn.
      rewrite list_elem_of_singleton, <- Hnames.
      destruct (decide (rn_name x ∈ map fst m)) as [Hin|Hout].
      * rewrite (bool_decide_eq_true_2 _ Hin).
        split; [now left|]. intros [Hname| ->]; assumption.
      * rewrite (bool_decide_eq_false_2 _ Hout).
        now rewrite elem_of_app, list_elem_of_singleton.
    + intros name. rewrite mapGet_mapSet, filter_app, filter_cons, filter_nil.
      destruct (decide (rn_name x = name)) as [Heq|Hne].
      * now rewrite last_snoc.
      * now rewrite app_nil_r, Hget.
Qed.

Lemma nest_place names : forall s,
  place (fun name => Some name) (fun name => Return name) push_namespace
    names s
  = Return
      (fold_left
         (fun s name =>
            changeParent s (getNamespaceName (Some name))
              (fun parent => push_namespace parent name))
         names s).
Proof.
  induction names as [|name names IH]; intros s; cbn; [reflexivity|].
  apply IH.
Qed.

(** A list of a container is additive. *)
Lemma gathered_list {Item Out X} (serialize : Item -> Completion Out)
    (single : Out -> Container) (list_of : Container -> list X) items :
  list_of emptyContainer = [] ->
  (forall c d, list_of (appendContainer c d) = list_of c ++ list_of d) ->
  list_of (gathered serialize single items)
  = flat_map (fun item =>
                match serialize item with
                | Return out => list_of (single out)
                | Throw _ => []
                end) items.
Proof.
  intros Hempty Happend.
  induction items as [|item items IH]; cbn; [exact Hempty|].
  destruct (serialize item) as [out|e]; [|exact IH].
  now rewrite Happend, IH.
Qed.

Lemma flat_map_returned {Item Out} (serialize : Item -> Completion Out)
    items :
  Forall (fun item => exists out, serialize item = Return out) items ->
  map Return
    (flat_map (fun item =>
                 match serialize item with
                 | Return out => [out]
                 | Throw _ => []
                 end) items)
  = map serialize items.
Proof.
  induction 1 as [|item items [out Hout] _ IH]; cbn; [reflexivity|].
  rewrite Hout. cbn. now rewrite IH.
Qed.

Lemma flat_map_nothing {Item Out X} (serialize : Item -> Completion Out)
    (items : list Item) :
  flat_map (fun item =>
              match serialize item with
              | Return out => @nil X
              | Throw _ => []
              end) items = [].
Proof.
  induction items as [|item items IH]; cbn; [reflexivity|].
  now destruct (serialize item).
Qed.

Lemma flat_map_none {A B} (l : list A) : flat_map (fun _ => @nil B) l = [].
Proof. induction l; [reflexivity|assumption]. Qed.

Definition single_namespace (name : list N) : Container :=
  push_namespace emptyContainer name.
Definition single_element (e : Element Metadata) : Container :=
  push_element emptyContainer e.
Definition single_mixin (m : ElementMixin) : Container :=
  push_mixin emptyContainer m.
Definition single_function (f : Function) : Container :=
  push_function emptyContainer f.
Definition single_behavior (b : ElementMixin) : Container :=
  push_behavior emptyContainer b.
Definition single_class (k : Class) : Container :=
  push_class emptyContainer k.

Ltac single_push :=
  intros [] ?;
  cbv [appendContainer single_namespace single_element single_mixin
       single_function single_behavior single_class push_namespace
       push_element push_mixin push_function push_behavior push_class
       emptyContainer c_namespaces c_elements c_mixins c_functions
       c_behaviors c_classes];
  cbn [app]; now rewrite ?app_nil_r.

(** X15: [buildAnalysis] loses nothing and puts nothing in two places. The
    map of namespaces has one entry for each name of a namespace, made from
    the last namespace of that name. Every namespace, element, mixin,
    function, behavior and class is in the list of its kind of exactly one
    container, in the order of the members: the namespace named by what
    stands before the last full stop of its name when there is such a
    namespace, and the summary itself otherwise, also when the name is not
    known or has no full stop. *)
Theorem buildAnalysis_places members packagePath s :
  buildAnalysis members packagePath = Return s ->
  let names := map fst (namespaces s) in
  NoDup names /\
  (forall name, name ∈ names <-> name ∈ map rn_name (m_namespaces members)) /\
  (forall name,
      fst <$> mapGet name (namespaces s)
      = (fun r => serializeNamespace r packagePath)
        <$> last (filter (fun r => rn_name r = name)
                    (m_namespaces members))) /\
  forall c,
    (c = None \/ exists name, c = Some name /\ name ∈ names) ->
    exists cont,
      container s c = Some cont /\
      c_namespaces cont
      = filter (fun name => home names (Some name) = c) names /\
      map Return (c_elements cont)
      = map (fun e => serializeElement pathRelative pathDirname e packagePath)
          (filter (fun e => home names (className e) = c)
                  (m_elements members)) /\
      map Return (c_mixins cont)
      = map (fun m => serializeElementMixin m packagePath)
          (filter (fun m => home names (mixinName m) = c)
                  (m_mixins members)) /\
      map Return (c_functions cont)
      = map (fun f => serializeFunction f packagePath)
          (filter (fun f => home names (functionName f) = c)
                  (m_functions members)) /\
      map Return (c_behaviors cont)
      = map (fun b => serializePolymerBehaviorAsElementMixin b packagePath)
          (filter (fun b => home names (behaviorClassName b) = c)
                  (m_polymerBehaviors members)) /\
      map Return (c_classes cont)
      = map (fun k => serializeClassOf k packagePath)
          (filter (fun k => home names (classOwnName k) = c)
                  (m_classes members)).
Proof.
  unfold buildAnalysis.
  destruct (namespaces_declared packagePath (m_namespaces members))
    as (Hnodup & Hnames & Hget).
  cbn zeta in Hnodup, Hnames, Hget.
  set (m := fold_left _ (m_namespaces members) []) in *.
  assert (map (fun kv => ns_name kv.2.1) m = map fst m) as Hkeys.
  { apply map_ext_in. intros [k [n c]] Hin%list_elem_of_In. cbn.
    pose proof (mapGet_entry _ _ _ Hnodup Hin) as Hentry.
    rewrite Hget in Hentry.
    destruct (last _) as [r|] eqn:Hlast; [|discriminate].
    injection Hentry as <- _. cbn.
    apply last_Some_elem_of, list_elem_of_filter in Hlast. apply Hlast. }
  rewrite Hkeys.
  set (s0 := {| analysis := emptyContainer; namespaces := m |}).
  pose proof (nest_place (map fst m) s0) as Hnest.
  set (s1 := fold_left _ (map fst m) s0) in *.
  apply (place_gathered _ _ _ single_namespace) in Hnest
    as (Hn1 & Hm1 & _ & Hc1);
    [|single_push].
  destruct (place className _ push_element _ s1) as [s2|] eqn:H2;
    [|discriminate].
  apply (place_gathered _ _ _ single_element) in H2 as (Hn2 & Hm2 & Ha2 & Hc2);
    [|single_push].
  destruct (place mixinName _ push_mixin _ s2) as [s3|] eqn:H3;
    [|discriminate].
  apply (place_gathered _ _ _ single_mixin) in H3 as (Hn3 & Hm3 & Ha3 & Hc3);
    [|single_push].
  destruct (place functionName _ push_function _ s3) as [s4|] eqn:H4;
    [|discriminate].
  apply (place_gathered _ _ _ single_function) in H4
    as (Hn4 & Hm4 & Ha4 & Hc4);
    [|single_push].
  destruct (place behaviorClassName _ push_behavior _ s4) as [s5|] eqn:H5;
    [|discriminate].
  apply (place_gathered _ _ _ single_behavior) in H5
    as (Hn5 & Hm5 & Ha5 & Hc5);
    [|single_push].
  intros H6.
  apply (place_gathered _ _ _ single_class) in H6 as (Hn6 & Hm6 & Ha6 & Hc6);
    [|single_push].
  cbn zeta.
  assert (map fst (namespaces s) = map fst m) as Hall
    by (rewrite Hn6, Hn5, Hn4, Hn3, Hn2, Hn1; reflexivity).
  rewrite Hall. rewrite Hn5, Hn4, Hn3, Hn2, Hn1 in Hc6.
  rewrite Hn4, Hn3, Hn2, Hn1 in Hc5. rewrite Hn3, Hn2, Hn1 in Hc4.
  rewrite Hn2, Hn1 in Hc3. rewrite Hn1 in Hc2.
  change (map fst (namespaces s0)) with (map fst m) in *.
  split; [exact Hnodup|]. split; [exact Hnames|]. split.
  { intros name. rewrite Hm6, Hm5, Hm4, Hm3, Hm2, Hm1. cbn.
    rewrite Hget. now destruct (last _). }
  intros c Hc.
  assert (container s0 c = Some emptyContainer) as Hstart.
  { destruct Hc as [->|(name & -> & Hname)]; [reflexivity|]. cbn.
    pose proof (Hget name) as Hentry.
    apply Hnames, list_elem_of_fmap in Hname as (r & -> & Hr).
    destruct (last (filter (fun r' => rn_name r' = rn_name r)
                      (m_namespaces members))) as [r'|] eqn:Hlast.
    - now rewrite Hentry.
    - apply last_None in Hlast.
      assert (r ∈ filter (fun r' => rn_name r' = rn_name r)
                    (m_namespaces members)) as Hin
        by now apply list_elem_of_filter.
      rewrite Hlast in Hin. now apply elem_of_nil in Hin. }
  rewrite Hc6, Hc5, Hc4, Hc3, Hc2, Hc1, Hstart. cbn [fmap option_fmap option_map].
  eexists. split; [reflexivity|].
  repeat split.
  - cbn [c_namespaces appendContainer emptyContainer app].
    rewrite !(gathered_list _ _ c_namespaces) by (reflexivity || easy).
    cbn. rewrite !flat_map_nothing, !app_nil_r.
    induction (filter _ (map fst m)) as [|name l IH]; cbn; [reflexivity|].
    now rewrite IH.
  - cbn [c_elements appendContainer emptyContainer app].
    rewrite !(gathered_list _ _ c_elements) by (reflexivity || easy).
    cbn. rewrite flat_map_none, !flat_map_nothing, ?app_nil_r. cbn.
    apply flat_map_returned.
    eapply Forall_forall. intros e He%list_elem_of_filter.
    rewrite Forall_forall in Ha2. now apply Ha2.
  - cbn [c_mixins appendContainer emptyContainer app].
    rewrite !(gathered_list _ _ c_mixins) by (reflexivity || easy).
    cbn. rewrite flat_map_none, !flat_map_nothing, ?app_nil_r. cbn.
    apply flat_map_returned.
    eapply Forall_forall. intros e He%list_elem_of_filter.
    rewrite Forall_forall in Ha3. now apply Ha3.
  - cbn [c_functions appendContainer emptyContainer app].
    rewrite !(gathered_list _ _ c_functions) by (reflexivity || easy).
    cbn. rewrite flat_map_none, !flat_map_nothing, ?app_nil_r. cbn.
    apply flat_map_returned.
    eapply Forall_forall. intros e He%list_elem_of_filter.
    rewrite Forall_forall in Ha4. now apply Ha4.
  - cbn [c_behaviors appendContainer emptyContainer app].
    rewrite !(gathered_list _ _ c_behaviors) by (reflexivity || easy).
    cbn. rewrite flat_map_none, !flat_map_nothing, ?app_nil_r. cbn.
    apply flat_map_returned.
    eapply Forall_forall. intros e He%list_elem_of_filter.
    rewrite Forall_forall in Ha5. now apply Ha5.
  - cbn [c_classes appendContainer emptyContainer app].
    rewrite !(gathered_list _ _ c_classes) by (reflexivity || easy).
    cbn. rewrite flat_map_none, !flat_map_nothing, ?app_nil_r. cbn.
    apply flat_map_returned.
    eapply Forall_forall. intros e He%list_elem_of_filter.
    rewrite Forall_forall in Ha6. now apply Ha6.
Qed.

End Build.

(** *** A closed instance: a namespace, an element in it and one outside *)

Definition polymerNamespace : ResolvedNamespace :=
  {| rn_name := js "Polymer"; rn_description := None; rn_summary := None;
     rn_sourceRange :=
       {| file := js "polymer.html";
          start := {| line := 0; column := 0 |};
          end_ := {| line := 1; column := 0 |} |} |}.

Definition namedElement (name : jsstring) : ResolvedElement unit :=
  {| sourceRange := sourceRange sampleElement;
     description := None; summary := None; properties := []; methods := [];
     demos := None; privacy := Public; attributes := []; events := [];
     slots := []; tagName := None; className := Some name; mixins := [];
     superClass := None; emitMetadata := tt;
     emitPropertyMetadata := fun _ => tt;
     emitMethodMetadata := fun _ => tt;
     emitAttributeMetadata := fun _ => tt;
     emitEventMetadata := fun _ => tt |}.

Definition sampleMembers : Members unit unit unit unit unit :=
  {| m_elements :=
       [namedElement (js "Polymer.Foo"); namedElement (js "Other.Bar")];
     m_mixins := []; m_namespaces := [polymerNamespace];
     m_functions := []; m_polymerBehaviors := []; m_classes := [] |}.

Definition buildSample : Completion (Summary unit unit unit unit) :=
  buildAnalysis unit (fun _ p => p) (fun p => p) unit unit unit unit
    unit unit unit (fun _ => None) (fun _ => None) (fun _ => None)
    (fun _ => None) (fun _ _ => Return tt) (fun _ _ => Return tt)
    (fun _ _ => Return tt) (fun _ _ => Return tt) sampleMembers [].

Definition sampleSummary : Summary unit unit unit unit :=
  Eval vm_compute in
    match buildSample with
    | Return s => s
    | Throw _ => {| analysis := emptyContainer unit unit unit unit;
                    namespaces := [] |}
    end.

Lemma buildAnalysis_places_witness :
  buildSample = Return sampleSummary /\
  exists cont,
    container unit unit unit unit sampleSummary (Some (js "Polymer"))
    = Some cont /\
    map Return (c_elements unit unit unit unit cont)
    = [serializeElement (fun _ p => p) (fun p => p)
         (namedElement (js "Polymer.Foo")) []].
Proof.
  assert (buildSample = Return sampleSummary) as Hbuild
    by (vm_compute; reflexivity).
  split; [exact Hbuild|]. unfold buildSample in Hbuild.
  apply buildAnalysis_places in Hbuild as (_ & _ & _ & Hplaced).
  destruct (Hplaced (Some (js "Polymer"))) as (cont & Hcont & _ & Hel & _).
  - right. exists (js "Polymer"). split; [reflexivity|].
    apply list_elem_of_singleton. reflexivity.
  - exists cont. split; [exact Hcont|]. exact Hel.
Defined.

End AnalysisSummary.

(** * More on the transitive scan: what is settled stays, and an import
      carries an error only when its scan failed *)

Module ScanProperties.
Import AnalysisContext TransitiveScan.

Section Scan.
Variable resolveUrl : list N -> list N.
Variable localScan : list N -> Completion ScannedDocument.

(** A scan runs on from [s] to [s'] by steps of its own and by calls of
    [scan] from outside. *)
Inductive continues : State -> State -> Prop :=
  | continues_here s : continues s s
  | continues_call s url s' :
      continues (called s url) s' -> continues s s'
  | continues_step s s1 s' :
      step resolveUrl localScan s s1 -> continues s1 s' -> continues s s'.

Lemma reachable_continues s s' :
  reachable resolveUrl localScan s -> continues s s' ->
  reachable resolveUrl localScan s'.
Proof.
  intros Hs Hrun. induction Hrun as [s|s url s' _ IH|s s1 s' Hstep _ IH].
  - exact Hs.
  - apply IH. now apply reachable_call.
  - apply IH. now apply (reachable_step _ _ s).
Qed.

Lemma settled_step s s' u p :
  step resolveUrl localScan s s' ->
  dependenciesScannedPromises s !! u = Some p -> isSettled p = true ->
  dependenciesScannedPromises s' !! u = Some p.
Proof.
  intros Hstep Hu Hp.
  destruct Hstep as [s u0 d H0 _|s u0 e H0 _|s u0 d H0 _| |]; cbn;
    try exact Hu;
    (assert (u0 <> u) as Hne
       by (intros ->; rewrite Hu in H0; injection H0 as ->; discriminate));
    rewrite lookup_insert_ne by exact Hne; [|exact Hu|exact Hu].
  now apply scanImports_old.
Qed.

(** Every error that an import carries is explained by the rejected scan
    of the URL that the import names. *)
Definition explained (s : State) : Prop :=
  forall u i x,
    importError s !! (u, i) = Some x ->
    exists d url e,
      localScan u = Return d /\ importsOf d !! i = Some url /\
      dependenciesScannedPromises s !! resolveUrl url = Some (Rejected e) /\
      x = orEmpty e.

Lemma explained_kept s s' :
  explained s -> importError s' = importError s ->
  (forall u p, dependenciesScannedPromises s !! u = Some p ->
               isSettled p = true ->
               dependenciesScannedPromises s' !! u = Some p) ->
  explained s'.
Proof.
  intros Hs Herrors Hkept u i x Hx. rewrite Herrors in Hx.
  destruct (Hs u i x Hx) as (d & url & e & Hd & Hi & He & ->).
  exists d, url, e. repeat split; try assumption. now apply Hkept.
Qed.

Lemma explained_reachable s :
  reachable resolveUrl localScan s -> explained s.
Proof.
  induction 1 as [|s url Hs IH|s s' Hs IH Hstep].
  - intros u i x Hx. cbn in Hx. now rewrite lookup_empty in Hx.
  - apply (explained_kept s); [exact IH|reflexivity|].
    intros u p Hu _. cbn. now apply getOrCompute_old.
  - pose proof (fun u p => settled_step s s' u p Hstep) as Hkept.
    apply consistent_reachable in Hs.
    destruct Hstep as [s u0 d H0 Hd|s u0 e H0 He|s u0 d H0 Hready
                      |s before after v import error HR Hv
                      |s before after v import d HR Hv].
    + apply (explained_kept s); [exact IH| |exact Hkept].
      cbn. now rewrite scanImports_importError.
    + now apply (explained_kept s).
    + now apply (explained_kept s).
    + intros u i x Hx. cbn in Hx.
      destruct (decide (import = (u, i))) as [->|Hne].
      * rewrite lookup_insert_eq in Hx. injection Hx as <-.
        destruct (c_reaction_import _ _ s Hs v u i)
          as (d & url & Hd & Hi & ->).
        { rewrite HR. apply elem_of_app. right. apply elem_of_cons. now left. }
        exists d, url, error. now repeat split.
      * rewrite lookup_insert_ne in Hx by exact Hne.
        destruct (IH u i x Hx) as (d & url & e & Hd & Hi & He & ->).
        exists d, url, e. now repeat split.
    + now apply (explained_kept s).
Qed.

(** X16: An import carries an error only when the scan of the URL it names
    was rejected, which happens only when the local scan of that URL failed;
    the error field then holds what that local scan threw, or the empty
    string when it threw [undefined], [null] or the empty string. *)
Theorem import_error_only_from_failed_scan s u i x :
  reachable resolveUrl localScan s ->
  importError s !! (u, i) = Some x ->
  exists d url e,
    localScan u = Return d /\ importsOf d !! i = Some url /\
    dependenciesScannedPromises s !! resolveUrl url = Some (Rejected e) /\
    localScan (resolveUrl url) = Throw e /\
    x = orEmpty e.
Proof.
  intros Hs Hx.
  destruct (explained_reachable s Hs u i x Hx)
    as (d & url & e & Hd & Hi & He & ->).
  exists d, url, e. repeat split; try assumption.
  apply consistent_reachable in Hs.
  now apply (c_rejected _ _ s Hs).
Qed.

(** X17: What a scan has settled stays as it is while scans run on and while
    [scan] is called again: a fulfilled or rejected promise keeps its
    document or its error, and an error field that was set keeps its value. *)
Theorem scan_results_final s s' :
  reachable resolveUrl localScan s -> continues s s' ->
  (forall u p,
      dependenciesScannedPromises s !! u = Some p -> isSettled p = true ->
      dependenciesScannedPromises s' !! u = Some p) /\
  (forall u i x,
      importError s !! (u, i) = Some x -> importError s' !! (u, i) = Some x).
Proof.
  intros Hs Hrun.
  assert (forall u p,
            dependenciesScannedPromises s !! u = Some p ->
            isSettled p = true ->
            dependenciesScannedPromises s' !! u = Some p) as Hpromises.
  { clear Hs. induction Hrun as [s|s url s' _ IH|s s1 s' Hstep _ IH];
      intros u p Hu Hp.
    - exact Hu.
    - apply IH; [|exact Hp]. cbn. now apply getOrCompute_old.
    - apply IH; [|exact Hp]. now apply (settled_step s). }
  split; [exact Hpromises|].
  intros u i x Hx.
  assert (is_Some (importError s' !! (u, i))) as [x' Hx'].
  { clear Hs Hpromises.
    assert (is_Some (importError s !! (u, i))) as Hsome by eauto.
    clear Hx. induction Hrun as [s|s url s' _ IH|s s1 s' Hstep _ IH].
    - exact Hsome.
    - now apply IH.
    - apply IH. destruct Hstep; cbn; try exact Hsome.
      + now rewrite scanImports_importError.
      + destruct (decide (import = (u, i))) as [->|Hne].
        * rewrite lookup_insert_eq. eauto.
        * now rewrite lookup_insert_ne by exact Hne. }
  rewrite Hx'. f_equal.
  pose proof (reachable_continues s s' Hs Hrun) as Hs'.
  destruct (explained_reachable s Hs u i x Hx)
    as (d & url & e & Hd & Hi & He & ->).
  destruct (explained_reachable s' Hs' u i x' Hx')
    as (d' & url' & e' & Hd' & Hi' & He' & ->).
  assert (d' = d) as -> by congruence.
  assert (url' = url) as -> by congruence.
  apply Hpromises in He; [|reflexivity]. congruence.
Qed.

(** ** At most one local scan for a URL *)

(** A scan runs on from [s] to [s'], scanning locally the URLs of [log] on
    the way, in that order. *)
Inductive runs : State -> list (list N) -> State -> Prop :=
  | runs_here s : runs s [] s
  | runs_call s url log s' : runs (called s url) log s' -> runs s log s'
  | runs_local_ok s u scannedDocument log s' :
      dependenciesScannedPromises s !! u = Some AwaitingLocal ->
      localScan u = Return scannedDocument ->
      runs (localScanned resolveUrl s u scannedDocument) log s' ->
      runs s (u :: log) s'
  | runs_local_fail s u error log s' :
      dependenciesScannedPromises s !! u = Some AwaitingLocal ->
      localScan u = Throw error ->
      runs (localFailed s u error) log s' ->
      runs s (u :: log) s'
  | runs_ready s u scannedDocument log s' :
      dependenciesScannedPromises s !! u
        = Some (AwaitingReady scannedDocument) ->
      whenReadyResolves (dependencyGraph s) u ->
      runs (readied s u scannedDocument) log s' ->
      runs s log s'
  | runs_catch s before after v import error log s' :
      reactions s = before ++ (v, import) :: after ->
      dependenciesScannedPromises s !! v = Some (Rejected error) ->
      runs (reacted s (before ++ after) import (Some error)) log s' ->
      runs s log s'
  | runs_pass s before after v import scannedDocument log s' :
      reactions s = before ++ (v, import) :: after ->
      dependenciesScannedPromises s !! v = Some (Fulfilled scannedDocument) ->
      runs (reacted s (before ++ after) import None) log s' ->
      runs s log s'.

Lemma runs_continues s log s' : runs s log s' -> continues s s'.
Proof.
  induction 1 as [s|s url log s' _ IH|s u d log s' Hu Hd _ IH
                 |s u e log s' Hu He _ IH|s u d log s' Hu Hready _ IH
                 |s before after v import error log s' HR Hv _ IH
                 |s before after v import d log s' HR Hv _ IH].
  - apply continues_here.
  - now apply (continues_call s url).
  - apply (continues_step s (localScanned resolveUrl s u d)); [|exact IH].
    now apply step_local_ok.
  - apply (continues_step s (localFailed s u e)); [|exact IH].
    now apply step_local_fail.
  - apply (continues_step s (readied s u d)); [|exact IH].
    now apply step_ready.
  - apply (continues_step s (reacted s (before ++ after) import (Some error)));
      [|exact IH].
    now apply (step_catch _ _ s before after v).
  - apply (continues_step s (reacted s (before ++ after) import None));
      [|exact IH].
    now apply (step_pass _ _ s before after v import d).
Qed.

(** The local scan of [u] has not begun. *)
Definition unscanned (s : State) (u : list N) : Prop :=
  dependenciesScannedPromises s !! u = None \/
  dependenciesScannedPromises s !! u = Some AwaitingLocal.

Lemma unscanned_insert s u p v :
  p <> AwaitingLocal ->
  (dependenciesScannedPromises s !! u = Some AwaitingLocal \/
   exists d, dependenciesScannedPromises s !! u = Some (AwaitingReady d)) ->
  (<[u := p]> (dependenciesScannedPromises s) !! v = None \/
   <[u := p]> (dependenciesScannedPromises s) !! v = Some AwaitingLocal) ->
  v <> u /\ unscanned s v.
Proof.
  intros Hp Hu Hv. destruct (decide (u = v)) as [->|Hne].
  - rewrite lookup_insert_eq in Hv. destruct Hv as [[=]|[= ->]].
    contradiction.
  - rewrite lookup_insert_ne in Hv by exact Hne. split; [congruence|exact Hv].
Qed.

Lemma unscanned_scanImports u imports : forall i s v,
  unscanned (scanImports resolveUrl u i imports s) v -> unscanned s v.
Proof.
  intros i s v Hv. unfold unscanned in *.
  destruct (dependenciesScannedPromises s !! v) as [p|] eqn:Hp;
    [|now left].
  rewrite (scanImports_old resolveUrl u imports i s v p Hp) in Hv.
  exact Hv.
Qed.

Lemma unscanned_called s url v : unscanned (called s url) v -> unscanned s v.
Proof.
  unfold unscanned. cbn.
  destruct (dependenciesScannedPromises s !! v) as [p|] eqn:Hp;
    [|now left].
  now rewrite (getOrCompute_old _ url v p Hp).
Qed.

(** X18: However the scans run and however often [scan] is called, no URL is
    scanned locally twice: the local scans of a run are scans of different
    URLs, and each of them is the scan of a URL whose local scan had not
    begun when the run started. *)
Theorem local_scan_at_most_once s log s' :
  runs s log s' ->
  NoDup log /\ Forall (unscanned s) log.
Proof.
  induction 1 as [s|s url log s' _ [Hnodup Hall]
                 |s u d log s' Hu Hd _ [Hnodup Hall]
                 |s u e log s' Hu He _ [Hnodup Hall]
                 |s u d log s' Hu Hready _ [Hnodup Hall]
                 |s before after v import error log s' HR Hv _ [Hnodup Hall]
                 |s before after v import d log s' HR Hv _ [Hnodup Hall]].
  - split; constructor.
  - split; [exact Hnodup|].
    eapply Forall_impl; [exact Hall|]. apply unscanned_called.
  - assert (forall v, unscanned (localScanned resolveUrl s u d) v ->
                      v <> u /\ unscanned s v) as Hback.
    { intros v Hv. unfold unscanned in Hv. cbn in Hv.
      destruct (decide (u = v)) as [->|Hne].
      - rewrite lookup_insert_eq in Hv. now destruct Hv as [[=]|[=]].
      - rewrite lookup_insert_ne in Hv by exact Hne.
        split; [congruence|].
        apply (unscanned_scanImports u (importsOf d) 0
                 (set_graph s _)) in Hv. exact Hv. }
    rewrite Forall_forall in Hall. split.
    + constructor; [|exact Hnodup]. intros Hin.
      now destruct (Hback u (Hall u Hin)).
    + constructor; [now right|]. apply Forall_forall. intros v Hv.
      now apply Hback, Hall.
  - assert (forall v, unscanned (localFailed s u e) v ->
                      v <> u /\ unscanned s v) as Hback.
    { intros v Hv. unfold unscanned in Hv. cbn in Hv.
      apply (unscanned_insert s u (Rejected e) v); [discriminate| |exact Hv].
      now left. }
    rewrite Forall_forall in Hall. split.
    + constructor; [|exact Hnodup]. intros Hin.
      now destruct (Hback u (Hall u Hin)).
    + constructor; [now right|]. apply Forall_forall. intros v Hv.
      now apply Hback, Hall.
  - split; [exact Hnodup|].
    eapply Forall_impl; [exact Hall|]. intros v Hv.
    unfold unscanned in Hv. cbn in Hv.
    eapply (unscanned_insert s u _ v); [| |exact Hv].
    + now destruct (whenReadyFailure _ _).
    + right. eauto.
  - split; [exact Hnodup|]. exact Hall.
  - split; [exact Hnodup|]. exact Hall.
Qed.

End Scan.

(** *** A closed instance: the import of [c.html] after its scan failed *)

Definition afterFailure : State :=
  reacted (localFailed afterLocalScan urlC cannotLoad)
    [(urlB, (urlA, 0%nat))] (urlA, 1%nat) (Some cannotLoad).

Lemma afterFailure_reachable :
  reachable (fun u => u) cyclicWorld afterFailure.
Proof.
  apply (reachable_step _ _ (localFailed afterLocalScan urlC cannotLoad)).
  - apply (reachable_step _ _ afterLocalScan).
    + apply (reachable_step _ _ (initial urlA)).
      * apply reachable_call, reachable_fresh.
      * apply step_local_ok; reflexivity.
    + apply step_local_fail; reflexivity.
  - apply (step_catch _ _ _ [(urlB, (urlA, 0%nat))] [] urlC (urlA, 1%nat));
      reflexivity.
Qed.

Lemma import_error_only_from_failed_scan_witness :
  importError afterFailure !! (urlA, 1%nat) = Some cannotLoad /\
  exists d url e,
    cyclicWorld urlA = Return d /\ importsOf d !! 1%nat = Some url /\
    dependenciesScannedPromises afterFailure !! url = Some (Rejected e) /\
    cyclicWorld url = Throw e /\
    cannotLoad = orEmpty e.
Proof.
  split; [reflexivity|].
  apply (import_error_only_from_failed_scan (fun u => u) cyclicWorld
           afterFailure urlA 1%nat cannotLoad afterFailure_reachable).
  reflexivity.
Defined.

Lemma scan_results_final_witness :
  (forall u p,
      dependenciesScannedPromises afterFailure !! u = Some p ->
      isSettled p = true ->
      dependenciesScannedPromises (called afterFailure urlC) !! u = Some p) /\
  (forall u i x,
      importError afterFailure !! (u, i) = Some x ->
      importError (called afterFailure urlC) !! (u, i) = Some x).
Proof.
  apply (scan_results_final (fun u => u) cyclicWorld afterFailure
           (called afterFailure urlC) afterFailure_reachable).
  apply (continues_call _ _ _ urlC), continues_here.
Defined.

Lemma local_scan_at_most_once_witness :
  NoDup [urlA; urlC] /\
  Forall (unscanned (initial urlA)) [urlA; urlC].
Proof.
  apply (local_scan_at_most_once (fun u => u) cyclicWorld (initial urlA)
           [urlA; urlC] afterFailure).
  apply (runs_local_ok _ _ _ urlA docA); [reflexivity..|].
  apply (runs_local_fail _ _ _ urlC cannotLoad); [reflexivity..|].
  apply (runs_catch _ _ _ [(urlB, (urlA, 0%nat))] [] urlC (urlA, 1%nat)
           cannotLoad); [reflexivity..|].
  apply runs_here.
Defined.

End ScanProperties.

(** * More on the analysis context: the roots of an analysis and the
      documents that [getDocument] hands out *)

Module AnalysisProperties.
Import AnalysisContext.

Section Analyze.
Variable canResolve : list N -> bool.
Variable resolve : list N -> list N.
Variable extname : list N -> list N.
Variable Document AnalysisResult : Type.
Variable newDocument : ScannedDocument -> option AnalysisResult -> Document.
Variable resolveDocument :
  Document -> AnalysisCache Document -> AnalysisCache Document.
Variable _languageAnalyzers : gmap (list N) (list N -> AnalysisResult).

Local Abbreviation resolveUrl := (resolveUrl canResolve resolve).
Local Abbreviation getDocument :=
  (getDocument canResolve resolve extname Document AnalysisResult
     newDocument resolveDocument _languageAnalyzers).

(** What [await this.scan(url)] comes to for each resolved URL.  The scans
    themselves read and write neither the failed documents nor the analyzed
    documents, so the cache that [_analyze] is given below is the cache with
    the scanned documents as the scans have left them. *)
Variable scan : list N -> Completion ScannedDocument.

Definition set_failed (cache : AnalysisCache Document)
    (failed : gmap (list N) Warning) : AnalysisCache Document :=
  {| failedDocuments := failed;
     analyzedDocuments := analyzedDocuments cache;
     analyzedDocumentPromises := analyzedDocumentPromises cache;
     scannedDocuments := scannedDocuments cache |}.

(** The function that [_analyze] maps over the resolved URLs, once the scan
    of [url] is over. *)
Definition scanRoot (cache : AnalysisCache Document) (url : jsstring)
  : AnalysisCache Document * option ScannedDocument :=
  match scan url with
  | Return scannedResult =>
      (set_failed cache (delete url (failedDocuments cache)),
       Some scannedResult)
  | Throw (WarningCarryingException warning) =>
      (set_failed cache (<[url := warning]> (failedDocuments cache)), None)
  | Throw _ => (cache, None)
  end.

Fixpoint scanRoots (cache : AnalysisCache Document)
    (resolvedUrls : list (list N))
  : AnalysisCache Document * list ScannedDocument :=
  match resolvedUrls with
  | [] => (cache, [])
  | url :: rest =>
      let '(cache, scanned) := scanRoot cache url in
      let '(cache, scannedDocuments) := scanRoots cache rest in
      (cache, from_option (fun d => [d]) [] scanned ++ scannedDocuments)
  end.

(** [scannedDocuments.map((d) => this.getDocument(d.url))] *)
Fixpoint getDocuments (cache : AnalysisCache Document)
    (scannedDocuments : list ScannedDocument)
  : AnalysisCache Document * list (Document + Warning) :=
  match scannedDocuments with
  | [] => (cache, [])
  | d :: rest =>
      let '(cache, document) := getDocument cache (sd_url d) in
      let '(cache, documents) := getDocuments cache rest in
      (cache, document :: documents)
  end.

Definition _analyze (cache : AnalysisCache Document)
    (resolvedUrls : list (list N))
  : AnalysisCache Document * list (Document + Warning) :=
  let '(cache, scannedDocuments) := scanRoots cache resolvedUrls in
  getDocuments cache scannedDocuments.

(** ** What [Document.resolve] is taken to leave alone: it records no
    failure, and it neither drops nor replaces an analyzed document. *)
Definition keepsFailures : Prop :=
  forall document cache,
    failedDocuments (resolveDocument document cache) = failedDocuments cache.

Definition keepsAnalyzed : Prop :=
  forall document cache url analyzed,
    analyzedDocuments cache !! url = Some analyzed ->
    analyzedDocuments (resolveDocument document cache) !! url
    = Some analyzed.

Lemma getDocument_failures cache url :
  keepsFailures ->
  failedDocuments (getDocument cache url).1 = failedDocuments cache.
Proof.
  intros Hkeeps. unfold AnalysisContext.getDocument.
  destruct (failedDocuments cache !! _); [reflexivity|].
  destruct (analyzedDocuments cache !! _); [reflexivity|].
  destruct (scannedDocuments cache !! _); [|reflexivity].
  cbn. now rewrite Hkeeps.
Qed.

Lemma getDocuments_failures scannedDocuments : forall cache,
  keepsFailures ->
  failedDocuments (getDocuments cache scannedDocuments).1
  = failedDocuments cache.
Proof.
  induction scannedDocuments as [|d rest IH]; intros cache Hkeeps; cbn;
    [reflexivity|].
  pose proof (getDocument_failures cache (sd_url d) Hkeeps) as Hone.
  destruct (getDocument cache (sd_url d)) as [cache1 document].
  specialize (IH cache1 Hkeeps).
  destruct (getDocuments cache1 rest) as [cache2 documents].
  cbn in *. congruence.
Qed.

Lemma scanRoots_failures resolvedUrls : forall cache url,
  failedDocuments (scanRoots cache resolvedUrls).1 !! url
  = if bool_decide (url ∈ resolvedUrls) then
      match scan url with
      | Return _ => None
      | Throw (WarningCarryingException warning) => Some warning
      | Throw _ => failedDocuments cache !! url
      end
    else failedDocuments cache !! url.
Proof.
  induction resolvedUrls as [|root rest IH]; intros cache url.
  - cbn. now rewrite bool_decide_eq_false_2 by apply not_elem_of_nil.
  - cbn [scanRoots].
    destruct (scanRoot cache root) as [cache1 scanned] eqn:Hroot.
    specialize (IH cache1 url).
    destruct (scanRoots cache1 rest) as [cache2 scannedDocuments].
    cbn [fst] in *. rewrite IH. clear IH.
    assert (failedDocuments cache1 !! url
            = if decide (root = url) then
                match scan url with
                | Return _ => None
                | Throw (WarningCarryingException warning) => Some warning
                | Throw _ => failedDocuments cache !! url
                end
              else failedDocuments cache !! url) as Hone.
    { unfold scanRoot in Hroot.
      destruct (decide (root = url)) as [->|Hne].
      - destruct (scan url) as [d|[]]; injection Hroot as <- _; cbn;
          try reflexivity.
        + apply lookup_delete_eq.
        + apply lookup_insert_eq.
      - destruct (scan root) as [d|[]]; injection Hroot as <- _; cbn;
          try reflexivity.
        + now apply lookup_delete_ne.
        + now apply lookup_insert_ne. }
    rewrite Hone.
    destruct (decide (root = url)) as [->|Hne].
    + rewrite (bool_decide_eq_true_2 (url ∈ url :: rest))
        by (apply elem_of_cons; now left).
      destruct (bool_decide (url ∈ rest)); [|reflexivity].
      now destruct (scan url) as [d|[]].
    + destruct (decide (url ∈ rest)) as [Hin|Hout].
      * rewrite (bool_decide_eq_true_2 _ Hin).
        now rewrite bool_decide_eq_true_2 by (apply elem_of_cons; now right).
      * rewrite (bool_decide_eq_false_2 _ Hout).
        rewrite bool_decide_eq_false_2; [reflexivity|].
        intros [->|Hin]%elem_of_cons; contradiction.
Qed.

(** X19: After [_analyze], the failed documents say of every root what its
    scan came to: the warning of the exception when the scan threw a
    [WarningCarryingException], which [getDocument] then returns for the
    root; nothing when the scan returned, whatever was recorded before; and
    what was recorded before when the scan threw anything else. The entries
    of other URLs are left alone. *)
Theorem _analyze_roots cache resolvedUrls url :
  keepsFailures ->
  let cache' := (_analyze cache resolvedUrls).1 in
  (url ∉ resolvedUrls ->
   failedDocuments cache' !! url = failedDocuments cache !! url) /\
  (url ∈ resolvedUrls ->
   match scan url with
   | Return _ => failedDocuments cache' !! url = None
   | Throw (WarningCarryingException warning) =>
       failedDocuments cache' !! url = Some warning /\
       (resolveUrl url = url ->
        getDocument cache' url = (cache', inr warning))
   | Throw _ => failedDocuments cache' !! url = failedDocuments cache !! url
   end).
Proof.
  intros Hkeeps cache'.
  assert (failedDocuments cache' !! url
          = failedDocuments (scanRoots cache resolvedUrls).1 !! url) as Hfailed.
  { subst cache'. unfold _analyze.
    destruct (scanRoots cache resolvedUrls) as [cache1 scannedDocuments].
    cbn [fst]. now rewrite getDocuments_failures. }
  rewrite scanRoots_failures in Hfailed. split.
  - intros Hout. now rewrite (bool_decide_eq_false_2 _ Hout) in Hfailed.
  - intros Hin. rewrite (bool_decide_eq_true_2 _ Hin) in Hfailed.
    destruct (scan url) as [d|[]]; try exact Hfailed.
    split; [exact Hfailed|]. intros Hresolved.
    unfold AnalysisContext.getDocument. now rewrite Hresolved, Hfailed.
Qed.

(** X20: [getDocument] hands out the same result when it is asked again: the
    document that it made or found is found again, no second document is
    made for the URL, and the cache is not changed by the second call. *)
Theorem getDocument_again cache url cache' result :
  keepsFailures -> keepsAnalyzed ->
  getDocument cache url = (cache', result) ->
  getDocument cache' url = (cache', result).
Proof.
  intros Hfailures Hanalyzed. unfold AnalysisContext.getDocument.
  destruct (failedDocuments cache !! resolveUrl url) as [w|] eqn:Hfailed.
  { intros [= <- <-]. now rewrite Hfailed. }
  destruct (analyzedDocuments cache !! resolveUrl url) as [d|] eqn:Hdoc.
  { intros [= <- <-]. now rewrite Hfailed, Hdoc. }
  destruct (scannedDocuments cache !! resolveUrl url) as [sd|] eqn:Hscanned.
  2: { intros [= <- <-]. now rewrite Hfailed, Hdoc, Hscanned. }
  intros [= <- <-].
  rewrite Hfailures. cbn [failedDocuments set_analyzed]. rewrite Hfailed.
  erewrite Hanalyzed; [reflexivity|].
  cbn. apply lookup_insert_eq.
Qed.

End Analyze.

(** *** A closed instance *)

Definition parseFailure : Warning :=
  {| w_sourceRange :=
       {| file := js "a.html"; start := {| line := 3; column := 1 |};
          end_ := {| line := 3; column := 2 |} |};
     w_code := js "parse-error"; w_message := js "Unexpected token";
     w_severity := ERROR |}.

Definition failingScan (url : list N) : Completion ScannedDocument :=
  if decide (url = js "a.html")
  then Throw (WarningCarryingException parseFailure)
  else Return {| sd_url := url; getNestedFeatures := [] |}.

Definition scannedCache : AnalysisCache unit :=
  {| failedDocuments := ∅; analyzedDocuments := ∅;
     analyzedDocumentPromises := ∅;
     scannedDocuments :=
       {[ js "b.html" := {| sd_url := js "b.html";
                            getNestedFeatures := [] |} ]} |}.

Lemma _analyze_roots_witness :
  keepsFailures unit (fun _ c => c) /\
  let cache' :=
    (_analyze (fun _ => false) (fun u => u) (fun u => u) unit unit
       (fun _ _ => tt) (fun _ c => c) ∅ failingScan scannedCache
       [js "a.html"; js "b.html"]).1 in
  failedDocuments cache' !! js "a.html" = Some parseFailure.
Proof.
  assert (keepsFailures unit (fun _ c => c)) as Hkeeps by (intros d c; reflexivity).
  split; [exact Hkeeps|].
  destruct (_analyze_roots (fun _ => false) (fun u => u) (fun u => u)
              unit unit (fun _ _ => tt) (fun _ c => c) ∅ failingScan
              scannedCache [js "a.html"; js "b.html"] (js "a.html") Hkeeps)
    as [_ Hroot].
  apply Hroot. apply elem_of_cons. now left.
Defined.

Lemma getDocument_again_witness :
  exists cache',
    getDocument (fun _ => false) (fun u => u) (fun u => u) unit unit
      (fun _ _ => tt) (fun _ c => c) ∅ scannedCache (js "b.html")
    = (cache', inl tt) /\
    getDocument (fun _ => false) (fun u => u) (fun u => u) unit unit
      (fun _ _ => tt) (fun _ c => c) ∅ cache' (js "b.html")
    = (cache', inl tt).
Proof.
  eexists. split; [reflexivity|].
  apply (getDocument_again (fun _ => false) (fun u => u) (fun u => u)
           unit unit (fun _ _ => tt) (fun _ c => c) ∅ scannedCache).
  - intros d c. reflexivity.
  - intros d c url analyzed Hurl. exact Hurl.
  - reflexivity.
Defined.

End AnalysisProperties.

(** * The class scanner: classes, custom elements and the calls that
      define them *)

Module ClassScanner.

(** The second argument of a call of [customElements.define]: a class
    expression, known by the identity of its node, or a name. *)
Inductive ElementClassExpression :=
  | ClassExpression (node : N)
  | MaybeChainedIdentifier (name : list N) (sourceRange : option SourceRange).

(** A [Map] with its keys in the order in which they were first set. *)
Fixpoint mapSet {K V} `{EqDecision K} (key : K) (value : V)
    (m : list (K * V)) : list (K * V) :=
  match m with
  | [] => [(key, value)]
  | (k, v) :: rest =>
      if decide (k = key) then (k, value) :: rest
      else (k, v) :: mapSet key value rest
  end.

Fixpoint mapGet {K V} `{EqDecision K} (key : K) (m : list (K * V))
  : option V :=
  match m with
  | [] => None
  | (k, v) :: rest => if decide (k = key) then Some v else mapGet key rest
  end.

Section Scanner.

(** What the three visitors have found, and the parts of the model that
    are made elsewhere. *)
Variable TagNameExpression Jsdoc : Type.
Variable ScannedPolymerElement ScannedPolymerElementMixin : Type.
Variable hasTag : Jsdoc -> list N -> bool.
Variable nodeType : N -> list N.
Variable classAstNode : ScannedPolymerElementMixin -> option N.

Record ElementDefineCall := {
  tagName : TagNameExpression;
  clazz : ElementClassExpression
}.

Record ScannedClass := {
  name : option (list N);
  localName : option (list N);
  astNode : N;
  jsdoc : Jsdoc
}.

Record CustomElementDefinition := {
  ced_clazz : ScannedClass;
  definition : option ElementDefineCall
}.

Variable _makeElementFeature :
  CustomElementDefinition -> Completion ScannedPolymerElement.

Inductive ScannedFeature :=
  | ElementFeature (element : ScannedPolymerElement)
  | ClassFeature (scannedClass : ScannedClass)
  | MixinFeature (mixin : ScannedPolymerElementMixin).

(** The two maps of the calls of [customElements.define]. *)
Definition defineCall_step
    (maps : list (list N * ElementDefineCall) * list (N * ElementDefineCall))
    (defineCall : ElementDefineCall)
  : list (list N * ElementDefineCall) * list (N * ElementDefineCall) :=
  match clazz defineCall with
  | MaybeChainedIdentifier name _ =>
      (mapSet name defineCall maps.1, maps.2)
  | ClassExpression node => (maps.1, mapSet node defineCall maps.2)
  end.

(** [mixinClassExpressions] *)
Definition mixinClassExpressions (mixins : list ScannedPolymerElementMixin)
  : list N :=
  omap classAstNode mixins.

(** [elementDefinitionsByClassName.get(name)] for a name that may be
    undefined, which is no key of the map. *)
Definition getByName (byName : list (list N * ElementDefineCall))
    (name : option (list N)) : option ElementDefineCall :=
  match name with
  | Some name => mapGet name byName
  | None => None
  end.

(** The loop that tells custom elements from other classes. *)
Fixpoint classify (mixinClasses : list N)
    (byName : list (list N * ElementDefineCall))
    (byExpression : list (N * ElementDefineCall))
    (classes : list ScannedClass)
    (customElements : list CustomElementDefinition)
    (normalClasses : list ScannedClass)
  : list CustomElementDefinition * list ScannedClass :=
  match classes with
  | [] => (customElements, normalClasses)
  | clazz :: rest =>
      let continue := classify mixinClasses byName byExpression rest in
      if bool_decide (astNode clazz ∈ mixinClasses)
      then continue customElements normalClasses
      else
        match
          (if decide (nodeType (astNode clazz) = js "ClassExpression")
           then mapGet (astNode clazz) byExpression
           else None)
        with
        | Some definition =>
            continue
              (customElements
               ++ [{| ced_clazz := clazz; definition := Some definition |}])
              normalClasses
        | None =>
            match
              (match getByName byName (name clazz) with
               | Some definition => Some definition
               | None => getByName byName (localName clazz)
               end)
            with
            | Some definition =>
                continue
                  (customElements
                   ++ [{| ced_clazz := clazz;
                          definition := Some definition |}])
                  normalClasses
            | None =>
                if hasTag (jsdoc clazz) (js "polymerElement")
                then continue
                       (customElements
                        ++ [{| ced_clazz := clazz; definition := None |}])
                       normalClasses
                else continue customElements (normalClasses ++ [clazz])
            end
        end
  end.

Fixpoint makeElementFeatures (customElements : list CustomElementDefinition)
    (scannedFeatures : list ScannedFeature)
  : Completion (list ScannedFeature) :=
  match customElements with
  | [] => Return scannedFeatures
  | element :: rest =>
      match _makeElementFeature element with
      | Throw e => Throw e
      | Return feature =>
          makeElementFeatures rest
            (scannedFeatures ++ [ElementFeature feature])
      end
  end.

(** [scan], from what the visitors have found: the classes of the class
    finder, the calls of the finder of [customElements.define] and the
    mixins of the mixin visitor. *)
Definition scan (classes : list ScannedClass)
    (calls : list ElementDefineCall)
    (mixins : list ScannedPolymerElementMixin)
  : Completion (list ScannedFeature) :=
  let '(elementDefinitionsByClassName, elementDefinitionsByClassExpression) :=
    fold_left defineCall_step calls ([], []) in
  let '(customElements, normalClasses) :=
    classify (mixinClassExpressions mixins) elementDefinitionsByClassName
      elementDefinitionsByClassExpression classes [] [] in
  match makeElementFeatures customElements [] with
  | Throw e => Throw e
  | Return scannedFeatures =>
      Return (scannedFeatures ++ map ClassFeature normalClasses
              ++ map MixinFeature mixins)
  end.

(** ** Which call defines a class *)

Definition namedBy (name : list N) (defineCall : ElementDefineCall) : Prop :=
  exists range, clazz defineCall = MaybeChainedIdentifier name range.

#[global] Instance namedBy_dec name defineCall :
  Decision (namedBy name defineCall).
Proof.
  unfold namedBy. destruct (clazz defineCall) as [node|name' range].
  - right. now intros [? [=]].
  - destruct (decide (name' = name)) as [->|Hne].
    + left. now exists range.
    + right. intros [? [=]]. contradiction.
Defined.

Definition definesExpression (node : N) (defineCall : ElementDefineCall)
  : Prop :=
  clazz defineCall = ClassExpression node.

#[global] Instance definesExpression_dec node defineCall :
  Decision (definesExpression node defineCall).
Proof.
  unfold definesExpression. destruct (clazz defineCall) as [node'|name range].
  - destruct (decide (node' = node)) as [->|Hne].
    + now left.
    + right. intros [=]. contradiction.
  - right. discriminate.
Defined.

(** The last call that names [name]; none for a name that is undefined. *)
Definition lastNamed (calls : list ElementDefineCall)
    (name : option (list N)) : option ElementDefineCall :=
  match name with
  | Some name => last (filter (namedBy name) calls)
  | None => None
  end.

(** The call that defines [clazz]: the last call whose second argument is
    the class expression itself, or else the last call that names the class
    by its name, or else by its local name. *)
Definition definitionOf (calls : list ElementDefineCall)
    (clazz0 : ScannedClass) : option ElementDefineCall :=
  match
    (if decide (nodeType (astNode clazz0) = js "ClassExpression")
     then last (filter (definesExpression (astNode clazz0)) calls)
     else None)
  with
  | Some definition => Some definition
  | None =>
      match lastNamed calls (name clazz0) with
      | Some definition => Some definition
      | None => lastNamed calls (localName clazz0)
      end
  end.

Definition isElement (calls : list ElementDefineCall)
    (clazz0 : ScannedClass) : Prop :=
  is_Some (definitionOf calls clazz0)
  \/ hasTag (jsdoc clazz0) (js "polymerElement") = true.

#[global] Instance isElement_dec calls clazz0 :
  Decision (isElement calls clazz0).
Proof. unfold isElement. apply _. Defined.

Lemma map_get_set {K V} `{EqDecision K} (key : K) (value : V) m key' :
  mapGet key' (mapSet key value m)
  = if decide (key = key') then Some value else mapGet key' m.
Proof.
  induction m as [|[k v] m IH]; cbn.
  - destruct (decide (key = key')); reflexivity.
  - destruct (decide (k = key)) as [->|Hne]; cbn.
    + destruct (decide (key = key')); reflexivity.
    + destruct (decide (k = key')) as [->|Hne'].
      * now rewrite decide_False by congruence.
      * exact IH.
Qed.

(** The maps hold, for each key, the last call that has it. *)
Lemma defineCalls_last calls :
  let maps := fold_left defineCall_step calls ([], []) in
  (forall name, mapGet name maps.1 = last (filter (namedBy name) calls)) /\
  (forall node,
      mapGet node maps.2 = last (filter (definesExpression node) calls)).
Proof.
  induction calls as [|defineCall calls IH] using rev_ind; cbn zeta.
  - now split.
  - rewrite fold_left_app. cbn [fold_left]. cbn zeta in IH.
    destruct IH as [Hname Hnode].
    set (maps := fold_left defineCall_step calls ([], [])) in *.
    unfold defineCall_step at 1 2.
    destruct (clazz defineCall) as [node0|name0 range0] eqn:Hclazz;
      cbn [fst snd]; split.
    + intros name. rewrite filter_app, filter_cons_False, filter_nil.
      * now rewrite app_nil_r.
      * unfold namedBy. rewrite Hclazz. now intros [? [=]].
    + intros node. rewrite map_get_set, filter_app, filter_cons, filter_nil.
      destruct (decide (node0 = node)) as [->|Hne].
      * rewrite decide_True by exact Hclazz. now rewrite last_snoc.
      * rewrite decide_False.
        -- now rewrite app_nil_r.
        -- unfold definesExpression. rewrite Hclazz. intros [=]. contradiction.
    + intros name. rewrite map_get_set, filter_app, filter_cons, filter_nil.
      destruct (decide (name0 = name)) as [->|Hne].
      * rewrite decide_True by (now exists range0). now rewrite last_snoc.
      * rewrite decide_False.
        -- now rewrite app_nil_r.
        -- unfold namedBy. rewrite Hclazz. intros [? [=]]. contradiction.
    + intros node. rewrite filter_app, filter_cons_False, filter_nil.
      * now rewrite app_nil_r.
      * unfold definesExpression. now rewrite Hclazz.
Qed.

Lemma classify_filters mixinClasses byName byExpression calls classes :
  (forall name, mapGet name byName = last (filter (namedBy name) calls)) ->
  (forall node,
      mapGet node byExpression
      = last (filter (definesExpression node) calls)) ->
  forall customElements normalClasses,
    let kept := filter (fun c => astNode c ∉ mixinClasses) classes in
    classify mixinClasses byName byExpression classes customElements
      normalClasses
    = (customElements
       ++ map (fun c => {| ced_clazz := c;
                           definition := definitionOf calls c |})
              (filter (isElement calls) kept),
       normalClasses ++ filter (fun c => ~ isElement calls c) kept).
Proof.
  intros Hname Hnode.
  assert (forall name, getByName byName name = lastNamed calls name)
    as Hnamed by (intros [name|]; [apply Hname|reflexivity]).
  induction classes as [|c classes IH]; intros customElements normalClasses;
    cbn zeta.
  - cbn. now rewrite !app_nil_r.
  - cbn [classify]. rewrite filter_cons.
    destruct (decide (astNode c ∈ mixinClasses)) as [Hin|Hout].
    + rewrite (bool_decide_eq_true_2 _ Hin).
      rewrite (decide_False (P := astNode c ∉ mixinClasses))
        by (intros Hnot; contradiction).
      apply IH.
    + rewrite (bool_decide_eq_false_2 _ Hout).
      rewrite (decide_True (P := astNode c ∉ mixinClasses)) by exact Hout.
      rewrite !filter_cons. rewrite !Hnamed, Hnode.
      destruct (if decide (nodeType (astNode c) = js "ClassExpression")
                then last (filter (definesExpression (astNode c)) calls)
                else None) as [d|] eqn:Hexpression.
      { assert (definitionOf calls c = Some d) as Hdef
          by (unfold definitionOf; now rewrite Hexpression).
        rewrite decide_True by (left; rewrite Hdef; eauto).
        rewrite decide_False
          by (intros Hnot; apply Hnot; left; rewrite Hdef; eauto).
        rewrite IH. cbn zeta. cbn [map]. now rewrite Hdef, <- app_assoc. }
      destruct (lastNamed calls (name c)) as [d|] eqn:Hbyname.
      { assert (definitionOf calls c = Some d) as Hdef
          by (unfold definitionOf; now rewrite Hexpression, Hbyname).
        rewrite decide_True by (left; rewrite Hdef; eauto).
        rewrite decide_False
          by (intros Hnot; apply Hnot; left; rewrite Hdef; eauto).
        rewrite IH. cbn zeta. cbn [map]. now rewrite Hdef, <- app_assoc. }
      destruct (lastNamed calls (localName c)) as [d|] eqn:Hlocal.
      { assert (definitionOf calls c = Some d) as Hdef
          by (unfold definitionOf; now rewrite Hexpression, Hbyname, Hlocal).
        rewrite decide_True by (left; rewrite Hdef; eauto).
        rewrite decide_False
          by (intros Hnot; apply Hnot; left; rewrite Hdef; eauto).
        rewrite IH. cbn zeta. cbn [map]. now rewrite Hdef, <- app_assoc. }
      assert (definitionOf calls c = None) as Hdef
        by (unfold definitionOf; now rewrite Hexpression, Hbyname, Hlocal).
      destruct (hasTag (jsdoc c) (js "polymerElement")) eqn:Htag.
      * rewrite decide_True by (now right).
        rewrite decide_False by (intros Hnot; apply Hnot; now right).
        rewrite IH. cbn zeta. cbn [map]. now rewrite Hdef, <- app_assoc.
      * assert (~ isElement calls c) as Hnot.
        { unfold isElement. rewrite Hdef, Htag.
          intros [[? [=]]|[=]]. }
        rewrite decide_False by exact Hnot.
        rewrite decide_True by exact Hnot.
        rewrite IH. cbn zeta. now rewrite <- app_assoc.
Qed.

Lemma makeElementFeatures_all customElements :
  forall scannedFeatures result,
    makeElementFeatures customElements scannedFeatures = Return result ->
    exists elements,
      result = scannedFeatures ++ map ElementFeature elements /\
      Forall2 (fun element definition =>
                 _makeElementFeature definition = Return element)
              elements customElements.
Proof.
  induction customElements as [|c rest IH]; intros scannedFeatures result;
    cbn.
  - intros [= <-]. exists []. split; [now rewrite app_nil_r|constructor].
  - destruct (_makeElementFeature c) as [feature|e] eqn:Hmake;
      [|discriminate].
    intros (elements & -> & Hall)%IH.
    exists (feature :: elements). split.
    + now rewrite <- app_assoc.
    + now constructor.
Qed.

(** X21: When [scan] returns, every class that the class finder found is
    reported once or is the class of a mixin: the features are the custom
    elements, then the other classes, then the mixins, each group in the
    order in which it was found. A class is made a custom element when a
    call of [customElements.define] defines it or its documentation has the
    tag [polymerElement]; the call it is made with is the last call whose
    second argument is the class expression itself, or else the last call
    that names it by its name, or else by its local name. *)
Theorem scan_reports_each_class_once classes calls mixins scannedFeatures :
  scan classes calls mixins = Return scannedFeatures ->
  let kept :=
    filter (fun c => astNode c ∉ mixinClassExpressions mixins) classes in
  exists elements,
    scannedFeatures
    = map ElementFeature elements
      ++ map ClassFeature (filter (fun c => ~ isElement calls c) kept)
      ++ map MixinFeature mixins /\
    Forall2
      (fun element c =>
         _makeElementFeature
           {| ced_clazz := c; definition := definitionOf calls c |}
         = Return element)
      elements (filter (isElement calls) kept).
Proof.
  unfold scan. destruct (defineCalls_last calls) as [Hname Hnode].
  cbn zeta in Hname, Hnode.
  destruct (fold_left defineCall_step calls ([], [])) as [byName byExpr].
  cbn [fst snd] in Hname, Hnode.
  rewrite (classify_filters _ _ _ calls classes Hname Hnode). cbn zeta.
  cbn [app].
  destruct (makeElementFeatures _ []) as [made|e] eqn:Hmade; [|discriminate].
  intros [= <-].
  apply makeElementFeatures_all in Hmade as (elements & -> & Hall).
  exists elements. split; [reflexivity|].
  now apply Forall2_fmap_r in Hall.
Qed.

End Scanner.

(** *** A closed instance: a class that two calls define, a class with
    the tag, a plain class and the class of a mixin *)

Definition classNamed (n : jsstring) (node : N) (tagged : bool)
  : ScannedClass bool :=
  {| name := Some n; localName := Some n; astNode := node; jsdoc := tagged |}.

Definition defineNamed (tag n : jsstring) : ElementDefineCall (list N) :=
  {| tagName := tag; clazz := MaybeChainedIdentifier n None |}.

Definition sampleClasses : list (ScannedClass bool) :=
  [classNamed (js "A") 1 false; classNamed (js "B") 2 true;
   classNamed (js "C") 3 false; classNamed (js "M") 4 false].

Definition sampleCalls : list (ElementDefineCall (list N)) :=
  [defineNamed (js "x-a") (js "A"); defineNamed (js "y-a") (js "A")].

Definition sampleScan
  : Completion
      (list (ScannedFeature bool (CustomElementDefinition (list N) bool)
               (option N))) :=
  scan (list N) bool (CustomElementDefinition (list N) bool) (option N)
    (fun tagged _ => tagged) (fun _ => js "ClassDeclaration") (fun m => m)
    (fun d => Return d) sampleClasses sampleCalls [Some 4%N].

Definition sampleFeatures
  : list (ScannedFeature bool (CustomElementDefinition (list N) bool)
            (option N)) :=
  Eval vm_compute in
    match sampleScan with
    | Return scannedFeatures => scannedFeatures
    | Throw _ => []
    end.

Lemma scan_reports_each_class_once_witness :
  sampleScan = Return sampleFeatures /\
  exists elements,
    sampleFeatures
    = map (ElementFeature _ _ _) elements
      ++ [ClassFeature _ _ _ (classNamed (js "C") 3 false)]
      ++ [MixinFeature _ _ _ (Some 4%N)] /\
    Forall2
      (fun element c =>
         {| ced_clazz := c;
            definition :=
              definitionOf (list N) bool (fun _ => js "ClassDeclaration")
                sampleCalls c |}
         = element)
      elements
      [classNamed (js "A") 1 false; classNamed (js "B") 2 true].
Proof.
  assert (sampleScan = Return sampleFeatures) as Hscan
    by (vm_compute; reflexivity).
  split; [exact Hscan|]. unfold sampleScan in Hscan.
  apply scan_reports_each_class_once in Hscan as (elements & Heq & Hall).
  exists elements. split; [exact Heq|].
  eapply Forall2_impl; [exact Hall|]. cbn. now intros e c [= ->].
Defined.

End ClassScanner.

(** * Scanning a parsed document and its inline documents *)

Module LocalScan.
Import AnalysisContext.

Record LocationOffset := {
  lo_line : N;
  lo_col : N;
  lo_filename : list N
}.

Record InlineDocInfo := {
  locationOffset : LocationOffset;
  idi_astNode : N
}.

(** The members of a [ScannedInlineDocument] that the scan reads. *)
Record InlineDocument := {
  i_type : list N;
  i_contents : list N;
  i_line : N;
  i_col : N;
  i_attachedComment : option (list N);
  i_astNode : N
}.

Section Pipeline.
Context `{JsRuntime}.

(** Modelled from the spec: a parsed document has a type and a URL, and a
    scanned document has its URL and whether it is inline from the parsed
    document that it is made of (model/document is not among the
    sources). *)
Variable ParsedDocument : Type.
Variable typeOf : ParsedDocument -> list N.
Variable urlOf : ParsedDocument -> list N.
Variable isInlineOf : ParsedDocument -> bool.

(** Scanned elements with their method [applyHtmlComment], and the other
    features, all made elsewhere. *)
Variable Element Other : Type.
Variable applyHtmlComment : Element -> option (list N) -> Element.

#[warnings="-register-all"]
Inductive ScannedFeature :=
  | ScannedInlineDocument (inline : InlineDocument)
      (scannedDocument : option ScannedDocument)
  | ScannedElement (element : Element)
  | OtherFeature (feature : Other)
with ScannedDocument :=
  | newScannedDocument (document : ParsedDocument)
      (features : list ScannedFeature) (warnings : list Warning).

Definition document (d : ScannedDocument) : ParsedDocument :=
  match d with newScannedDocument document _ _ => document end.
Definition features (d : ScannedDocument) : list ScannedFeature :=
  match d with newScannedDocument _ features _ => features end.
Definition warnings (d : ScannedDocument) : list Warning :=
  match d with newScannedDocument _ _ warnings => warnings end.
Definition url (d : ScannedDocument) : list N := urlOf (document d).
Definition isInline (d : ScannedDocument) : bool := isInlineOf (document d).

(** The table of scanners by document type, and [scan(document, scanners)]
    of scanning/scan. *)
Variable Scanners : Type.
Variable _scanners : gmap (list N) Scanners.
Variable scanWith :
  ParsedDocument -> Scanners -> Completion (list ScannedFeature).

Variable parsers :
  gmap (list N)
    (list N -> list N -> option InlineDocInfo -> Completion ParsedDocument).

Definition _getScannedFeatures (document : ParsedDocument)
  : Completion (list ScannedFeature) :=
  match _scanners !! typeOf document with
  | Some scanners => scanWith document scanners
  | None => Return []
  end.

(** The state of a containing document while its inline documents are
    scanned: its features, of which those before the current one may have
    got their scanned document, and its warnings. *)
Section Inline.

(** [this._scanDocument], as far as the loop may call it. *)
Variable scanNested :
  gmap (list N) ScannedDocument -> ParsedDocument -> option (list N) ->
  option (gmap (list N) ScannedDocument * Completion ScannedDocument).

(** The loop of [_scanInlineDocuments] over the features that are left,
    [todo]; with the cache it gives the features and the warnings of the
    containing document as the loop leaves them, also when it throws.
    [None]: the nested scans are deeper than the loop may go. *)
Fixpoint _scanInlineDocuments (containingUrl : list N)
    (cache : gmap (list N) ScannedDocument)
    (done todo : list ScannedFeature) (warnings : list Warning)
  : option (gmap (list N) ScannedDocument
            * (list ScannedFeature * list Warning) * Completion unit) :=
  match todo with
  | [] => Some (cache, (done, warnings), Return tt)
  | ScannedInlineDocument feature old :: rest =>
      let locationOffset :=
        {| lo_line := i_line feature; lo_col := i_col feature;
           lo_filename := containingUrl |} in
      let caught (cache : gmap (list N) ScannedDocument) (err : Thrown) :=
        match err with
        | WarningCarryingException warning =>
            _scanInlineDocuments containingUrl cache
              (done ++ [ScannedInlineDocument feature old]) rest
              (warnings ++ [warning])
        | _ =>
            Some (cache,
                  (done ++ ScannedInlineDocument feature old :: rest,
                   warnings),
                  Throw err)
        end in
      match
        _parseContents ParsedDocument InlineDocInfo parsers
          (i_type feature) (i_contents feature) containingUrl
          (Some {| locationOffset := locationOffset;
                   idi_astNode := i_astNode feature |})
      with
      | Throw err => caught cache err
      | Return parsedDoc =>
          match scanNested cache parsedDoc (i_attachedComment feature) with
          | None => None
          | Some (cache, Throw err) => caught cache err
          | Some (cache, Return scannedDoc) =>
              _scanInlineDocuments containingUrl cache
                (done ++ [ScannedInlineDocument feature (Some scannedDoc)])
                rest warnings
          end
      end
  | feature :: rest =>
      _scanInlineDocuments containingUrl cache (done ++ [feature]) rest
        warnings
  end.

End Inline.

Definition alreadyInCache : Thrown :=
  Error (js "Scanned document already in cache. This should never happen.").

(** [firstScannedFeature.applyHtmlComment(maybeAttachedComment)] when the
    first feature is a scanned element. *)
Definition commentFirst (scannedFeatures : list ScannedFeature)
    (maybeAttachedComment : option (list N)) : list ScannedFeature :=
  match scannedFeatures with
  | ScannedElement element :: rest =>
      ScannedElement (applyHtmlComment element maybeAttachedComment) :: rest
  | _ => scannedFeatures
  end.

(** [_scanDocument], run without another scan in between.  The scanned
    document is one object, which the cache holds from the moment it is set
    and which the loop over the inline documents goes on changing: the
    entry of the cache is the document as the call leaves it.  [depth]
    bounds how deep inline documents may be nested in one another. *)
Fixpoint _scanDocument (depth : nat)
    (cache : gmap (list N) ScannedDocument) (document : ParsedDocument)
    (maybeAttachedComment : option (list N))
  : option (gmap (list N) ScannedDocument * Completion ScannedDocument) :=
  match depth with
  | 0 => None
  | S depth =>
      match _getScannedFeatures document with
      | Throw e => Some (cache, Throw e)
      | Return scannedFeatures =>
          let scannedFeatures :=
            commentFirst scannedFeatures maybeAttachedComment in
          let inlineScanned (cache : gmap (list N) ScannedDocument) :=
            _scanInlineDocuments (_scanDocument depth) (urlOf document)
              cache [] scannedFeatures [] in
          if isInlineOf document then
            match inlineScanned cache with
            | None => None
            | Some (cache, (features, warnings), completion) =>
                Some (cache,
                      match completion with
                      | Return _ =>
                          Return (newScannedDocument document features
                                    warnings)
                      | Throw e => Throw e
                      end)
            end
          else
            match cache !! urlOf document with
            | Some _ => Some (cache, Throw alreadyInCache)
            | None =>
                let cache :=
                  <[urlOf document :=
                      newScannedDocument document scannedFeatures []]>
                    cache in
                match inlineScanned cache with
                | None => None
                | Some (cache, (features, warnings), completion) =>
                    let scannedDocument :=
                      newScannedDocument document features warnings in
                    Some (<[urlOf document := scannedDocument]> cache,
                          match completion with
                          | Return _ => Return scannedDocument
                          | Throw e => Throw e
                          end)
                end
            end
      end
  end.

(** ** What the scan of a document guarantees *)

Definition isInlineFeature (f : ScannedFeature) : bool :=
  match f with ScannedInlineDocument _ _ => true | _ => false end.

(** The feature is an inline document that has its scanned document. *)
Definition attached (f : ScannedFeature) : bool :=
  match f with ScannedInlineDocument _ (Some _) => true | _ => false end.

(** The feature as a scanner leaves it: no scanned document yet. *)
Definition unattached (f : ScannedFeature) : Prop := attached f = false.

(** What the loop over the inline documents makes of a feature: it leaves
    it as it is, or gives an inline document its scanned document. *)
Definition inlineScanned (f f' : ScannedFeature) : Prop :=
  f' = f \/
  exists inline old scannedDoc,
    f = ScannedInlineDocument inline old /\
    f' = ScannedInlineDocument inline (Some scannedDoc).

(** What [_scanDocument] makes of the feature [f] that the scanners found
    at index [i]: a scanned element is as it was but for the comment, which
    is applied to it when it is the first feature; an inline document is as
    it was or has got a scanned document; any other feature is as it
    was. *)
Definition scannedFrom (maybeAttachedComment : option (list N)) (i : nat)
    (f f' : ScannedFeature) : Prop :=
  match f with
  | ScannedInlineDocument inline _ =>
      f' = f \/
      exists scannedDoc, f' = ScannedInlineDocument inline (Some scannedDoc)
  | ScannedElement element =>
      f' = ScannedElement
             match i with
             | 0 => applyHtmlComment element maybeAttachedComment
             | S _ => element
             end
  | OtherFeature _ => f' = f
  end.

Local Abbreviation inlineCount l :=
  (length (filter (fun f => isInlineFeature f = true) l)).
Local Abbreviation attachedCount l :=
  (length (filter (fun f => attached f = true) l)).

Section InlineFacts.
Variable scanNested :
  gmap (list N) ScannedDocument -> ParsedDocument -> option (list N) ->
  option (gmap (list N) ScannedDocument * Completion ScannedDocument).

Lemma _scanInlineDocuments_throws containingUrl todo :
  forall cache done warnings cache' state e,
    _scanInlineDocuments scanNested containingUrl cache done todo warnings
    = Some (cache', state, Throw e) ->
    instanceofWarningCarryingException e = false.
Proof.
  induction todo as [|feature rest IH];
    intros cache done warnings cache' state e; cbn [_scanInlineDocuments].
  - discriminate.
  - destruct feature as [inline old|element|other]; [|apply IH..].
    destruct (_parseContents _ _ _ _ _ _ _) as [parsedDoc|err].
    + destruct (scanNested cache parsedDoc _) as [[cache1 [d|err]]|];
        [apply IH| |discriminate].
      destruct err; try (intros [= <- <- <-]; reflexivity). apply IH.
    + destruct err; try (intros [= <- <- <-]; reflexivity). apply IH.
Qed.

Lemma _scanInlineDocuments_grows containingUrl todo :
  (forall cache parsedDoc comment cache' result,
      scanNested cache parsedDoc comment = Some (cache', result) ->
      cache ⊆ cache') ->
  forall cache done warnings cache' state completion,
    _scanInlineDocuments scanNested containingUrl cache done todo warnings
    = Some (cache', state, completion) ->
    cache ⊆ cache'.
Proof.
  intros Hnested.
  induction todo as [|feature rest IH];
    intros cache done warnings cache' state completion;
    cbn [_scanInlineDocuments].
  - now intros [= <- _ _].
  - destruct feature as [inline old|element|other]; [|apply IH..].
    destruct (_parseContents _ _ _ _ _ _ _) as [parsedDoc|err].
    + destruct (scanNested cache parsedDoc _) as [[cache1 [d|err]]|] eqn:Hscan;
        [| |discriminate]; apply Hnested in Hscan.
      * intros Hrest%IH. now transitivity cache1.
      * destruct err; try (now intros [= <- _ _]).
        intros Hrest%IH. now transitivity cache1.
    + destruct err; try (now intros [= <- _ _]). apply IH.
Qed.

Lemma _scanInlineDocuments_length containingUrl todo :
  forall cache done warnings cache' features' warnings' completion,
    _scanInlineDocuments scanNested containingUrl cache done todo warnings
    = Some (cache', (features', warnings'), completion) ->
    length features' = length done + length todo.
Proof.
  induction todo as [|feature rest IH];
    intros cache done warnings cache' features' warnings' completion;
    cbn [_scanInlineDocuments].
  - intros [= _ <- _ _]. cbn. lia.
  - assert (forall f cache0 warnings0,
              _scanInlineDocuments scanNested containingUrl cache0
                (done ++ [f]) rest warnings0
              = Some (cache', (features', warnings'), completion) ->
              length features' = length done + length (feature :: rest))
      as Hnext.
    { intros f cache0 warnings0 Hrun%IH.
      rewrite length_app in Hrun. cbn in *. lia. }
    assert (forall cache0 err,
              Some (cache0, (done ++ feature :: rest, warnings), Throw err)
              = Some (cache', (features', warnings'), completion) ->
              length features' = length done + length (feature :: rest))
      as Hthrown.
    { intros cache0 err [= _ <- _ _]. now rewrite length_app. }
    destruct feature as [inline old|element|other]; [|apply Hnext..].
    destruct (_parseContents _ _ _ _ _ _ _) as [parsedDoc|err].
    + destruct (scanNested cache parsedDoc _) as [[cache1 [d|err]]|];
        [apply Hnext| |discriminate].
      destruct err; try apply Hthrown. apply Hnext.
    + destruct err; try apply Hthrown. apply Hnext.
Qed.

Lemma _scanInlineDocuments_accounts containingUrl todo :
  forall cache done warnings cache' features' warnings',
    Forall unattached todo ->
    _scanInlineDocuments scanNested containingUrl cache done todo warnings
    = Some (cache', (features', warnings'), Return tt) ->
    length warnings' + attachedCount features'
    = length warnings + attachedCount done + inlineCount todo.
Proof.
  induction todo as [|feature rest IH];
    intros cache done warnings cache' features' warnings' Hfresh;
    cbn [_scanInlineDocuments].
  - intros [= _ <- <-]. cbn. lia.
  - apply Forall_cons_1 in Hfresh as [Hfeature Hfresh].
    rewrite filter_cons. cbn [length].
    assert (forall f cache0 warnings0,
              _scanInlineDocuments scanNested containingUrl cache0
                (done ++ [f]) rest warnings0
              = Some (cache', (features', warnings'), Return tt) ->
              length warnings' + attachedCount features'
              = length warnings0 + attachedCount done
                + (if attached f then 1 else 0) + inlineCount rest) as Hnext.
    { intros f cache0 warnings0 Hrun.
      apply IH in Hrun as Hcount; [|exact Hfresh].
      rewrite filter_app, length_app, filter_cons, filter_nil in Hcount.
      destruct (attached f).
      - rewrite decide_True in Hcount by reflexivity. cbn in Hcount. lia.
      - rewrite decide_False in Hcount by discriminate. cbn in Hcount. lia. }
    destruct feature as [inline old|element|other].
    + cbn [isInlineFeature]. rewrite decide_True by reflexivity.
      cbn [length].
      assert (attached (ScannedInlineDocument inline old) = false) as Hold
        by exact Hfeature.
      destruct (_parseContents _ _ _ _ _ _ _) as [parsedDoc|err].
      * destruct (scanNested cache parsedDoc _) as [[cache1 [d|err]]|];
          [| |discriminate].
        -- intros Hcount%Hnext. cbn in Hcount. lia.
        -- destruct err; try discriminate.
           intros Hcount%Hnext. rewrite Hold in Hcount.
           rewrite length_app in Hcount. cbn in Hcount. lia.
      * destruct err; try discriminate.
        intros Hcount%Hnext. rewrite Hold in Hcount.
        rewrite length_app in Hcount. cbn in Hcount. lia.
    + cbn [isInlineFeature]. rewrite decide_False by discriminate.
      intros Hcount%Hnext. cbn in Hcount. lia.
    + cbn [isInlineFeature]. rewrite decide_False by discriminate.
      intros Hcount%Hnext. cbn in Hcount. lia.
Qed.

Lemma _scanInlineDocuments_features containingUrl todo :
  forall cache done warnings cache' features' warnings' completion,
    _scanInlineDocuments scanNested containingUrl cache done todo warnings
    = Some (cache', (features', warnings'), completion) ->
    exists todo',
      features' = done ++ todo' /\ Forall2 inlineScanned todo todo'.
Proof.
  induction todo as [|feature rest IH];
    intros cache done warnings cache' features' warnings' completion;
    cbn [_scanInlineDocuments].
  - intros [= _ <- _ _]. exists []. split; [now rewrite app_nil_r|constructor].
  - assert (forall f cache0 warnings0,
              inlineScanned feature f ->
              _scanInlineDocuments scanNested containingUrl cache0
                (done ++ [f]) rest warnings0
              = Some (cache', (features', warnings'), completion) ->
              exists todo',
                features' = done ++ todo' /\
                Forall2 inlineScanned (feature :: rest) todo') as Hnext.
    { intros f cache0 warnings0 Hf (todo' & -> & Hrest)%IH.
      exists (f :: todo'). split; [now rewrite <- app_assoc|].
      now constructor. }
    assert (forall cache0 err,
              Some (cache0, (done ++ feature :: rest, warnings), Throw err)
              = Some (cache', (features', warnings'), completion) ->
              exists todo',
                features' = done ++ todo' /\
                Forall2 inlineScanned (feature :: rest) todo') as Hthrown.
    { intros cache0 err [= _ <- _ _]. exists (feature :: rest).
      split; [reflexivity|].
      apply Forall_Forall2_diag, Forall_forall. intros f _. now left. }
    destruct feature as [inline old|element|other];
      [|apply Hnext; now left..].
    destruct (_parseContents _ _ _ _ _ _ _) as [parsedDoc|err].
    + destruct (scanNested cache parsedDoc _) as [[cache1 [d|err]]|];
        [apply Hnext; right; eauto| |discriminate].
      destruct err; try apply Hthrown. apply Hnext. now left.
    + destruct err; try apply Hthrown. apply Hnext. now left.
Qed.

End InlineFacts.

Lemma commentFirst_counts scannedFeatures comment :
  length (commentFirst scannedFeatures comment) = length scannedFeatures /\
  inlineCount (commentFirst scannedFeatures comment)
  = inlineCount scannedFeatures /\
  (Forall unattached scannedFeatures ->
   Forall unattached (commentFirst scannedFeatures comment)).
Proof.
  destruct scannedFeatures as [|[inline old|element|other] rest];
    cbn; repeat split; try easy.
  intros [_ Hrest]%Forall_cons_1. now constructor.
Qed.

(** X22: A [WarningCarryingException] leaves [_scanDocument] only when the
    scanners threw it for the document itself: one that comes from an inline
    document, from its parser or from its scan, is caught and never fails
    the containing document. *)
Theorem _scanDocument_contains_warnings depth cache document0 comment
    cache' warning :
  _scanDocument depth cache document0 comment
  = Some (cache', Throw (WarningCarryingException warning)) ->
  _getScannedFeatures document0
  = Throw (WarningCarryingException warning).
Proof.
  destruct depth as [|depth]; cbn [_scanDocument]; [discriminate|].
  destruct (_getScannedFeatures document0) as [scannedFeatures|e].
  2: { now intros [= _ ->]. }
  assert (forall cache0 cache1 state e,
            _scanInlineDocuments (_scanDocument depth) (urlOf document0)
              cache0 [] (commentFirst scannedFeatures comment) []
            = Some (cache1, state, Throw e) ->
            e <> WarningCarryingException warning) as Hinline.
  { intros cache0 cache1 state e Hrun Heq.
    apply _scanInlineDocuments_throws in Hrun. now rewrite Heq in Hrun. }
  destruct (isInlineOf document0).
  - destruct (_scanInlineDocuments _ _ cache _ _ _)
      as [[[cache1 [fs ws]] [[]|e]]|] eqn:Hrun; try discriminate.
    intros [= _ ->]. now apply Hinline in Hrun.
  - destruct (cache !! urlOf document0); [discriminate|].
    destruct (_scanInlineDocuments _ _ _ _ _ _)
      as [[[cache1 [fs ws]] [[]|e]]|] eqn:Hrun; try discriminate.
    intros [= _ ->]. now apply Hinline in Hrun.
Qed.

Lemma commentFirst_lookup scannedFeatures comment i f :
  scannedFeatures !! i = Some f ->
  exists g,
    commentFirst scannedFeatures comment !! i = Some g /\
    forall f', inlineScanned g f' -> scannedFrom comment i f f'.
Proof.
  intros Hf.
  assert (forall f', inlineScanned f f' -> scannedFrom comment (S i) f f')
    as Hlater.
  { intros f' [->|(inline & old & d & -> & ->)].
    - destruct f; cbn; auto.
    - cbn. eauto. }
  destruct scannedFeatures as [|first rest]; [discriminate|].
  destruct i as [|i].
  - injection Hf as ->. destruct f as [inline old|element|other]; cbn.
    + eexists. split; [reflexivity|].
      intros f' [->|(inline' & old' & d & [= <- _] & ->)]; eauto.
    + eexists. split; [reflexivity|].
      now intros f' [->|(inline' & old' & d & [=] & _)].
    + eexists. split; [reflexivity|].
      now intros f' [->|(inline' & old' & d & [=] & _)].
  - exists f. split.
    + now destruct first.
    + intros f' Hf'. apply Hlater in Hf'. now destruct f.
Qed.


Lemma _scanDocument_grows depth :
  forall cache document0 comment cache' result,
    _scanDocument depth cache document0 comment = Some (cache', result) ->
    cache ⊆ cache'.
Proof.
  induction depth as [|depth IH];
    intros cache document0 comment cache' result; cbn [_scanDocument];
    [discriminate|].
  destruct (_getScannedFeatures document0) as [scannedFeatures|e].
  2: { now intros [= <- _]. }
  destruct (isInlineOf document0).
  - destruct (_scanInlineDocuments _ _ cache _ _ _)
      as [[[cache1 [fs ws]] completion]|] eqn:Hloop; [|discriminate].
    intros [= <- _].
    now apply (_scanInlineDocuments_grows _ _ _ IH) in Hloop.
  - destruct (cache !! urlOf document0) eqn:Hurl.
    { now intros [= <- _]. }
    destruct (_scanInlineDocuments _ _ _ _ _ _)
      as [[[cache1 [fs ws]] completion]|] eqn:Hloop; [|discriminate].
    intros [= <- _].
    apply (_scanInlineDocuments_grows _ _ _ IH) in Hloop.
    apply insert_subseteq_r; [exact Hurl|].
    transitivity (<[urlOf document0 :=
                      newScannedDocument document0
                        (commentFirst scannedFeatures comment) []]> cache);
      [|exact Hloop].
    now apply insert_subseteq.
Qed.

(** X24: The scan of a document keeps every entry that the cache of scanned
    documents has. A document that is not inline and whose features the
    scanners could find is refused when the cache has its URL, with the
    cache left as it is; otherwise it is in the cache after the call under
    its URL, whether the call returns it or throws because one of its inline
    documents could not be scanned. *)
Theorem _scanDocument_registers depth cache document0 comment
    scannedFeatures cache' result :
  _scanDocument depth cache document0 comment = Some (cache', result) ->
  cache ⊆ cache' /\
  (_getScannedFeatures document0 = Return scannedFeatures ->
   isInlineOf document0 = false ->
   match cache !! urlOf document0 with
   | Some _ => result = Throw alreadyInCache /\ cache' = cache
   | None =>
       exists scannedDocument,
         cache' !! urlOf document0 = Some scannedDocument /\
         document scannedDocument = document0 /\
         length (features scannedDocument) = length scannedFeatures /\
         forall returned, result = Return returned ->
                          returned = scannedDocument
   end).
Proof.
  intros Hrun. split; [now apply _scanDocument_grows in Hrun|].
  intros Hfound Hinline. revert Hrun.
  destruct depth as [|depth]; cbn [_scanDocument]; [discriminate|].
  rewrite Hfound, Hinline.
  destruct (cache !! urlOf document0) eqn:Hurl.
  { now intros [= <- <-]. }
  destruct (_scanInlineDocuments _ _ _ _ _ _)
    as [[[cache1 [fs ws]] completion]|] eqn:Hloop; [|discriminate].
  intros [= <- <-].
  exists (newScannedDocument document0 fs ws).
  split; [apply lookup_insert_eq|]. split; [reflexivity|]. split.
  - apply _scanInlineDocuments_length in Hloop. cbn in *.
    rewrite Hloop. apply commentFirst_counts.
  - destruct completion as [[]|e]; [now intros returned [= <-]|discriminate].
Qed.

(** ** The bound on the depth *)

Definition parseInline (containingUrl : list N) (inline : InlineDocument)
  : Completion ParsedDocument :=
  _parseContents ParsedDocument InlineDocInfo parsers
    (i_type inline) (i_contents inline) containingUrl
    (Some {| locationOffset :=
               {| lo_line := i_line inline; lo_col := i_col inline;
                  lo_filename := containingUrl |};
             idi_astNode := i_astNode inline |}).

Lemma _scanInlineDocuments_total scanNested containingUrl todo :
  (forall inline old parsedDoc,
      ScannedInlineDocument inline old ∈ todo ->
      parseInline containingUrl inline = Return parsedDoc ->
      forall cache comment, is_Some (scanNested cache parsedDoc comment)) ->
  forall cache done warnings,
    is_Some (_scanInlineDocuments scanNested containingUrl cache done todo
               warnings).
Proof.
  induction todo as [|feature rest IH]; intros Hnested cache done warnings;
    cbn [_scanInlineDocuments]; [eauto|].
  assert (forall cache0 done0 warnings0,
            is_Some (_scanInlineDocuments scanNested containingUrl cache0
                       done0 rest warnings0)) as Hrest.
  { apply IH. intros inline old parsedDoc Hin.
    apply (Hnested inline old). apply elem_of_cons. now right. }
  destruct feature as [inline old|element|other]; [|apply Hrest..].
  pose proof (Hnested inline old) as Hthis.
  unfold parseInline in Hthis.
  destruct (_parseContents _ _ _ _ _ _ _) as [parsedDoc|err].
  - destruct (Hthis parsedDoc) with (cache := cache)
        (comment := i_attachedComment inline) as [[cache1 [d|err]] ->];
      [apply elem_of_cons; now left|reflexivity|apply Hrest|].
    destruct err; eauto.
  - destruct err; eauto.
Qed.

Lemma _scanInlineDocuments_deeper scanNested scanNested' containingUrl todo :
  (forall cache parsedDoc comment result,
      scanNested cache parsedDoc comment = Some result ->
      scanNested' cache parsedDoc comment = Some result) ->
  forall cache done warnings result,
    _scanInlineDocuments scanNested containingUrl cache done todo warnings
    = Some result ->
    _scanInlineDocuments scanNested' containingUrl cache done todo warnings
    = Some result.
Proof.
  intros Hdeeper.
  induction todo as [|feature rest IH]; intros cache done warnings result;
    cbn [_scanInlineDocuments]; [easy|].
  destruct feature as [inline old|element|other]; [|apply IH..].
  destruct (_parseContents _ _ _ _ _ _ _) as [parsedDoc|err].
  - destruct (scanNested cache parsedDoc _) as [nested|] eqn:Hnested;
      [|discriminate].
    rewrite (Hdeeper _ _ _ _ Hnested).
    destruct nested as [cache1 [d|err]]; [apply IH|].
    destruct err; try easy; apply IH.
  - destruct err; try easy; apply IH.
Qed.

Lemma commentFirst_inline scannedFeatures comment inline old :
  ScannedInlineDocument inline old ∈ commentFirst scannedFeatures comment ->
  ScannedInlineDocument inline old ∈ scannedFeatures.
Proof.
  destruct scannedFeatures as [|[inline' old'|element|other] rest]; cbn;
    try easy.
  rewrite !elem_of_cons. intros [[=]|Hin]. now right.
Qed.

(** X25: When inline documents cannot be nested in one another without end,
    that is when some measure of a document is larger than that of every
    document parsed from one of its inline documents, [_scanDocument] comes
    to a result at every depth above the measure; and going deeper than
    needed changes nothing of a result. *)
Theorem _scanDocument_terminates (measure : ParsedDocument -> nat) :
  (forall document0 scannedFeatures inline old parsedDoc,
      _getScannedFeatures document0 = Return scannedFeatures ->
      ScannedInlineDocument inline old ∈ scannedFeatures ->
      parseInline (urlOf document0) inline = Return parsedDoc ->
      measure parsedDoc < measure document0) ->
  (forall depth cache document0 comment,
      measure document0 < depth ->
      is_Some (_scanDocument depth cache document0 comment)) /\
  (forall depth depth' cache document0 comment result,
      depth <= depth' ->
      _scanDocument depth cache document0 comment = Some result ->
      _scanDocument depth' cache document0 comment = Some result).
Proof.
  intros Hmeasure. split.
  - induction depth as [|depth IH]; intros cache document0 comment Hdepth;
      [lia|].
    cbn [_scanDocument].
    destruct (_getScannedFeatures document0) as [scannedFeatures|e] eqn:Hfound;
      [|eauto].
    assert (forall cache0,
              is_Some (_scanInlineDocuments (_scanDocument depth)
                         (urlOf document0) cache0 []
                         (commentFirst scannedFeatures comment) []))
      as Hloop.
    { intros cache0. apply _scanInlineDocuments_total.
      intros inline old parsedDoc Hin%commentFirst_inline Hparsed
        cache1 comment1.
      apply IH.
      pose proof (Hmeasure _ _ _ _ _ Hfound Hin Hparsed). lia. }
    destruct (isInlineOf document0).
    + destruct (Hloop cache) as [[[cache1 [fs ws]] completion] ->]. eauto.
    + destruct (cache !! urlOf document0); [eauto|].
      destruct (Hloop (<[urlOf document0 :=
                           newScannedDocument document0
                             (commentFirst scannedFeatures comment) []]>
                         cache))
        as [[[cache1 [fs ws]] completion] ->].
      eauto.
  - induction depth as [|depth IH];
      intros depth' cache document0 comment result Hle; [discriminate|].
    destruct depth' as [|depth']; [lia|]. cbn [_scanDocument].
    destruct (_getScannedFeatures document0) as [scannedFeatures|e];
      [|easy].
    assert (forall cache0 looped,
              _scanInlineDocuments (_scanDocument depth) (urlOf document0)
                cache0 [] (commentFirst scannedFeatures comment) []
              = Some looped ->
              _scanInlineDocuments (_scanDocument depth') (urlOf document0)
                cache0 [] (commentFirst scannedFeatures comment) []
              = Some looped) as Hloop.
    { intros cache0 looped. apply _scanInlineDocuments_deeper.
      intros cache1 parsedDoc comment1 nested. apply IH. lia. }
    destruct (isInlineOf document0).
    + destruct (_scanInlineDocuments (_scanDocument depth) _ _ _ _ _)
        as [looped|] eqn:Hrun; [|discriminate].
      now rewrite (Hloop _ _ Hrun).
    + destruct (cache !! urlOf document0); [easy|].
      destruct (_scanInlineDocuments (_scanDocument depth) _ _ _ _ _)
        as [looped|] eqn:Hrun; [|discriminate].
      now rewrite (Hloop _ _ Hrun).
Qed.

End Pipeline.

(** *** A closed instance: markup with inline markup and an inline style
    sheet that cannot be parsed

    A document is its text with the mark of being inline; the text but for
    its first character is the one inline document of it, a style sheet
    when the first character is 'x'.  The scanners throw on a text that
    starts with '!'. *)

Definition Text : Type := list N * bool.

Definition badStyle : Warning :=
  {| w_sourceRange :=
       {| file := js "a.html"; start := {| line := 0; column := 0 |};
          end_ := {| line := 0; column := 1 |} |};
     w_code := js "parse-error"; w_message := js "Unexpected token";
     w_severity := ERROR |}.

Definition sampleParsers
  : gmap (list N)
      (list N -> list N -> option InlineDocInfo -> Completion Text) :=
  {[ js "html" := fun contents _ _ => Return (contents, true);
     js "css" := fun _ _ _ => Throw (WarningCarryingException badStyle) ]}.

Definition inlineOf (c : N) (rest : list N) : InlineDocument :=
  {| i_type := if (c =? 120)%N then js "css" else js "html";
     i_contents := rest; i_line := 0; i_col := 0;
     i_attachedComment := None; i_astNode := 0 |}.

Definition sampleScanWith (text : Text) (_ : unit)
  : Completion (list (ScannedFeature Text unit unit)) :=
  match text.1 with
  | [] => Return []
  | c :: rest =>
      if (c =? 33)%N then Throw (WarningCarryingException badStyle)
      else Return [ScannedElement Text unit unit tt;
                   ScannedInlineDocument Text unit unit (inlineOf c rest)
                     None]
  end.

Definition sampleFeatures (text : Text)
  : Completion (list (ScannedFeature Text unit unit)) :=
  _getScannedFeatures Text (fun _ => js "html") unit unit unit
    {[ js "html" := tt ]} sampleScanWith text.

Definition sampleRun (depth : nat) (text : Text)
  : option (gmap (list N) (ScannedDocument Text unit unit)
            * Completion (ScannedDocument Text unit unit)) :=
  _scanDocument Text (fun _ => js "html") (fun _ => js "a.html") snd
    unit unit (fun e _ => e) unit {[ js "html" := tt ]} sampleScanWith
    sampleParsers depth ∅ text None.

Lemma sampleFeatures_unfold text :
  sampleFeatures text = sampleScanWith text tt.
Proof. reflexivity. Qed.

Lemma _scanDocument_contains_warnings_witness :
  sampleFeatures (js "!a", false)
  = Throw (WarningCarryingException badStyle).
Proof.
  apply (_scanDocument_contains_warnings Text (fun _ => js "html")
           (fun _ => js "a.html") snd unit unit (fun e _ => e) unit
           {[ js "html" := tt ]} sampleScanWith sampleParsers 1 ∅
           (js "!a", false) None ∅ badStyle).
  reflexivity.
Defined.

(** The same markup with another element after the inline document; a
    scanned element is the comment that was applied to it. *)
Definition notedScanWith (text : Text) (_ : unit)
  : Completion (list (ScannedFeature Text (option (list N)) unit)) :=
  match text.1 with
  | [] => Return []
  | c :: rest =>
      Return [ScannedElement Text (option (list N)) unit None;
              ScannedInlineDocument Text (option (list N)) unit
                (inlineOf c rest) None;
              ScannedElement Text (option (list N)) unit None]
  end.

Definition notedRun (depth : nat) (text : Text) (comment : option (list N))
  : option (gmap (list N) (ScannedDocument Text (option (list N)) unit)
            * Completion (ScannedDocument Text (option (list N)) unit)) :=
  _scanDocument Text (fun _ => js "html") (fun _ => js "a.html") snd
    (option (list N)) unit (fun _ comment => comment) unit
    {[ js "html" := tt ]} notedScanWith sampleParsers depth ∅ text comment.


(** In that run the inline document has got its scanned document, whose one
    warning is that of its own inline style sheet. *)
Example notedRun_attaches :
  match notedRun 3 (js "ax", false) (Some (js "note")) with
  | Some (_, Return scannedDocument) =>
      map (fun f =>
             match f with
             | ScannedInlineDocument _ _ _ _ (Some inner) =>
                 Some (warnings Text (option (list N)) unit inner)
             | _ => None
             end)
          (features Text (option (list N)) unit scannedDocument)
      = [None; Some [badStyle]; None] /\
      warnings Text (option (list N)) unit scannedDocument = []
  | _ => False
  end.
Proof. vm_compute. split; reflexivity. Qed.

Lemma _scanDocument_registers_witness :
  match sampleRun 3 (js "ax", false) with
  | Some (cache', result) =>
      ∅ ⊆ cache' /\
      exists scannedDocument,
        cache' !! js "a.html" = Some scannedDocument /\
        document Text unit unit scannedDocument = (js "ax", false) /\
        length (features Text unit unit scannedDocument) = 2 /\
        forall returned, result = Return returned ->
                         returned = scannedDocument
  | None => False
  end.
Proof.
  destruct (sampleRun 3 (js "ax", false)) as [[cache' result]|] eqn:Hrun;
    [|vm_compute in Hrun; discriminate].
  unfold sampleRun in Hrun.
  eapply _scanDocument_registers
    with (scannedFeatures :=
            [ScannedElement Text unit unit tt;
             ScannedInlineDocument Text unit unit (inlineOf 97 (js "x"))
               None]) in Hrun.
  destruct Hrun as [Hgrows Hregistered].
  split; [exact Hgrows|].
  apply Hregistered; reflexivity.
Defined.

Lemma sample_measure (document0 : Text) scannedFeatures inline old parsedDoc :
  sampleFeatures document0 = Return scannedFeatures ->
  ScannedInlineDocument Text unit unit inline old ∈ scannedFeatures ->
  parseInline Text sampleParsers (js "a.html") inline = Return parsedDoc ->
  length parsedDoc.1 < length document0.1.
Proof.
  rewrite sampleFeatures_unfold. unfold sampleScanWith.
  destruct document0 as [[|c rest] inlined]; cbn [fst].
  - intros [= <-] Hin. now apply elem_of_nil in Hin.
  - destruct (c =? 33)%N; [discriminate|]. intros [= <-] Hin.
    apply elem_of_cons in Hin as [[=]|Hin].
    apply list_elem_of_singleton in Hin. injection Hin as -> _.
    unfold parseInline, _parseContents, inlineOf. cbn.
    destruct (c =? 120)%N.
    + vm_compute. discriminate.
    + replace (sampleParsers !! js "html")
        with (Some (fun (contents : list N) (_ : list N)
                        (_ : option InlineDocInfo) =>
                      @Return Text (contents, true)))
        by (vm_compute; reflexivity).
      intros [= <-]. cbn. lia.
Qed.

Lemma _scanDocument_terminates_witness :
  is_Some (sampleRun 3 (js "ax", false)).
Proof.
  apply (_scanDocument_terminates Text (fun _ => js "html")
           (fun _ => js "a.html") snd unit unit (fun e _ => e) unit
           {[ js "html" := tt ]} sampleScanWith sampleParsers
           (fun text => length text.1)).
  - exact sample_measure.
  - cbn. lia.
Defined.

End LocalScan.
